(** * Peregrine: query compilation and authorization scoping

    A shallow embedding of
      - [peregrine/resources/submission/graphql/util.py]
        ([authorization_filter], [active_project_filter], [apply_arg_limit],
        [apply_arg_offset]) and
      - [peregrine/resources/submission/graphql/node.py]
        ([filter_project_project_id], [with_path_to], [apply_arg_quicksearch],
        [apply_query_args], [NodeCounter.add_count]).

    The Python code builds SQLAlchemy / psqlgraph query objects.  A query is
    modelled by what it denotes on a fixed database: the list of joined
    tuples its FROM / WHERE part yields, together with the ORDER BY, LIMIT
    and OFFSET attributes the query object carries.  Python exceptions are
    values of an error monad. *)

From Stdlib Require Import List String Ascii ZArith Bool Lia Arith.
From Stdlib Require Import DecimalString.
From Stdlib Require DecimalNat DecimalFacts FinFun.
Import ListNotations.
Open Scope string_scope.

Set Implicit Arguments.

(** ** Errors and the result monad *)

Inductive PyError : Type :=
| RuntimeError (msg : string)
| TypeError
| IndexError
| KeyError (key : string)
| AttributeError (name : string)
| InvalidRequestError      (* SQLAlchemy: filter/join/order_by after LIMIT *)
| ValueError
| NameError (name : string)
| Diverges.                (* a loop that has not finished within the fuel *)

Inductive result (A : Type) : Type :=
| Ok (a : A)
| Err (e : PyError).
Arguments Ok {A} a.
Arguments Err {A} e.

Definition bind {A B} (m : result A) (k : A -> result B) : result B :=
  match m with
  | Ok a => k a
  | Err e => Err e
  end.

Notation "x <- m ;; k" := (bind m (fun x => k))
  (at level 61, m at next level, right associativity).
Notation "' p <- m ;; k" := (bind m (fun p => k))
  (at level 61, p pattern, m at next level, right associativity).

Fixpoint foldM {A B} (f : B -> A -> result B) (l : list A) (b : B) : result B :=
  match l with
  | [] => Ok b
  | a :: l' => b' <- f b a ;; foldM f l' b'
  end.

Fixpoint mapM {A B} (f : A -> result B) (l : list A) : result (list B) :=
  match l with
  | [] => Ok []
  | a :: l' => b <- f a ;; bs <- mapM f l' ;; Ok (b :: bs)
  end.

(** ** Strings *)

Module Str.

Definition of_Z (z : Z) : string := NilZero.string_of_int (Z.to_int z).
Definition of_nat (n : nat) : string := NilZero.string_of_uint (Nat.to_uint n).

(** Lower case of the letters A to Z, every other character kept: what
    [str.lower] and SQL [lower()] both give on ASCII text.  The lowering
    the code does is [py_lower] and [pg_lower] of the world; the sample
    worlds, whose texts are ASCII, take this function for both. *)
Definition lower_ascii (c : ascii) : ascii :=
  let n := nat_of_ascii c in
  if (65 <=? n)%nat && (n <=? 90)%nat then ascii_of_nat (n + 32) else c.

Fixpoint lower (s : string) : string :=
  match s with
  | EmptyString => EmptyString
  | String c s' => String (lower_ascii c) (lower s')
  end.

(** [s.split("-", 1)]: [None] when there is no hyphen (a one-element list
    in Python), otherwise the text before and after the first hyphen. *)
Fixpoint split_hyphen (s : string) : option (string * string) :=
  match s with
  | EmptyString => None
  | String c s' =>
      if Ascii.eqb c "-"%char then Some (EmptyString, s')
      else match split_hyphen s' with
           | Some (a, b) => Some (String c a, b)
           | None => None
           end
  end.

(** SQL [LIKE]: [%] matches any run of characters, [_] exactly one, and a
    backslash makes the next pattern character literal.  Every pattern
    built in this module ends in [%], so a pattern ending in a lone
    backslash (an error in PostgreSQL) never occurs; it matches nothing. *)
Fixpoint like (p : string) (s : string) {struct p} : bool :=
  match p with
  | EmptyString => match s with EmptyString => true | _ => false end
  | String c p' =>
      if Ascii.eqb c "%"%char then
        (fix star (s : string) : bool :=
           like p' s ||
           match s with
           | EmptyString => false
           | String _ s' => star s'
           end) s
      else if Ascii.eqb c "_"%char then
        match s with
        | EmptyString => false
        | String _ s' => like p' s'
        end
      else if Ascii.eqb c "\"%char then
        match p' with
        | EmptyString => false
        | String e p'' =>
            match s with
            | EmptyString => false
            | String d s' => Ascii.eqb e d && like p'' s'
            end
        end
      else
        match s with
        | EmptyString => false
        | String d s' => Ascii.eqb c d && like p' s'
        end
  end.

(** [col.contains(x)] of SQLAlchemy: [col LIKE '%' || x || '%'], with no
    escaping of [x]. *)
Definition contains (s x : string) : bool := like ("%" ++ x ++ "%") s.

Definition dquote : ascii := ascii_of_nat 34.

(** The text [s] between double quotes. *)
Definition quoted (s : string) : string :=
  String dquote (s ++ String dquote EmptyString).

Definition hex_digit (n : nat) : ascii :=
  if (n <? 10)%nat then ascii_of_nat (48 + n) else ascii_of_nat (87 + n).

(** JSON string escaping as PostgreSQL prints jsonb text. *)
Definition json_escape_ascii (c : ascii) : string :=
  let n := nat_of_ascii c in
  if Ascii.eqb c dquote then String "\"%char (String dquote EmptyString)
  else if Ascii.eqb c "\"%char then "\\"
  else if (n =? 8)%nat then "\b"
  else if (n =? 12)%nat then "\f"
  else if (n =? 10)%nat then "\n"
  else if (n =? 13)%nat then "\r"
  else if (n =? 9)%nat then "\t"
  else if (n <? 32)%nat then
    "\u00" ++ String (hex_digit (n / 16)) (String (hex_digit (n mod 16)) EmptyString)
  else String c EmptyString.

Fixpoint json_escape (s : string) : string :=
  match s with
  | EmptyString => EmptyString
  | String c s' => json_escape_ascii c ++ json_escape s'
  end.

Definition json_quote (s : string) : string :=
  String dquote (json_escape s ++ String dquote EmptyString).

Definition json_array (l : list string) : string :=
  "[" ++ String.concat ", " (map json_quote l) ++ "]".

Definition mem (s : string) (l : list string) : bool :=
  existsb (String.eqb s) l.

End Str.

(** ** Python values of an argument bundle

    The GraphQL layer hands [apply_query_args] a [dict] whose values are
    strings, booleans, integers, [None], lists of those, or (for [not] and
    the traversal filters) dictionaries.  Float arguments are left out of
    the embedding. *)

Inductive Scalar : Type :=
| SStr (s : string)
| SBool (b : bool)
| SInt (z : Z)
| SNone.

Inductive Value : Type :=
| VScalar (s : Scalar)
| VList (l : list Scalar).

Definition Dict := list (string * Value).

Inductive Arg : Type :=
| AVal (v : Value)
| ADict (d : Dict)
| ADicts (l : list Dict).

(** A Python [dict], in insertion order. *)
Definition Args := list (string * Arg).

Fixpoint lookup {A} (k : string) (d : list (string * A)) : option A :=
  match d with
  | [] => None
  | (k', v) :: d' => if String.eqb k k' then Some v else lookup k d'
  end.

Definition keys {A} (d : list (string * A)) : list string := map fst d.

(** [str(v)] *)
Definition py_str (v : Scalar) : string :=
  match v with
  | SStr s => s
  | SBool true => "True"
  | SBool false => "False"
  | SInt z => Str.of_Z z
  | SNone => "None"
  end.

(** Truth value of a Python object, as [if not x] tests it. *)
Definition truthy (v : Scalar) : bool :=
  match v with
  | SStr s => negb (String.eqb s EmptyString)
  | SBool b => b
  | SInt z => negb (Z.eqb z 0)
  | SNone => false
  end.

(** [repr] of a scalar; for a string, of one without quotes or escapes. *)
Definition py_repr (v : Scalar) : string :=
  match v with
  | SStr s => "'" ++ s ++ "'"
  | _ => py_str v
  end.

(** [format] of a value. *)
Definition py_format (v : Value) : string :=
  match v with
  | VScalar s => py_str s
  | VList l => "[" ++ String.concat ", " (map py_repr l) ++ "]"
  end.

Definition Scalar_eq_dec (a b : Scalar) : {a = b} + {a <> b}.
Proof.
  decide equality.
  - apply string_dec.
  - apply Bool.bool_dec.
  - apply Z.eq_dec.
Defined.

(** [val if isinstance(val, list) else [val]] *)
Definition as_list (v : Value) : list Scalar :=
  match v with
  | VScalar s => [s]
  | VList l => l
  end.

(** ** The graph: node rows, classes, schema, database *)

(** A JSONB property value.  Arrays hold strings, as the GraphQL layer
    assumes ([lookup_graphql_type]). *)
Inductive JVal : Type :=
| JStr (s : string)
| JBool (b : bool)
| JInt (z : Z)
| JList (l : list string)
| JNull.

Record Row : Type := mkRow {
  node_id : string;
  label : string;
  props : list (string * JVal)
}.

Definition JVal_eq_dec (a b : JVal) : {a = b} + {a <> b}.
Proof.
  decide equality.
  - apply string_dec.
  - apply Bool.bool_dec.
  - apply Z.eq_dec.
  - apply (list_eq_dec string_dec).
Defined.

Definition Row_eq_dec (a b : Row) : {a = b} + {a <> b}.
Proof.
  decide equality; try apply string_dec.
  apply list_eq_dec. intros x y.
  decide equality; [apply JVal_eq_dec | apply string_dec].
Defined.

Definition row_eqb (a b : Row) : bool :=
  if Row_eq_dec a b then true else false.

(** A model class: [psqlgraph.Node] itself or one of its generated
    subclasses, identified by its label.  The third constructor is the
    graphene interface that [node.py] binds to the module-level name [Node];
    it is a Python class object too, but no query ever has it as entity. *)
Inductive Cls : Type :=
| PsqlNode
| Model (l : string)
| GrapheneNode.

Definition cls_eqb (a b : Cls) : bool :=
  match a, b with
  | PsqlNode, PsqlNode => true
  | Model x, Model y => String.eqb x y
  | GrapheneNode, GrapheneNode => true
  | _, _ => false
  end.

Definition ocls_eqb (a b : option Cls) : bool :=
  match a, b with
  | Some x, Some y => cls_eqb x y
  | None, None => true
  | _, _ => false
  end.

(** [cls.label] *)
Definition cls_label (c : Cls) : string :=
  match c with
  | PsqlNode => "node"
  | Model l => l
  | GrapheneNode => "Node"
  end.

Definition Project : Cls := Model "project".
Definition Program : Cls := Model "program".

(** The first component of [__pg_properties__[key]]. *)
Inductive PropType : Type := TList | TBool | TOther.

Record Schema : Type := mkSchema {
  pg_properties : Cls -> list (string * PropType);  (* __pg_properties__ *)
  pg_links : Cls -> list (string * Cls);            (* _pg_links: name, dst_type *)
  pg_backrefs : Cls -> list (string * Cls);         (* _pg_backrefs: name, src_type *)
  pg_edges : Cls -> list (string * Cls);            (* _pg_edges: name, type *)
  has_attr : Cls -> string -> bool;                 (* hasattr(cls, name) *)
  tablename : Cls -> string                         (* __tablename__ *)
}.

(** Stored association: the node [a_src] has the node [a_dst] under its
    relationship attribute [a_name] (a link, a backref or a shortcut). *)
Record Assoc : Type := mkAssoc {
  a_src : string;
  a_name : string;
  a_dst : string
}.

Record Database : Type := mkDatabase {
  db_nodes : list Row;
  db_assocs : list Assoc
}.

(** What one request sees: the application ([capp]), the request globals
    ([flask.g]) and the functions of the libraries underneath. *)
Record World : Type := mkWorld {
  schema : Schema;
  db : Database;
  node_authz_entity : option Cls;                    (* capp.node_authz_entity *)
  subject_entity : option Cls;                       (* capp.subject_entity *)
  read_access_permissions : list (string * list string);
  read_access_projects : list string;
  cached_active_project_ids : list string;           (* fg.get("active_project_ids") *)
  case_cache_enabled : bool;
  find_paths : Cls -> string -> option (list (list string)); (* the schema-graph search *)
  parse : string -> option Z;                        (* dateutil.parser.parse *)
  pg_timestamp : JVal -> option Z;                   (* cast to String, then DateTime *)
  text_le : string -> string -> bool;                (* collation of node_id *)
  jsonb_le : option JVal -> option JVal -> bool;     (* ordering of jsonb values *)
  py_lower : string -> string;                       (* Python's [str.lower] *)
  pg_lower : string -> string                        (* SQL [lower()], by the database locale *)
}.

(** ** SQL values and predicates (three-valued logic) *)

Module Sql.

(** [None] is SQL NULL. *)
Definition sbool := option bool.

Definition and3 (a b : sbool) : sbool :=
  match a, b with
  | Some false, _ | _, Some false => Some false
  | Some true, Some true => Some true
  | _, _ => None
  end.

Definition or3 (a b : sbool) : sbool :=
  match a, b with
  | Some true, _ | _, Some true => Some true
  | Some false, Some false => Some false
  | _, _ => None
  end.

Definition not3 (a : sbool) : sbool := option_map negb a.

(** [sa.and_] and [sa.or_] of a list of conditions *)
Definition and_ (l : list sbool) : sbool := fold_right and3 (Some true) l.
Definition or_ (l : list sbool) : sbool := fold_right or3 (Some false) l.

(** A WHERE clause keeps a row when its condition is true. *)
Definition holds (a : sbool) : bool :=
  match a with Some true => true | _ => false end.

Definition eq_text (x : option string) (s : string) : sbool :=
  option_map (fun v => String.eqb v s) x.

Definition neq_text (x : option string) (s : string) : sbool :=
  option_map (fun v => negb (String.eqb v s)) x.

(** [x.in_(l)] *)
Definition in_text (x : option string) (l : list string) : sbool :=
  option_map (fun v => Str.mem v l) x.

(** [x.in_(l)] where the list holds bound parameters, [None] being NULL. *)
Definition in_params (x : option string) (l : list (option string)) : sbool :=
  match x with
  | None => None
  | Some v =>
      if existsb (fun p => match p with Some s => String.eqb v s | None => false end) l
      then Some true
      else if existsb (fun p => match p with None => true | Some _ => false end) l
           then None
           else Some false
  end.

Definition like (x : option string) (pattern : string) : sbool :=
  option_map (Str.like pattern) x.

Definition contains (x : option string) (s : string) : sbool :=
  option_map (fun v => Str.contains v s) x.

Definition lower (w : World) (x : option string) : option string :=
  option_map (pg_lower w) x.

Definition length (x : option string) : option nat := option_map String.length x.

(** [props ->> key]: the property as text. *)
Definition astext (r : Row) (key : string) : option string :=
  match lookup key (props r) with
  | None | Some JNull => None
  | Some (JStr s) => Some s
  | Some (JBool true) => Some "true"
  | Some (JBool false) => Some "false"
  | Some (JInt z) => Some (Str.of_Z z)
  | Some (JList l) => Some (Str.json_array l)
  end.

Definition scalar_matches (j : JVal) (s : Scalar) : bool :=
  match j, s with
  | JStr a, SStr b => String.eqb a b
  | JBool a, SBool b => Bool.eqb a b
  | JInt a, SInt b => Z.eqb a b
  | JNull, SNone => true
  | _, _ => false
  end.

(** [_props.contains({key: val})], jsonb containment of a one-key object. *)
Definition props_contains (r : Row) (key : string) (v : Value) : sbool :=
  match lookup key (props r), v with
  | Some (JList l), VList xs =>
      Some (forallb (fun x => match x with
                              | SStr s => Str.mem s l
                              | _ => false
                              end) xs)
  | Some (JList _), VScalar _ => Some false
  | Some j, VScalar s => Some (scalar_matches j s)
  | _, _ => Some false
  end.

End Sql.

(** ** Queries *)

(** One row of the joined FROM clause: the row of the query's own entity
    and the rows joined to it by [path], in join order. *)
Record Tuple : Type := mkTuple {
  t_zero : Row;
  t_joined : list (Cls * Row)
}.

Definition Pred := Tuple -> Sql.sbool.

Record Query : Type := mkQuery {
  q_zero : Cls;                              (* the entity the query selects *)
  q_joinpoint : Cls;                         (* what [q.entity()] returns *)
  q_tuples : list Tuple;                     (* FROM ... WHERE ... *)
  q_order : list (Tuple -> Tuple -> bool);   (* ORDER BY criteria, in order *)
  q_limit : option Z;
  q_offset : option Z
}.

Module Q.

Definition single (r : Row) : Tuple := mkTuple r [].

Definition of_rows (c : Cls) (rows : list Row) : Query :=
  mkQuery c c (map single rows) [] None None.

Definition is_instance (c : Cls) (r : Row) : bool :=
  match c with
  | PsqlNode => true
  | Model l => String.eqb (label r) l
  | GrapheneNode => false
  end.

(** [capp.db.nodes(cls)] *)
Definition nodes (w : World) (c : Cls) : Query :=
  of_rows c (filter (is_instance c) (db_nodes (db w))).

Definition entity (q : Query) : Cls := q_joinpoint q.

(** The row a tuple holds for class [c]: the query's own row, or the most
    recently joined row of that class. *)
Fixpoint last_joined (c : Cls) (j : list (Cls * Row)) : option Row :=
  match j with
  | [] => None
  | (c', r) :: j' =>
      match last_joined c j' with
      | Some r' => Some r'
      | None => if cls_eqb c c' then Some r else None
      end
  end.

Definition row_of (zero c : Cls) (t : Tuple) : option Row :=
  if cls_eqb c zero then Some (t_zero t) else last_joined c (t_joined t).

(** [cls._props[key].astext] and [cls.node_id], evaluated on a tuple *)
Definition astext (q : Query) (c : Cls) (key : string) (t : Tuple) : option string :=
  match row_of (q_zero q) c t with
  | Some r => Sql.astext r key
  | None => None
  end.

Definition col_node_id (q : Query) (c : Cls) (t : Tuple) : option string :=
  option_map node_id (row_of (q_zero q) c t).

Definition limited (q : Query) : bool :=
  match q_limit q, q_offset q with
  | None, None => false
  | _, _ => true
  end.

(** SQLAlchemy refuses [filter], [join] and [order_by] on a query that
    already carries LIMIT or OFFSET. *)
Definition generative (q : Query) : result Query :=
  if limited q then Err InvalidRequestError else Ok q.

Definition filter (q : Query) (p : Pred) : result Query :=
  q <- generative q ;;
  Ok (mkQuery (q_zero q) (q_joinpoint q)
        (List.filter (fun t => Sql.holds (p t)) (q_tuples q))
        (q_order q) (q_limit q) (q_offset q)).

(** [sa.sql.false()] *)
Definition false_ : Pred := fun _ => Some false.

Definition limit (q : Query) (k : option Z) : Query :=
  mkQuery (q_zero q) (q_joinpoint q) (q_tuples q) (q_order q) k (q_offset q).

Definition offset (q : Query) (m : option Z) : Query :=
  mkQuery (q_zero q) (q_joinpoint q) (q_tuples q) (q_order q) (q_limit q) m.

Definition order_by (q : Query) (le : Tuple -> Tuple -> bool) : result Query :=
  q <- generative q ;;
  Ok (mkQuery (q_zero q) (q_joinpoint q) (q_tuples q)
        (q_order q ++ [le]) (q_limit q) (q_offset q)).

Definition reset_joinpoint (q : Query) : Query :=
  mkQuery (q_zero q) (q_zero q) (q_tuples q) (q_order q) (q_limit q) (q_offset q).

(** The entity rows of the FROM / WHERE part, before LIMIT and OFFSET. *)
Definition rows (q : Query) : list Row := map t_zero (q_tuples q).

(** *** Evaluation *)

Fixpoint lex_le (ks : list (Tuple -> Tuple -> bool)) (a b : Tuple) : bool :=
  match ks with
  | [] => true
  | k :: ks' =>
      if k a b then (if k b a then lex_le ks' a b else true) else false
  end.

Fixpoint insert (le : Tuple -> Tuple -> bool) (x : Tuple) (l : list Tuple) : list Tuple :=
  match l with
  | [] => [x]
  | y :: l' => if le x y then x :: l else y :: insert le x l'
  end.

(** Stable sort. *)
Definition sort (le : Tuple -> Tuple -> bool) (l : list Tuple) : list Tuple :=
  fold_right (insert le) [] l.

Definition drop (m : option Z) {A} (l : list A) : list A :=
  match m with
  | None => l
  | Some z => skipn (Z.to_nat z) l
  end.

Definition take (k : option Z) {A} (l : list A) : list A :=
  match k with
  | None => l
  | Some z => firstn (Z.to_nat z) l
  end.

(** The rows the statement returns: ORDER BY, then OFFSET rows are
    skipped, then at most LIMIT rows are returned. *)
Definition sql_rows (q : Query) : list Row :=
  map t_zero (take (q_limit q) (drop (q_offset q) (sort (lex_le (q_order q)) (q_tuples q)))).

Fixpoint unique (l : list Row) : list Row :=
  match l with
  | [] => []
  | x :: l' => x :: List.filter (fun y => negb (row_eqb x y)) (unique l')
  end.

(** [q.all()]: the ORM returns each entity once. *)
Definition all (q : Query) : list Row := unique (sql_rows q).

(** *** Set operations: the operands become sub-selects *)

Definition from_self (q : Query) : Query := of_rows (q_zero q) (sql_rows q).

Definition mem_row (r : Row) (l : list Row) : bool := existsb (row_eqb r) l.

(** [q.union(o)]: SQL UNION removes duplicates. *)
Definition union (q o : Query) : Query :=
  of_rows (q_zero q) (unique (sql_rows q ++ sql_rows o)).

(** [q.except_(o)]: SQL EXCEPT, duplicates removed. *)
Definition except_ (q o : Query) : Query :=
  of_rows (q_zero q)
    (unique (List.filter (fun r => negb (mem_row r (sql_rows o))) (sql_rows q))).

(** [capp.db.nodes(e).select_entity_from(sa.union_all(subqueries))] *)
Definition select_from_union_all (e : Cls) (subqs : list Query) : Query :=
  of_rows e (flat_map sql_rows subqs).


(** *** Joins along relationship attributes *)

(** The classes a dotted path leads through; an unknown attribute is an
    [AttributeError]. *)
Fixpoint resolve_path (s : Schema) (c : Cls) (names : list string)
  : result (list (string * Cls)) :=
  match names with
  | [] => Ok []
  | n :: ns =>
      match lookup n (pg_edges s c) with
      | None => Err (AttributeError n)
      | Some d => rest <- resolve_path s d ns ;; Ok ((n, d) :: rest)
      end
  end.

(** The rows of class [d] that [r] holds under attribute [name]. *)
Definition related (w : World) (r : Row) (name : string) (d : Cls) : list Row :=
  flat_map
    (fun a =>
       if String.eqb (a_src a) (node_id r) && String.eqb (a_name a) name
       then List.filter
              (fun n => String.eqb (node_id n) (a_dst a) && is_instance d n)
              (db_nodes (db w))
       else [])
    (db_assocs (db w)).

Definition join_step (w : World) (zero from : Cls) (step : string * Cls)
    (ts : list Tuple) : list Tuple :=
  flat_map
    (fun t =>
       match row_of zero from t with
       | None => []
       | Some r =>
           map (fun n => mkTuple (t_zero t) (t_joined t ++ [(snd step, n)]))
               (related w r (fst step) (snd step))
       end)
    ts.

Fixpoint join_steps (w : World) (zero from : Cls) (steps : list (string * Cls))
    (ts : list Tuple) : Cls * list Tuple :=
  match steps with
  | [] => (from, ts)
  | st :: steps' => join_steps w zero (snd st) steps' (join_step w zero from st ts)
  end.

(** [q.path("a.b.c")], the path given as its list of attribute names:
    inner joins from the current join point; the last class joined
    becomes the join point. *)
Definition path (w : World) (q : Query) (names : list string) : result Query :=
  q <- generative q ;;
  steps <- resolve_path (schema w) (entity q) names ;;
  let '(jp, ts) := join_steps w (q_zero q) (entity q) steps (q_tuples q) in
  Ok (mkQuery (q_zero q) jp ts (q_order q) (q_limit q) (q_offset q)).

(** [q.props(key=val)] *)
Definition props (q : Query) (key : string) (val : Value) : result Query :=
  filter q (fun t => match row_of (q_zero q) (entity q) t with
                     | Some r => Sql.props_contains r key val
                     | None => None
                     end).

Definition bind_param (v : Scalar) : option string :=
  match v with
  | SNone => None
  | _ => Some (py_str v)
  end.

(** [q.ids(v)]: [node_id IN v] for a list, [node_id == str(v)] otherwise. *)
Definition ids (q : Query) (v : Value) : result Query :=
  match v with
  | VList l => filter q (fun t => Sql.in_params (col_node_id q (entity q) t) (map bind_param l))
  | VScalar s => filter q (fun t => Sql.eq_text (col_node_id q (entity q) t) (py_str s))
  end.

Fixpoint reach (w : World) (steps : list (string * Cls)) (rs : list Row) : list Row :=
  match steps with
  | [] => rs
  | st :: steps' =>
      reach w steps' (flat_map (fun r => related w r (fst st) (snd st)) rs)
  end.

Definition last_cls (c : Cls) (steps : list (string * Cls)) : Cls :=
  List.last (map snd steps) c.

(** [q.subq_path(path, f)]: keeps the rows from which the path leads to
    some row of the destination class that the filter [f] keeps. *)
Definition subq_path (w : World) (q : Query) (names : list string)
    (f : Query -> result Query) : result Query :=
  steps <- resolve_path (schema w) (entity q) names ;;
  dq <- f (nodes w (last_cls (entity q) steps)) ;;
  filter q (fun t =>
    match row_of (q_zero q) (entity q) t with
    | None => None
    | Some r => Some (existsb (fun d => mem_row d (sql_rows dq)) (reach w steps [r]))
    end).

End Q.

(** ** [node.filter_project_project_id] *)

Definition filter_project_project_id (w : World) (q : Query) (value : Value)
  : result Query :=
  (* a lone value is wrapped into a list *)
  let project_ids := as_list value in
  subqs <-
    foldM (fun subqs project_id =>
             match project_id with
             | SStr s =>
                 match Str.split_hyphen s with
                 | Some (program_name, project_code) =>
                     q1 <- Q.props q "code" (VScalar (SStr project_code)) ;;
                     q2 <- Q.path w q1 ["programs"] ;;
                     subq <- Q.props q2 "name" (VScalar (SStr program_name)) ;;
                     Ok (subqs ++ [subq])%list
                 | None => Ok subqs
                 end
             | _ => Err (AttributeError "split")
             end)
          project_ids [] ;;
  match subqs with
  | [] => Q.filter q Q.false_
  | _ => Ok (Q.select_from_union_all (Q.entity q) subqs)
  end.

(** ** [util.py] *)

Definition DEFAULT_LIMIT : Z := 10.

(** [get_active_project_ids] names [Project], which [util.py] never binds. *)
Definition get_active_project_ids (w : World) : result (list string) :=
  Err (NameError "Project").

Definition is_scoped (w : World) (cls : Cls) : bool :=
  cls_eqb cls PsqlNode || has_attr (schema w) cls "project_id".

Definition active_project_filter (w : World) (q : Query) : result Query :=
  let cls := Q.entity q in
  if String.eqb (cls_label cls) "project" then
    q1 <- Q.filter q (fun t => Sql.neq_text (Q.astext q Project "state" t) "closed") ;;
    Q.filter q1 (fun t => Sql.neq_text (Q.astext q Project "state" t) "legacy")
  else
    active <- match cached_active_project_ids w with
              | [] => get_active_project_ids w
              | l => Ok l
              end ;;
    if is_scoped w cls then
      Q.filter q (fun t => Sql.in_text (Q.astext q cls "project_id" t) active)
    else Ok q.

(** [list(cls._pg_links.keys())[0]] with its [dst_type] *)
Definition first_link (s : Schema) (c : Cls) : result (string * Cls) :=
  match pg_links s c with
  | [] => Err IndexError
  | (nodeType, dst) :: _ => Ok (nodeType, dst)
  end.

(** The [while] loop of [authorization_filter]; [path_tmp] is kept as the
    list of names that the source joins with dots. *)
Fixpoint walk_up (fuel : nat) (s : Schema) (authLeafNode tmp : Cls)
    (path_tmp : list string) : result (Cls * list string) :=
  if negb (cls_eqb tmp authLeafNode) && negb (cls_eqb tmp Program) then
    match fuel with
    | O => Err Diverges
    | S fuel' =>
        '(nodeType, dst) <- first_link s tmp ;;
        walk_up fuel' s authLeafNode dst (path_tmp ++ [nodeType])%list
    end
  else Ok (tmp, path_tmp).

(** First half of [authorization_filter]: the joins towards the
    authorization leaf.  Returns [q], [cls] and [sub_cls]. *)
Definition authz_join (fuel : nat) (w : World) (q : Query)
  : result (Query * Cls * option Cls) :=
  let cls := Q.entity q in
  match node_authz_entity w with
  | None => Ok (q, cls, None)
  | Some authLeafNode =>
      if negb (cls_eqb cls Project) && negb (cls_eqb cls Program)
         && negb (ocls_eqb (Some cls) (subject_entity w)) then
        '(q, cls) <-
          (if negb (cls_eqb cls authLeafNode) then
             '(nodeType, dst) <- first_link (schema w) cls ;;
             '(tmp, path_tmp) <- walk_up fuel (schema w) authLeafNode dst [nodeType] ;;
             if cls_eqb tmp authLeafNode then
               q' <- Q.path w q path_tmp ;;
               Ok (q', Q.entity q')
             else Ok (q, cls)
           else Ok (q, cls)) ;;
        if cls_eqb cls authLeafNode then
          q' <- Q.path w q ["persons"] ;;
          Ok (Q.reset_joinpoint q', cls, Some (Q.entity q'))
        else Ok (q, cls, None)
      else Ok (q, cls, None)
  end.

(** One round of the loop over [fg.read_access_permissions.items()]. *)
Definition authz_entry (w : World) (cls : Cls) (sub_cls : option Cls)
    (st : Query * list Pred) (entry : string * list string)
  : result (Query * list Pred) :=
  let '(q, ands) := st in
  let '(key, value) := entry in
  let project_ok : Pred := fun t => Sql.eq_text (Q.astext q cls "project_id" t) key in
  let own : Pred := fun t => Sql.in_text (Q.astext q cls "submitter_id" t) value in
  '(q, filter_group) <-
    (if negb (Str.mem "*" value)
        && match node_authz_entity w with Some _ => true | None => false end
        && negb (cls_eqb cls Project) && negb (cls_eqb cls Program)
        && (0 <? List.length value)%nat
     then
       if ocls_eqb (Some cls) (node_authz_entity w) && ocls_eqb sub_cls (subject_entity w) then
         match sub_cls with
         | None => Err (AttributeError "_props")
         | Some sc =>
             let sub : Pred := fun t => Sql.in_text (Q.astext q sc "submitter_id" t) value in
             Ok (q, [project_ok; fun t => Sql.or_ [own t; sub t]])
         end
       else if ocls_eqb (Some cls) (subject_entity w) then
         q1 <- Q.path w q ["subjects"] ;;
         let temp_cls := Q.entity q1 in
         let q2 := Q.reset_joinpoint q1 in
         let sub : Pred := fun t => Sql.in_text (Q.astext q temp_cls "submitter_id" t) value in
         (* the diagnostics read [cls._pg_backrefs["subjects"]] *)
         match lookup "subjects" (pg_backrefs (schema w) cls) with
         | None => Err (KeyError "subjects")
         | Some _ => Ok (q2, [project_ok; fun t => Sql.or_ [own t; sub t]])
         end
       else Ok (q, [project_ok])
     else Ok (q, [project_ok])) ;;
  Ok (q, (ands ++ [fun t => Sql.and_ (map (fun p => p t) filter_group)])%list).

Definition authorization_filter (fuel : nat) (w : World) (q : Query) : result Query :=
  '(q, cls, sub_cls) <- authz_join fuel w q ;;
  q <- (if is_scoped w cls then
          match read_access_permissions w with
          | [] => Q.filter q Q.false_
          | perms =>
              '(q, ands) <- foldM (authz_entry w cls sub_cls) perms (q, []) ;;
              match ands with
              | [] => Ok q
              | _ => Q.filter q (fun t => Sql.or_ (map (fun p => p t) ands))
              end
          end
        else Ok q) ;;
  if String.eqb (cls_label cls) "project" then
    filter_project_project_id w q (VList (map SStr (read_access_projects w)))
  else Ok q.

Definition get_authorized_query (fuel : nat) (w : World) (cls : Cls) : result Query :=
  authorization_filter fuel w (Q.nodes w cls).

(** A Python number used as an integer ([True] is 1). *)
Definition as_int (a : Arg) : result Z :=
  match a with
  | AVal (VScalar (SInt z)) => Ok z
  | AVal (VScalar (SBool b)) => Ok (if b then 1 else 0)%Z
  | _ => Err TypeError
  end.

Definition apply_arg_limit (q : Query) (args : Args) : result Query :=
  limit <- match lookup "first" args with
           | Some a => as_int a
           | None => Ok DEFAULT_LIMIT
           end ;;
  if (limit >? 0)%Z then Ok (Q.limit q (Some limit)) else Ok q.

Definition apply_arg_offset (q : Query) (args : Args) : result Query :=
  offset <- match lookup "offset" args with
            | Some a => as_int a
            | None => Ok 0%Z
            end ;;
  if (offset >? 0)%Z then Ok (Q.offset q (Some offset)) else Ok q.

(** ** [node.py] *)

(** [get_link_attr(cls, link).any()]: the condition that a row has some
    associated row under the named link. *)
Definition get_link_attr (w : World) (q : Query) (link : Scalar) : result Pred :=
  let cls := Q.entity q in
  match link with
  | SStr name =>
      match lookup name (pg_edges (schema w) cls) with
      | Some d =>
          Ok (fun t => match Q.row_of (q_zero q) cls t with
                       | Some r => Some (negb (Nat.eqb (List.length (Q.related w r name d)) 0))
                       | None => None
                       end)
      | None => Err (RuntimeError ("Invalid link name '" ++ name ++ "'"))
      end
  | _ => Err (RuntimeError ("Invalid link name '" ++ py_str link ++ "'"))
  end.

(** Modelled from the spec: [traversal.subq_paths], which is not part of the
    sources at hand.  Section 4.3: the schema graph is searched for paths
    from the source type to the destination type, and each discovered path
    becomes an existence subquery, "source rows that can reach a destination
    row satisfying the end-of-path filter"; an unresolvable target type is an
    input error.  The search itself is [find_paths]. *)
Definition subq_paths (w : World) (q : Query) (dst_type : string)
    (post_filter : Query -> result Query) : result Query :=
  match find_paths w (Q.entity q) dst_type with
  | None => Err (RuntimeError ("no traversal to " ++ dst_type))
  | Some paths =>
      subqs <- mapM (fun p => Q.subq_path w q p post_filter) paths ;;
      Q.filter q (fun t =>
        Some (existsb (fun sq => Q.mem_row (t_zero t) (Q.sql_rows sq)) subqs))
  end.

Definition value_truthy (v : Value) : bool :=
  match v with
  | VScalar s => truthy s
  | VList l => negb (Nat.eqb (List.length l) 0)
  end.

Definition remove_key {A} (k : string) (d : list (string * A)) : list (string * A) :=
  List.filter (fun kv => negb (String.eqb (fst kv) k)) d.

(** The closure [end_of_traversal_filter] of [with_path_to]. *)
Definition end_of_traversal_filter (entry : Dict) (q : Query) : result Query :=
  foldM (fun q kv =>
           let '(key, val) := kv in
           if String.eqb key "id" then Q.ids q val else Q.props q key val)
        entry q.

(** One round of the loop of [with_path_to] over the entries; the state is
    [q] and [union_qs]. *)
Definition with_path_to_entry (w : World) (union : bool) (name : string)
    (st : Query * list Query) (entry : Dict) : result (Query * list Query) :=
  let '(q, union_qs) := st in
  (* Check target type *)
  dst_type <- match lookup "type" entry with
              | Some v =>
                  if value_truthy v then Ok v
                  else Err (RuntimeError ("Please specify a {type: <type>} in the "
                                            ++ name ++ " filter."))
              | None => Err (RuntimeError ("Please specify a {type: <type>} in the "
                                             ++ name ++ " filter."))
              end ;;
  let entry := remove_key "type" entry in
  (* Prevent traversal to Node interface: [q.entity() is Node], where
     [Node] is the graphene interface of this module *)
  if cls_eqb (Q.entity q) GrapheneNode then
    Err (RuntimeError (name ++ " filter cannot be used with " ++ Str.quoted "node"
                            ++ " interface"))
  else
    '(q, subq) <-
      (if case_cache_enabled w
          && match dst_type with
             | VScalar (SStr s) => String.eqb s "case"
             | _ => false
             end
       then
         (* Special case for traversing TO case *)
         if has_attr (schema w) (Q.entity q) "_related_cases" then
           subq <- Q.subq_path w q ["_related_cases"] (end_of_traversal_filter entry) ;;
           Ok (q, subq)
         else
           subq <- Q.filter q Q.false_ ;; Ok (q, subq)
       else if case_cache_enabled w && String.eqb (cls_label (Q.entity q)) "case"
       then
         (* Special case for traversing FROM case *)
         let link := "_related_" ++ py_format dst_type in
         let q := Q.limit q None in
         if has_attr (schema w) (Q.entity q) link then
           subq <- Q.subq_path w q [link] (end_of_traversal_filter entry) ;;
           Ok (q, subq)
         else
           subq <- Q.filter q Q.false_ ;; Ok (q, subq)
       else
         (* Otherwise do a full traversal *)
         subq <- subq_paths w q (py_format dst_type) (end_of_traversal_filter entry) ;;
         Ok (q, subq)) ;;
    if union then Ok (q, (union_qs ++ [subq])%list) else Ok (subq, union_qs).

Definition with_path_to (w : World) (q : Query) (value : Arg) (union : bool)
    (name : string) : result Query :=
  entries <- match value with
             | ADicts l => Ok l
             | ADict d => Ok [d]
             | AVal _ => Err TypeError
             end ;;
  '(q, union_qs) <- foldM (with_path_to_entry w union name) entries (q, []) ;;
  if union then
    match union_qs with
    | q0 :: rest => Ok (fold_left Q.union rest q0)
    | [] => Q.filter q Q.false_
    end
  else Ok q.

Definition le_option_nat (a b : option nat) : bool :=
  match a, b with
  | Some x, Some y => (x <=? y)%nat
  | Some _, None => true
  | None, Some _ => false
  | None, None => true
  end.

Definition apply_arg_quicksearch (w : World) (q : Query) (args : Args) : result Query :=
  match lookup "quick_search" args with
  | None => Ok q
  | Some (AVal (VScalar (SStr search_phrase))) =>
      if negb (truthy (SStr search_phrase)) then Ok q
      else
        let search_phrase := py_lower w search_phrase in
        let cls := Q.entity q in
        let node_id_attr := fun t => Sql.lower w (Q.col_node_id q cls t) in
        let sub_id_attr := fun t => Q.astext q cls "submitter_id" t in
        node_id_query <- Q.filter q (fun t => Sql.contains (node_id_attr t) search_phrase) ;;
        sub_id_query <-
          Q.filter q (fun t => Sql.contains (Sql.lower w (sub_id_attr t)) search_phrase) ;;
        let q := Q.union node_id_query sub_id_query in
        (* [q.order_by(...)] builds a new query; its value is not used *)
        _ <- Q.order_by q (fun a b => le_option_nat (Sql.length (sub_id_attr a))
                                                    (Sql.length (sub_id_attr b))) ;;
        Ok q
  | Some (AVal (VScalar v)) => if truthy v then Err (AttributeError "lower") else Ok q
  | Some (AVal (VList l)) => if value_truthy (VList l) then Err (AttributeError "lower") else Ok q
  | Some (ADict d) => match d with [] => Ok q | _ => Err (AttributeError "lower") end
  | Some (ADicts l) => match l with [] => Ok q | _ => Err (AttributeError "lower") end
  end.

(** *** [apply_query_args], stage by stage *)

Definition prop_values (a : Arg) : result (list Scalar) :=
  match a with
  | AVal v => Ok (as_list v)
  | _ => Err TypeError           (* a dictionary is no property value *)
  end.

(** The first loop: arguments named after a dictionary property. *)
Definition apply_property_filter (w : World) (q : Query) (kv : string * Arg)
  : result Query :=
  let '(key, a) := kv in
  match lookup key (pg_properties (schema w) (Q.entity q)) with
  | None => Ok q
  | Some field_type =>
      val <- prop_values a ;;
      let cls := Q.entity q in
      match field_type with
      | TList =>
          (* supersets of the input, an AND filter *)
          pats <- mapM (fun v => match v with
                                 | SStr s => Ok (String "%" (String Str.dquote s)
                                                   ++ String Str.dquote "%")
                                 | _ => Err TypeError
                                 end) val ;;
          Q.filter q (fun t => Sql.and_ (map (Sql.like (Q.astext q cls key t)) pats))
      | TBool =>
          let val := map (fun v => py_lower w (py_str v)) val in
          Q.filter q (fun t => Sql.in_text (Q.astext q cls key t) val)
      | TOther =>
          Q.filter q (fun t => Sql.in_text (Q.astext q cls key t) (map py_str val))
      end
  end.

(** [{list(item.keys())[0]: list(item.values())[0] for item in not_props}] *)
Fixpoint not_props_of (items : list Dict) : result Dict :=
  match items with
  | [] => Ok []
  | item :: items' =>
      match item with
      | [] => Err IndexError
      | (k, v) :: _ =>
          rest <- not_props_of items' ;;
          (* a later item with the same key replaces an earlier one *)
          Ok (if Str.mem k (keys rest) then rest else (k, v) :: rest)
      end
  end.

Definition apply_not (w : World) (q : Query) (args : Args) : result Query :=
  items <- match lookup "not" args with
           | None => Ok []
           | Some (ADicts l) => Ok l
           | Some (ADict []) | Some (AVal (VList [])) => Ok []
           | Some (AVal (VScalar (SStr s))) =>
               if String.eqb s EmptyString then Ok [] else Err (AttributeError "keys")
           | Some (AVal (VScalar _)) => Err TypeError
           | Some _ => Err (AttributeError "keys")
           end ;;
  not_props <- not_props_of items ;;
  foldM (fun q kv =>
           let '(key, v) := kv in
           match lookup key (pg_properties (schema w) (Q.entity q)) with
           | None => Ok q
           | Some _ =>
               let val := map py_str (as_list v) in
               Q.filter q (fun t => Sql.not3 (Sql.in_text (Q.astext q (Q.entity q) key t) val))
           end)
        not_props q.

Definition apply_ids (key : string) (q : Query) (args : Args) : result Query :=
  match lookup key args with
  | None => Ok q
  | Some (AVal v) => Q.ids q v
  | Some _ => Err TypeError
  end.

Definition apply_submitter_id (q : Query) (args : Args) : result Query :=
  if String.eqb (cls_label (Q.entity q)) "node" then
    match lookup "submitter_id" args with
    | None => Ok q
    | Some a =>
        val <- prop_values a ;;
        Q.filter q (fun t => Sql.in_text (Q.astext q (Q.entity q) "submitter_id" t)
                                         (map py_str val))
    end
  else Ok q.

Definition lt_time (a b : option Z) : Sql.sbool :=
  match a, b with
  | Some x, Some y => Some (x <? y)%Z
  | _, _ => None
  end.

(** One of the four date filters: [after] selects [>], otherwise [<]. *)
Definition apply_date (w : World) (arg prop : string) (after : bool)
    (q : Query) (args : Args) : result Query :=
  match lookup arg args with
  | None => Ok q
  | Some (AVal (VScalar (SStr s))) =>
      match parse w s with
      | None => Err ValueError
      | Some bound =>
          let column := fun t =>
            match Q.row_of (q_zero q) (Q.entity q) t with
            | Some r => match lookup prop (props r) with
                        | Some j => pg_timestamp w j
                        | None => None
                        end
            | None => None
            end in
          Q.filter q (fun t => if after then lt_time (Some bound) (column t)
                               else lt_time (column t) (Some bound))
      end
  | Some _ => Err TypeError
  end.

Definition list_arg (a : Arg) : result (list Scalar) :=
  match a with
  | AVal (VList l) => Ok l
  | _ => Err TypeError
  end.

Definition apply_with_links (w : World) (q : Query) (args : Args) : result Query :=
  match lookup "with_links" args with
  | None => Ok q
  | Some a =>
      links <- list_arg a ;;
      foldM (fun q link => p <- get_link_attr w q link ;; Q.filter q p)
            (nodup Scalar_eq_dec links) q
  end.

Definition apply_with_links_any (w : World) (q : Query) (args : Args) : result Query :=
  match lookup "with_links_any" args with
  | None => Ok q
  | Some a =>
      links <- list_arg a ;;
      match nodup Scalar_eq_dec links with
      | [] => Ok q
      | links =>
          subqs <- mapM (fun link => p <- get_link_attr w q link ;; Q.filter q p) links ;;
          Ok (Q.select_from_union_all (Q.entity q) subqs)
      end
  end.

Definition apply_without_links (w : World) (q : Query) (args : Args) : result Query :=
  match lookup "without_links" args with
  | None => Ok q
  | Some a =>
      links <- list_arg a ;;
      foldM (fun q link =>
               p <- get_link_attr w q link ;;
               Q.filter q (fun t => Sql.not3 (p t)))
            links q
  end.

Definition apply_with_path_to (w : World) (q : Query) (args : Args) : result Query :=
  match lookup "with_path_to" args with
  | None => Ok q
  | Some v => with_path_to w q v false "with_path_to"
  end.

Definition apply_with_path_to_any (w : World) (q : Query) (args : Args) : result Query :=
  match lookup "with_path_to_any" args with
  | None => Ok q
  | Some v => with_path_to w q v true "with_path_to"
  end.

Definition apply_without_path_to (w : World) (q : Query) (args : Args) : result Query :=
  match lookup "without_path_to" args with
  | None => Ok q
  | Some v =>
      sub <- with_path_to w q v false "without_path_to" ;;
      Ok (Q.except_ q sub)
  end.

Definition apply_project_id (w : World) (q : Query) (args : Args) : result Query :=
  match lookup "project_id" args with
  | None => Ok q
  | Some a =>
      if String.eqb (cls_label (Q.entity q)) "project" then
        match a with
        | AVal v => filter_project_project_id w q v
        | _ => Err (AttributeError "split")
        end
      else Ok q
  end.

Definition flip {A} (le : A -> A -> bool) : A -> A -> bool := fun a b => le b a.

(** [order_by_asc] ([desc = false]) and [order_by_desc] ([desc = true]) *)
Definition apply_order_by (w : World) (arg : string) (desc : bool)
    (q : Query) (args : Args) : result Query :=
  match lookup arg args with
  | None => Ok q
  | Some (AVal (VScalar (SStr key))) =>
      let cls := Q.entity q in
      let dir := fun (le : Tuple -> Tuple -> bool) => if desc then flip le else le in
      if String.eqb key "id" then
        Q.order_by q (dir (fun a b =>
          match Q.col_node_id q cls a, Q.col_node_id q cls b with
          | Some x, Some y => text_le w x y
          | _, _ => true
          end))
      else if String.eqb key "type" then Ok q
      else if Str.mem key (keys (pg_properties (schema w) cls)) then
        Q.order_by q (dir (fun a b =>
          jsonb_le w
            (match Q.row_of (q_zero q) cls a with Some r => lookup key (props r) | None => None end)
            (match Q.row_of (q_zero q) cls b with Some r => lookup key (props r) | None => None end)))
      else Err (RuntimeError ("Cannot order by " ++ key ++ " on " ++ cls_label cls))
  | Some (AVal (VScalar v)) =>
      Err (RuntimeError ("Cannot order by " ++ py_str v ++ " on " ++ cls_label (Q.entity q)))
  | Some _ => Err TypeError
  end.

Definition apply_query_args (w : World) (q : Query) (args : Args) : result Query :=
  (* dictionary properties *)
  q <- foldM (apply_property_filter w) args q ;;
  q <- apply_not w q args ;;
  q <- apply_ids "id" q args ;;
  q <- apply_ids "ids" q args ;;
  q <- apply_submitter_id q args ;;
  q <- (match lookup "quick_search" args with
        | Some _ => apply_arg_quicksearch w q args
        | None => Ok q
        end) ;;
  q <- apply_date w "created_after" "created_datetime" true q args ;;
  q <- apply_date w "created_before" "created_datetime" false q args ;;
  q <- apply_date w "updated_after" "updated_datetime" true q args ;;
  q <- apply_date w "updated_before" "updated_datetime" false q args ;;
  q <- apply_with_links w q args ;;
  q <- apply_with_links_any w q args ;;
  q <- apply_without_links w q args ;;
  q <- apply_with_path_to w q args ;;
  q <- apply_with_path_to_any w q args ;;
  q <- apply_without_path_to w q args ;;
  q <- apply_project_id w q args ;;
  q <- apply_order_by w "order_by_asc" false q args ;;
  q <- apply_order_by w "order_by_desc" true q args ;;
  (* first: truncate result list *)
  q <- apply_arg_limit (Q.from_self q) args ;;
  (* offset: slice result list with offset from head of list *)
  apply_arg_offset q args.

(** *** [NodeCounter] *)

Module NodeCounter.

(** A pooled count: its key, its promise and the text of its subquery.
    A promise is identified by the order of its creation. *)
Record Pooled : Type := mkPooled {
  p_key : string;
  p_promise : nat;
  p_sql : string
}.

Record t : Type := mk {
  _project_ids : list (string * string);   (* project_id, placeholder name *)
  _queries : list Pooled
}.

(** [__init__] *)
Definition init : t := mk [] [].

(** What [add_count] returns: [None], an integer or a promise. *)
Inductive Count : Type :=
| CNone
| CInt (z : Z)
| CPromise (p : nat).

Definition add_count (w : World) (self : t) (cls : Cls) (args : Args) : Count * t :=
  (* escape non-trivial cases defined in authorization_filter *)
  if negb (cls_eqb cls PsqlNode) && negb (has_attr (schema w) cls "project_id")
  then (CNone, self)
  else if String.eqb (cls_label cls) "project" then (CNone, self)
  (* escape if project_id is not the only args *)
  else if negb (if list_eq_dec string_dec (keys args) ["project_id"] then true else false)
  then (CNone, self)
  else
    match lookup "project_id" args with
    | Some (AVal (VScalar (SStr project_id)))
    | Some (AVal (VList [SStr project_id])) =>
        if negb (Str.mem project_id (read_access_projects w)) then (CInt 0, self)
        else
          (* group project_id and name them *)
          let '(project_id_name, project_ids) :=
            match lookup project_id (_project_ids self) with
            | Some n => (n, _project_ids self)
            | None =>
                let n := "p_" ++ Str.of_nat (List.length (_project_ids self)) in
                (n, (_project_ids self ++ [(project_id, n)])%list)
            end in
          (* prepare the subquery and promise *)
          let key := "c_" ++ Str.of_nat (List.length (_queries self)) in
          let p := List.length (_queries self) in
          let sql := "(SELECT count(" ++ "*" ++ ") FROM " ++ tablename (schema w) cls
                     ++ " WHERE _props->>'project_id' = :" ++ project_id_name
                     ++ ") AS " ++ key in
          (CPromise p, mk project_ids (_queries self ++ [mkPooled key p sql]))
    | _ =>
        (* escape if multiple project_ids are given *)
        (CNone, self)
    end.

End NodeCounter.

(** ** A small dictionary and database, used to run the definitions *)

Module Demo.

Definition case_ : Cls := Model "case".
Definition sample : Cls := Model "sample".
Definition subject : Cls := Model "subject".
Definition person : Cls := Model "person".

Definition properties (c : Cls) : list (string * PropType) :=
  match c with
  | Model l =>
      if String.eqb l "program" then [("name", TOther)]
      else if String.eqb l "project" then
        [("code", TOther); ("name", TOther); ("state", TOther)]
      else if String.eqb l "case" then
        [("submitter_id", TOther); ("project_id", TOther);
         ("consent_codes", TList); ("lost_to_followup", TBool)]
      else [("submitter_id", TOther); ("project_id", TOther)]
  | _ => []
  end.

Definition links (c : Cls) : list (string * Cls) :=
  match c with
  | Model l =>
      if String.eqb l "project" then [("programs", Program)]
      else if String.eqb l "case" then [("projects", Project)]
      else if String.eqb l "subject" then [("persons", person)]
      else if String.eqb l "sample" then [("subjects", subject)]
      else []
  | _ => []
  end.

Definition backrefs (c : Cls) : list (string * Cls) :=
  match c with
  | Model l =>
      if String.eqb l "program" then [("projects", Project)]
      else if String.eqb l "project" then [("cases", case_)]
      else if String.eqb l "person" then [("subjects", subject)]
      else if String.eqb l "subject" then [("samples", sample)]
      else []
  | _ => []
  end.

Definition dictionary : Schema :=
  mkSchema properties links backrefs
    (fun c => (links c ++ backrefs c)%list)
    (fun c name => Str.mem name (keys (properties c))
                   || Str.mem name (keys (links c ++ backrefs c)%list))
    (fun c => "node_" ++ cls_label c).

Definition prog : Row := mkRow "pg-1" "program" [("name", JStr "prog")].
Definition proj_open : Row :=
  mkRow "pj-1" "project" [("code", JStr "A"); ("name", JStr "first"); ("state", JStr "open")].
Definition proj_closed : Row :=
  mkRow "pj-2" "project" [("code", JStr "B"); ("name", JStr "second"); ("state", JStr "closed")].
Definition case_ab12 : Row :=
  mkRow "ab12-x" "case"
    [("submitter_id", JStr "a-rather-long-submitter-id"); ("project_id", JStr "prog-A");
     ("consent_codes", JList ["x"]); ("lost_to_followup", JBool true)].
Definition case_ffff : Row :=
  mkRow "ffff" "case"
    [("submitter_id", JStr "sample-AB12-long"); ("project_id", JStr "prog-A");
     ("consent_codes", JList ["a"; "b"]); ("lost_to_followup", JBool false)].
Definition case_b : Row :=
  mkRow "c-3" "case"
    [("submitter_id", JStr "third"); ("project_id", JStr "prog-B");
     ("consent_codes", JList ["a"])].
Definition person1 : Row :=
  mkRow "pe-1" "person" [("submitter_id", JStr "person-1"); ("project_id", JStr "prog-A")].
Definition subject1 : Row :=
  mkRow "su-1" "subject" [("submitter_id", JStr "subject-1"); ("project_id", JStr "prog-A")].
Definition sample1 : Row :=
  mkRow "sa-1" "sample" [("submitter_id", JStr "sample-1"); ("project_id", JStr "prog-B")].

Definition database : Database :=
  mkDatabase
    [prog; proj_open; proj_closed; case_ab12; case_ffff; case_b; person1; subject1; sample1]
    [mkAssoc "pj-1" "programs" "pg-1"; mkAssoc "pg-1" "projects" "pj-1";
     mkAssoc "pj-2" "programs" "pg-1"; mkAssoc "pg-1" "projects" "pj-2";
     mkAssoc "ab12-x" "projects" "pj-1"; mkAssoc "pj-1" "cases" "ab12-x";
     mkAssoc "ffff" "projects" "pj-1"; mkAssoc "pj-1" "cases" "ffff";
     mkAssoc "c-3" "projects" "pj-2"; mkAssoc "pj-2" "cases" "c-3";
     mkAssoc "su-1" "persons" "pe-1"; mkAssoc "pe-1" "subjects" "su-1";
     mkAssoc "sa-1" "subjects" "su-1"; mkAssoc "su-1" "samples" "sa-1"].

Definition no_paths : Cls -> string -> option (list (list string)) :=
  fun c dst =>
    if cls_eqb c case_ && String.eqb dst "project" then Some [["projects"]]
    else if cls_eqb c case_ && String.eqb dst "program" then Some [["projects"; "programs"]]
    else None.

(** A request of a user who may read all of project prog-A and prog-B,
    with no authorization leaf configured. *)
Definition world : World :=
  mkWorld dictionary database None None
    [("prog-A", ["*"]); ("prog-B", ["*"])] ["prog-A"; "prog-B"] ["prog-A"]
    false no_paths
    (fun _ => None) (fun _ => None)
    (fun a b => (a <=? b)%string) (fun _ _ => true)
    Str.lower Str.lower.

(** The same request where permissions are granted on subjects, and the
    user may read project prog-A only. *)
Definition world_authz : World :=
  mkWorld dictionary database (Some subject) (Some person)
    [("prog-A", ["*"])] ["prog-A"] ["prog-A"]
    false no_paths
    (fun _ => None) (fun _ => None)
    (fun a b => (a <=? b)%string) (fun _ _ => true)
    Str.lower Str.lower.


Definition str_arg (s : string) : Arg := AVal (VScalar (SStr s)).
Definition int_arg (z : Z) : Arg := AVal (VScalar (SInt z)).
Definition strs_arg (l : list string) : Arg := AVal (VList (map SStr l)).

End Demo.

(** ** Notions used in the statements *)

(** [narrows q' q]: every entity row of [q'] is an entity row of [q]. *)
Definition narrows (q' q : Query) : Prop :=
  forall r, In r (Q.rows q') -> In r (Q.rows q).

(** What [q.ids(v)] asks of a row. *)
Definition ids_match (v : Value) (r : Row) : Prop :=
  match v with
  | VList l => In (Some (node_id r)) (map Q.bind_param l)
  | VScalar s => node_id r = py_str s
  end.

(** The project row [r] carries the project code, and is linked to a
    program carrying the program name, of some composite id in [ids]. *)
Definition permitted_project (w : World) (ids : list string) (r : Row) : Prop :=
  exists pid program_name project_code g,
    In pid ids /\
    Str.split_hyphen pid = Some (program_name, project_code) /\
    lookup "code" (props r) = Some (JStr project_code) /\
    In g (Q.related w r "programs" Program) /\
    lookup "name" (props g) = Some (JStr program_name).

(** The class whose [project_id] the authorization filter tests: the
    value of [cls] after the first half of [authorization_filter]. *)
Definition authz_anchor (fuel : nat) (w : World) (cls : Cls) : result Cls :=
  '(_, cls', _) <- authz_join fuel w (Q.nodes w cls) ;; Ok cls'.

(** [reached_along w zero r c g]: the row [g], of class [c], is reached
    from the row [r] along a path of relationship attributes that starts
    at the class [zero]; the empty path reaches [r] itself. *)
Definition reached_along (w : World) (zero : Cls) (r : Row) (c : Cls) (g : Row) : Prop :=
  exists names steps,
    Q.resolve_path (schema w) zero names = Ok steps /\
    Q.last_cls zero steps = c /\
    In g (Q.reach w steps [r]).

(** Every row a tuple holds for a class is reached from the tuple's own
    row: the joins of a query follow stored relationships. *)
Definition linked (w : World) (zero : Cls) (ts : list Tuple) : Prop :=
  forall t c g,
    In t ts -> Q.row_of zero c t = Some g -> reached_along w zero (t_zero t) c g.

(** What the loop over the permission map keeps true: the query selects
    the same entity and carries no LIMIT, and each condition gathered so
    far holds only on tuples whose anchor row has a [project_id] that is a
    key of the map. *)
Definition authz_loop_invariant (w : World) (z a : Cls) (st : Query * list Pred) : Prop :=
  q_zero (fst st) = z /\ Q.limited (fst st) = false /\
  forall p, In p (snd st) ->
    forall t, p t = Some true ->
      exists key, In key (keys (read_access_permissions w)) /\
                  match Q.row_of z a t with
                  | Some r => Sql.astext r "project_id"
                  | None => None
                  end = Some key.

(** The row cap and the number of rows skipped that the [first] and
    [offset] arguments stand for. *)
Definition row_cap (first : option Z) : option Z :=
  match first with
  | None => Some DEFAULT_LIMIT
  | Some k => if (k >? 0)%Z then Some k else None
  end.

Definition rows_skipped (offset : option Z) : option Z :=
  match offset with
  | Some m => if (m >? 0)%Z then Some m else None
  | None => None
  end.

Definition has_hyphen (s : string) : bool :=
  match Str.split_hyphen s with Some _ => true | None => false end.

(** ** More of [util.py]: the fields asked for and the columns loaded *)

(** [d[k] = v] and [d.update(e)] on a [dict] in insertion order. *)
Fixpoint dict_set {A} (k : string) (v : A) (d : list (string * A)) : list (string * A) :=
  match d with
  | [] => [(k, v)]
  | (k', v') :: d' =>
      if String.eqb k k' then (k, v) :: d' else (k', v') :: dict_set k v d'
  end.

Definition dict_update {A} (d e : list (string * A)) : list (string * A) :=
  fold_left (fun d kv => dict_set (fst kv) (snd kv) d) e d.




(** A node of the query AST as [ast_to_dict] gives it: its kind, the value
    of its name, and its selection set ([None] when it has none). *)
#[local] Unset Elimination Schemes.
Inductive Ast : Type :=
| AstNode (kind : string) (name : string) (selection_set : option (list Ast)).

Definition ast_kind (a : Ast) : string := let '(AstNode k _ _) := a in k.
Definition ast_name (a : Ast) : string := let '(AstNode _ n _) := a in n.
Definition ast_selection_set (a : Ast) : option (list Ast) :=
  let '(AstNode _ _ s) := a in s.

(** The nested dictionary [collect_fields] returns. *)
Inductive Fields : Type :=
| FieldsOf (sub : list (string * Fields)).
#[local] Set Elimination Schemes.

Definition sub_fields (f : Fields) : list (string * Fields) :=
  let '(FieldsOf l) := f in l.

(** [collect_fields(node, fragments)].  The recursion follows fragment
    spreads, so it is bounded by fuel. *)
Fixpoint collect_fields (fuel : nat) (node : Ast) (fragments : list (string * Ast))
  : result (list (string * Fields)) :=
  match fuel with
  | O => Err Diverges
  | S fuel' =>
      match ast_selection_set node with
      | None => Ok []
      | Some selections =>
          foldM (fun field leaf =>
                   if String.eqb (ast_kind leaf) "Field" then
                     sub <- collect_fields fuel' leaf fragments ;;
                     Ok (dict_set (ast_name leaf) (FieldsOf sub) field)
                   else if String.eqb (ast_kind leaf) "FragmentSpread" then
                     match lookup (ast_name leaf) fragments with
                     | None => Err (KeyError (ast_name leaf))
                     | Some fragment =>
                         sub <- collect_fields fuel' fragment fragments ;;
                         Ok (dict_update field sub)
                     end
                   else Ok field)
                selections []
      end
  end.

(** What [get_fields] reads of the resolve info. *)
Record Info : Type := mkInfo {
  field_ast : Ast;                         (* info.field_asts[0] *)
  info_fragments : list (string * Ast)     (* info.fragments *)
}.

Definition get_fields (fuel : nat) (info : Info) : result (list (string * Fields)) :=
  collect_fields fuel (field_ast info) (info_fragments info).

(** [get_column_names(entity)] for a model class or one of its rows. *)
Definition get_column_names (w : World) (c : Cls) : list string :=
  keys (pg_properties (schema w) c).

(** [get_loaded_columns]; a Python [set] is a list without duplicates. *)
Definition get_loaded_columns (fuel : nat) (columns : list string) (info : Info)
    (fields_depend_on_columns : list (string * list string)) : result (list string) :=
  collected <- get_fields fuel info ;;
  let fields := nodup string_dec (keys collected) in
  let depended :=
    flat_map (fun field => match lookup field fields_depend_on_columns with
                           | Some columns => columns
                           | None => []
                           end) fields in
  let fields := nodup string_dec (fields ++ depended)%list in
  Ok (filter (fun f => Str.mem f columns) fields).

(** A value of the dictionary a node is turned into. *)
Inductive Loaded : Type :=
| LProp (v : option JVal)      (* a property; [None] when it is not set *)
| LText (s : string).

(** [filtered_column_dict(row, info, fields_depend_on_columns)] *)
Definition filtered_column_dict (fuel : nat) (w : World) (row : Row) (info : Info)
    (fields_depend_on_columns : list (string * list string))
  : result (list (string * Loaded)) :=
  columns <- get_loaded_columns fuel (get_column_names w (Model (label row))) info
               fields_depend_on_columns ;;
  Ok (map (fun column => (column, LProp (lookup column (props row)))) columns).

(** [load_node(n, info, fields_depend_on_columns)] *)
Definition load_node (fuel : nat) (w : World) (n : Row) (info : Info)
    (fields_depend_on_columns : list (string * list string))
  : result (list (string * Loaded)) :=
  d <- filtered_column_dict fuel w n info fields_depend_on_columns ;;
  Ok (dict_set "type" (LText (label n)) (dict_set "id" (LText (node_id n)) d)).

(** [Node.fields_depend_on_columns] *)
Definition Node_fields_depend_on_columns : list (string * list string) :=
  [("project_id", ["program"; "code"])].

(** The nesting depth of an AST. *)
Fixpoint ast_depth (a : Ast) : nat :=
  match a with
  | AstNode _ _ None => 0
  | AstNode _ _ (Some l) => S (fold_right (fun x m => Nat.max (ast_depth x) m) 0%nat l)
  end.

(** No fragment is spread anywhere in the AST. *)
Fixpoint spread_free (a : Ast) : bool :=
  match a with
  | AstNode k _ None => negb (String.eqb k "FragmentSpread")
  | AstNode k _ (Some l) =>
      negb (String.eqb k "FragmentSpread") && forallb spread_free l
  end.

(** ** More of [node.py]: the resolvers *)

(** [psqlgraph.Node.get_subclass(label)], where [subclasses] is what
    [psqlgraph.Node.get_subclasses()] lists. *)
Definition get_subclass (subclasses : list Cls) (label : Scalar) : option Cls :=
  match label with
  | SStr l => find (fun c => String.eqb (cls_label c) l) subclasses
  | _ => None
  end.

(** [col == value] for a bound Python value: [== None] is [IS NULL]. *)
Definition eq_param (x : option string) (v : Scalar) : Sql.sbool :=
  match v with
  | SNone => Some (match x with None => true | Some _ => false end)
  | _ => Sql.eq_text x (py_str v)
  end.

(** [query_with_args(classes, args, info)] *)
Definition query_with_args (fuel : nat) (w : World) (subclasses classes : list Cls)
    (args : Args) : result (list Row) :=
  of_types <- match lookup "of_type" args with
              | None => Ok []
              | Some (AVal (VList labels)) =>
                  Ok (map (get_subclass subclasses) (nodup Scalar_eq_dec labels))
              | Some _ => Err TypeError
              end ;;
  foldM (fun all_items cls =>
           if match of_types with [] => true | _ => false end
              || existsb (ocls_eqb (Some cls)) of_types
           then
             q <- get_authorized_query fuel w cls ;;
             q <- match lookup "project_id" args with
                  | None => Ok q
                  | Some (AVal (VScalar v)) =>
                      Q.filter q (fun t =>
                        eq_param (Q.astext q (Q.entity q) "project_id" t) v)
                  | Some _ => Err TypeError
                  end ;;
             q <- apply_query_args w q args ;;
             Ok (all_items ++ Q.all q)%list
           else Ok all_items)
        classes [].

(** The object resolver that [create_root_fields] makes for a class. *)
Definition resolver (fuel : nat) (w : World) (cls : Cls) (args : Args) (info : Info)
  : result (list (list (string * Loaded))) :=
  q <- get_authorized_query fuel w cls ;;
  q <- apply_query_args w q args ;;
  mapM (fun n => load_node fuel w n info Node_fields_depend_on_columns) (Q.all q).

(** The parameters [run] binds: [dict((v, k) for k, v in
    self._project_ids.items())], the project of each placeholder. *)
Definition run_params (self : NodeCounter.t) : list (string * string) :=
  fold_left (fun d kv => dict_set (snd kv) (fst kv) d) (NodeCounter._project_ids self) [].

(** [NodeCounter.run(session)].  [execute sql params] stands for
    [session.execute(sql, params).fetchone()], the result row read by column
    name; the value returned lists the promises in the order they are
    fulfilled, each with the value it is fulfilled with. *)
Definition NodeCounter_run (self : NodeCounter.t)
    (execute : string -> list (string * string) -> result (list (string * Z)))
  : result (list (nat * Z)) :=
  match NodeCounter._queries self with
  | [] => Ok []
  | queries =>
      let sql := "SELECT " ++ String.concat ", " (map NodeCounter.p_sql queries) ++ ";" in
      let params := run_params self in
      results <- execute sql params ;;
      mapM (fun p => match lookup (NodeCounter.p_key p) results with
                     | Some v => Ok (NodeCounter.p_promise p, v)
                     | None => Err (KeyError (NodeCounter.p_key p))
                     end)
           queries
  end.

(** The states a batcher goes through within a request: it starts empty
    and changes by [add_count] only. *)
Inductive batcher_state (w : World) : NodeCounter.t -> Prop :=
| batcher_new : batcher_state w NodeCounter.init
| batcher_add self cls args :
    batcher_state w self ->
    batcher_state w (snd (NodeCounter.add_count w self cls args)).



(** A permission entry that grants the whole project: it holds the
    wildcard or names nobody. *)
Definition grants_all (value : list string) : bool :=
  Str.mem "*" value || Nat.eqb (List.length value) 0.

(** * Properties *)

(** ** The result monad *)

Lemma bind_ok {A B} (m : result A) (k : A -> result B) (b : B) :
  bind m k = Ok b -> exists a, m = Ok a /\ k a = Ok b.
Proof. destruct m as [a|e]; simpl; intros H; [eauto | discriminate]. Qed.

Ltac inv_bind H :=
  let a := fresh "x" in
  let Ha := fresh "Hx" in
  apply bind_ok in H; destruct H as (a & Ha & H).

Ltac case_if H :=
  match type of H with
  | context [if ?c then _ else _] => destruct c eqn:?
  end.

Lemma foldM_invariant {A B} (P : B -> Prop) (f : B -> A -> result B) (l : list A) :
  (forall b a b', P b -> f b a = Ok b' -> P b') ->
  forall b b', P b -> foldM f l b = Ok b' -> P b'.
Proof.
  intros Hf. induction l as [|a l IH]; simpl; intros b b' Hb H.
  - now inversion H; subst.
  - inv_bind H. eauto.
Qed.

Lemma foldM_ind {A B} (P : B -> Prop) (f : B -> A -> result B) l b b' :
  foldM f l b = Ok b' ->
  P b ->
  (forall b a b', P b -> f b a = Ok b' -> P b') ->
  P b'.
Proof. intros H Hb Hf. eapply foldM_invariant; eauto. Qed.

(** ** Queries: what the operations keep *)

Lemma narrows_refl q : narrows q q.
Proof. intros r H; exact H. Qed.

Lemma narrows_trans q1 q2 q3 : narrows q1 q2 -> narrows q2 q3 -> narrows q1 q3.
Proof. intros H12 H23 r H. auto. Qed.

Lemma generative_ok q q' :
  Q.generative q = Ok q' -> q' = q /\ Q.limited q = false.
Proof.
  unfold Q.generative. destruct (Q.limited q); intros H; inversion H; auto.
Qed.

Lemma filter_ok q p q' :
  Q.filter q p = Ok q' ->
  Q.limited q = false /\
  q' = mkQuery (q_zero q) (q_joinpoint q)
         (List.filter (fun t => Sql.holds (p t)) (q_tuples q))
         (q_order q) (q_limit q) (q_offset q).
Proof.
  unfold Q.filter. intros H. inv_bind H.
  apply generative_ok in Hx as [-> Hl]. inversion H; auto.
Qed.

Lemma filter_tuples q p q' t :
  Q.filter q p = Ok q' ->
  In t (q_tuples q') <-> In t (q_tuples q) /\ p t = Some true.
Proof.
  intros H. apply filter_ok in H as [_ ->]. simpl.
  rewrite filter_In. unfold Sql.holds.
  destruct (p t) as [[|]|]; intuition congruence.
Qed.

Lemma filter_narrows q p q' : Q.filter q p = Ok q' -> narrows q' q.
Proof.
  intros H r Hr. unfold Q.rows in *. apply in_map_iff in Hr as (t & <- & Ht).
  apply (filter_tuples _ _ _ H) in Ht as [Ht _]. now apply in_map.
Qed.

Lemma filter_shape q p q' :
  Q.filter q p = Ok q' ->
  q_zero q' = q_zero q /\ Q.entity q' = Q.entity q /\ Q.limited q' = false.
Proof.
  intros H. apply filter_ok in H as [Hl ->]. unfold Q.entity, Q.limited in *. simpl. auto.
Qed.

Lemma filter_false_empty q q' : Q.filter q Q.false_ = Ok q' -> q_tuples q' = [].
Proof.
  intros H. apply filter_ok in H as [_ ->]. simpl.
  induction (q_tuples q); simpl; auto.
Qed.

Lemma in_insert le x y l : In y (Q.insert le x l) <-> y = x \/ In y l.
Proof.
  induction l as [|z l IH]; simpl.
  - intuition.
  - destruct (le x z); simpl; rewrite ?IH; intuition.
Qed.

Lemma in_sort le y l : In y (Q.sort le l) <-> In y l.
Proof.
  unfold Q.sort. induction l as [|x l IH]; simpl.
  - tauto.
  - rewrite in_insert, IH. intuition.
Qed.

Lemma sort_unordered l : Q.sort (Q.lex_le []) l = l.
Proof.
  unfold Q.sort. induction l as [|x l IH]; [reflexivity|].
  cbn [fold_right]. rewrite IH. destruct l; reflexivity.
Qed.

Lemma in_take {A} k (x : A) l : In x (Q.take k l) -> In x l.
Proof.
  destruct k as [z|]; simpl; auto. intros H.
  rewrite <- (firstn_skipn (Z.to_nat z) l). apply in_or_app. now left.
Qed.

Lemma in_drop {A} m (x : A) l : In x (Q.drop m l) -> In x l.
Proof.
  destruct m as [z|]; simpl; auto. intros H.
  rewrite <- (firstn_skipn (Z.to_nat z) l). apply in_or_app. now right.
Qed.

Lemma sql_rows_incl q r : In r (Q.sql_rows q) -> In r (Q.rows q).
Proof.
  unfold Q.sql_rows, Q.rows. intros H.
  apply in_map_iff in H as (t & <- & Ht).
  apply in_take, in_drop, in_sort in Ht. now apply in_map.
Qed.

Lemma sql_rows_unlimited q :
  Q.limited q = false -> q_order q = [] -> Q.sql_rows q = Q.rows q.
Proof.
  unfold Q.limited, Q.sql_rows, Q.rows. intros Hl Ho.
  destruct (q_limit q), (q_offset q); try discriminate.
  rewrite Ho. simpl. now rewrite sort_unordered.
Qed.

Lemma row_eqb_true a b : row_eqb a b = true <-> a = b.
Proof. unfold row_eqb. destruct (Row_eq_dec a b); intuition congruence. Qed.

Lemma mem_row_In r l : Q.mem_row r l = true <-> In r l.
Proof.
  unfold Q.mem_row. rewrite existsb_exists. split.
  - intros (x & Hx & E). apply row_eqb_true in E. now subst.
  - intros H. exists r. split; auto. now apply row_eqb_true.
Qed.

Lemma in_unique r l : In r (Q.unique l) <-> In r l.
Proof.
  induction l as [|x l IH]; simpl.
  - tauto.
  - rewrite filter_In, IH, negb_true_iff.
    destruct (Row_eq_dec x r) as [->|N].
    + intuition.
    + assert (row_eqb x r = false).
      { destruct (row_eqb x r) eqn:E; auto. apply row_eqb_true in E. contradiction. }
      intuition.
Qed.

Lemma in_all q r : In r (Q.all q) <-> In r (Q.sql_rows q).
Proof. apply in_unique. Qed.

Lemma all_incl q r : In r (Q.all q) -> In r (Q.rows q).
Proof. intros H. now apply sql_rows_incl, in_all. Qed.

Lemma rows_of_rows c l : Q.rows (Q.of_rows c l) = l.
Proof.
  unfold Q.rows, Q.of_rows. simpl. rewrite map_map. simpl. apply map_id.
Qed.

Lemma sql_rows_of_rows c l : Q.sql_rows (Q.of_rows c l) = l.
Proof.
  rewrite sql_rows_unlimited by reflexivity. apply rows_of_rows.
Qed.

Lemma from_self_narrows q : narrows (Q.from_self q) q.
Proof.
  intros r. unfold Q.from_self. rewrite rows_of_rows. apply sql_rows_incl.
Qed.

Lemma limit_rows q k : Q.rows (Q.limit q k) = Q.rows q.
Proof. reflexivity. Qed.

Lemma offset_rows q m : Q.rows (Q.offset q m) = Q.rows q.
Proof. reflexivity. Qed.

Lemma union_rows q o r :
  In r (Q.rows (Q.union q o)) <-> In r (Q.sql_rows q) \/ In r (Q.sql_rows o).
Proof.
  unfold Q.union. rewrite rows_of_rows, in_unique, in_app_iff. tauto.
Qed.

Lemma except_rows q o r :
  In r (Q.rows (Q.except_ q o)) <-> In r (Q.sql_rows q) /\ ~ In r (Q.sql_rows o).
Proof.
  unfold Q.except_. rewrite rows_of_rows, in_unique, filter_In, negb_true_iff.
  rewrite <- mem_row_In with (l := Q.sql_rows o).
  destruct (Q.mem_row r (Q.sql_rows o)); intuition congruence.
Qed.

Lemma select_from_union_all_rows e subqs r :
  In r (Q.rows (Q.select_from_union_all e subqs)) <->
  exists sq, In sq subqs /\ In r (Q.sql_rows sq).
Proof.
  unfold Q.select_from_union_all. rewrite rows_of_rows. apply in_flat_map.
Qed.

Lemma join_step_zero w zero from st ts t :
  In t (Q.join_step w zero from st ts) ->
  exists t0, In t0 ts /\ t_zero t = t_zero t0.
Proof.
  unfold Q.join_step. intros H. apply in_flat_map in H as (t0 & Ht0 & H).
  exists t0. split; auto.
  destruct (Q.row_of zero from t0); [|contradiction].
  apply in_map_iff in H as (n & <- & _). reflexivity.
Qed.

Lemma join_steps_zero w zero steps : forall from ts jp ts' t,
  Q.join_steps w zero from steps ts = (jp, ts') ->
  In t ts' -> exists t0, In t0 ts /\ t_zero t = t_zero t0.
Proof.
  induction steps as [|st steps IH]; simpl; intros from ts jp ts' t H Ht.
  - inversion H; subst. eauto.
  - destruct (IH _ _ _ _ _ H Ht) as (t1 & Ht1 & E1).
    destruct (join_step_zero _ _ _ _ _ _ Ht1) as (t0 & Ht0 & E0).
    exists t0. split; auto. congruence.
Qed.

Lemma path_ok w q names q' :
  Q.path w q names = Ok q' ->
  narrows q' q /\ q_zero q' = q_zero q /\ Q.limited q' = false.
Proof.
  unfold Q.path. intros H. inv_bind H. apply generative_ok in Hx as [-> Hl].
  inv_bind H.
  destruct (Q.join_steps w (q_zero q) (Q.entity q) x (q_tuples q)) as [jp ts] eqn:E.
  inversion H; subst; clear H. unfold Q.limited in *. simpl. repeat split; auto.
  intros r Hr. unfold Q.rows in *. simpl in Hr.
  apply in_map_iff in Hr as (t & <- & Ht).
  destruct (join_steps_zero _ _ _ _ _ _ E Ht) as (t0 & Ht0 & ->).
  now apply in_map.
Qed.

Lemma reset_joinpoint_rows q : Q.rows (Q.reset_joinpoint q) = Q.rows q.
Proof. reflexivity. Qed.

Lemma props_narrows q key val q' : Q.props q key val = Ok q' -> narrows q' q.
Proof. apply filter_narrows. Qed.

Lemma ids_narrows q v q' : Q.ids q v = Ok q' -> narrows q' q.
Proof. destruct v; apply filter_narrows. Qed.

Lemma subq_path_narrows w q names f q' :
  Q.subq_path w q names f = Ok q' -> narrows q' q.
Proof.
  unfold Q.subq_path. intros H. do 2 inv_bind H. eapply filter_narrows; eauto.
Qed.

Lemma order_by_ok q le q' :
  Q.order_by q le = Ok q' ->
  q_tuples q' = q_tuples q /\ q_zero q' = q_zero q /\ Q.entity q' = Q.entity q.
Proof.
  unfold Q.order_by. intros H. inv_bind H. apply generative_ok in Hx as [-> _].
  inversion H; auto.
Qed.

Lemma order_by_narrows q le q' : Q.order_by q le = Ok q' -> narrows q' q.
Proof.
  intros H r. apply order_by_ok in H as (E & _). unfold Q.rows. now rewrite E.
Qed.

(** ** Every stage of the compiler narrows the query *)

Lemma filter_project_project_id_narrows w q value q' :
  filter_project_project_id w q value = Ok q' -> narrows q' q.
Proof.
  unfold filter_project_project_id. intros H. inv_bind H.
  assert (Hs : forall sq, In sq x -> narrows sq q).
  { eapply foldM_ind with (P := fun l => forall sq, In sq l -> narrows sq q);
      [exact Hx | intros sq [] |].
    intros subqs pid subqs' IH Hstep sq Hsq.
    destruct pid as [s| | |]; try discriminate.
    destruct (Str.split_hyphen s) as [[pn pc]|].
    - do 3 inv_bind Hstep. inversion Hstep; subst; clear Hstep.
      apply in_app_iff in Hsq as [Hsq|[<-|[]]]; auto.
      eapply narrows_trans; [eapply props_narrows; eauto|].
      eapply narrows_trans; [eapply path_ok; eauto|].
      eapply props_narrows; eauto.
    - inversion Hstep; subst. auto. }
  destruct x as [|sq0 rest].
  - eapply filter_narrows; eauto.
  - inversion H; subst; clear H. intros r Hr.
    apply select_from_union_all_rows in Hr as (sq & Hsq & Hr).
    apply (Hs sq Hsq). now apply sql_rows_incl.
Qed.

Lemma subq_paths_narrows w q dst f q' :
  subq_paths w q dst f = Ok q' -> narrows q' q.
Proof.
  unfold subq_paths. destruct (find_paths w (Q.entity q) dst); [|discriminate].
  intros H. inv_bind H. eapply filter_narrows; eauto.
Qed.

Lemma fold_union_narrows q0 : forall rest acc,
  narrows acc q0 -> (forall sq, In sq rest -> narrows sq q0) ->
  narrows (fold_left Q.union rest acc) q0.
Proof.
  induction rest as [|sq rest IH]; simpl; intros acc Ha Hr; auto.
  apply IH; [|auto].
  intros r H. apply union_rows in H as [H|H].
  - apply Ha. now apply sql_rows_incl.
  - apply (Hr sq); auto. now apply sql_rows_incl.
Qed.

Lemma with_path_to_entry_narrows w union name q0 st entry st' :
  narrows (fst st) q0 -> (forall sq, In sq (snd st) -> narrows sq q0) ->
  with_path_to_entry w union name st entry = Ok st' ->
  narrows (fst st') q0 /\ (forall sq, In sq (snd st') -> narrows sq q0).
Proof.
  destruct st as [qa ua], st' as [qb ub]. simpl. intros Ha Hu Hstep.
  unfold with_path_to_entry in Hstep.
  inv_bind Hstep.
  destruct (cls_eqb (Q.entity qa) GrapheneNode); [discriminate|].
  inv_bind Hstep. destruct x0 as [qc subq].
  assert (Hc : narrows qc qa /\ narrows subq qa).
  { case_if Hx0; [|case_if Hx0]; try case_if Hx0;
      inv_bind Hx0; inversion Hx0; subst; split;
        try apply narrows_refl; try (intros r Hr; exact Hr).
    - eapply subq_path_narrows; eauto.
    - eapply filter_narrows; eauto.
    - apply subq_path_narrows in Hx1. exact Hx1.
    - apply filter_narrows in Hx1. exact Hx1.
    - eapply subq_paths_narrows; eauto. }
  destruct Hc as [Hc Hs].
  destruct union; inversion Hstep; subst; clear Hstep; simpl; split.
  - eapply narrows_trans; eauto.
  - intros sq Hsq. apply in_app_iff in Hsq as [Hsq|[<-|[]]]; auto.
    eapply narrows_trans; eauto.
  - eapply narrows_trans; eauto.
  - auto.
Qed.

Lemma with_path_to_narrows w q value union name q' :
  with_path_to w q value union name = Ok q' -> narrows q' q.
Proof.
  unfold with_path_to. intros H. inv_bind H. inv_bind H.
  destruct x0 as [q1 union_qs].
  assert (Hinv : narrows (fst (q1, union_qs)) q /\
                 forall sq, In sq (snd (q1, union_qs)) -> narrows sq q).
  { eapply foldM_ind
      with (P := fun st : Query * list Query =>
                   narrows (fst st) q /\ forall sq, In sq (snd st) -> narrows sq q);
      [exact Hx0 | split; [apply narrows_refl | intros sq []] |].
    intros st entry st' [Ha Hu] Hstep.
    eapply with_path_to_entry_narrows; eauto. }
  destruct Hinv as [H1 Hu]. simpl in *.
  destruct union.
  - destruct union_qs as [|q0 rest].
    + eapply narrows_trans; [eapply filter_narrows; eauto | auto].
    + inversion H; subst. apply fold_union_narrows.
      * apply Hu. now left.
      * intros sq Hsq. apply Hu. now right.
  - inversion H; subst. auto.
Qed.

Lemma mapM_ok {A B} (f : A -> result B) l : forall bs,
  mapM f l = Ok bs -> forall b, In b bs -> exists a, In a l /\ f a = Ok b.
Proof.
  induction l as [|a l IH]; simpl; intros bs H b Hb.
  - inversion H; subst. contradiction.
  - do 2 inv_bind H. inversion H; subst; clear H.
    destruct Hb as [<-|Hb]; [eauto|].
    destruct (IH _ Hx0 _ Hb) as (a' & Ha' & E). eauto.
Qed.

Lemma foldM_narrows {A} (f : Query -> A -> result Query) l q q' :
  (forall qa a qb, f qa a = Ok qb -> narrows qb qa) ->
  foldM f l q = Ok q' -> narrows q' q.
Proof.
  intros Hf H.
  eapply foldM_ind with (P := fun b => narrows b q); [exact H | apply narrows_refl |].
  intros b a b' Hb Hstep. eapply narrows_trans; eauto.
Qed.

Lemma apply_property_filter_narrows w q kv q' :
  apply_property_filter w q kv = Ok q' -> narrows q' q.
Proof.
  unfold apply_property_filter. destruct kv as [key a].
  destruct (lookup key (pg_properties (schema w) (Q.entity q))) as [ft|].
  - intros H. inv_bind H. destruct ft.
    + inv_bind H. apply filter_narrows in H. exact H.
    + apply filter_narrows in H. exact H.
    + apply filter_narrows in H. exact H.
  - intros H. inversion H. apply narrows_refl.
Qed.

Lemma apply_not_narrows w q args q' : apply_not w q args = Ok q' -> narrows q' q.
Proof.
  unfold apply_not. intros H. do 2 inv_bind H.
  eapply foldM_narrows; [|exact H].
  intros qa [key v] qb Hs.
  destruct (lookup key (pg_properties (schema w) (Q.entity qa))).
  - eapply filter_narrows; eauto.
  - inversion Hs. apply narrows_refl.
Qed.

Lemma apply_ids_narrows key q args q' : apply_ids key q args = Ok q' -> narrows q' q.
Proof.
  unfold apply_ids. destruct (lookup key args) as [[v| |]|]; try discriminate.
  - apply ids_narrows.
  - intros H; inversion H; apply narrows_refl.
Qed.

Lemma apply_submitter_id_narrows q args q' :
  apply_submitter_id q args = Ok q' -> narrows q' q.
Proof.
  unfold apply_submitter_id.
  destruct (String.eqb (cls_label (Q.entity q)) "node");
    [destruct (lookup "submitter_id" args)|];
    intros H; try (inversion H; apply narrows_refl).
  inv_bind H. eapply filter_narrows; eauto.
Qed.

Lemma apply_arg_quicksearch_narrows w q args q' :
  apply_arg_quicksearch w q args = Ok q' -> narrows q' q.
Proof.
  unfold apply_arg_quicksearch.
  destruct (lookup "quick_search" args) as [[[[s|b|z|]|l]|d|l]|];
    intros H; repeat case_if H; try discriminate;
      try (inversion H; apply narrows_refl);
      try (destruct d; [inversion H; apply narrows_refl | discriminate]);
      try (destruct l; [inversion H; apply narrows_refl | discriminate]).
  - do 3 inv_bind H. inversion H; subst; clear H.
    intros r Hr. apply union_rows in Hr as [Hr|Hr]; apply sql_rows_incl in Hr.
    + exact (filter_narrows _ _ Hx r Hr).
    + exact (filter_narrows _ _ Hx0 r Hr).
Qed.

Lemma apply_date_narrows w arg prop after q args q' :
  apply_date w arg prop after q args = Ok q' -> narrows q' q.
Proof.
  unfold apply_date.
  destruct (lookup arg args) as [[[[s|b|z|]|l]|d|l]|]; try discriminate.
  - destruct (parse w s); [|discriminate]. apply filter_narrows.
  - intros H; inversion H; apply narrows_refl.
Qed.

Lemma apply_with_links_narrows w q args q' :
  apply_with_links w q args = Ok q' -> narrows q' q.
Proof.
  unfold apply_with_links. destruct (lookup "with_links" args).
  - intros H. inv_bind H. eapply foldM_narrows; [|exact H].
    intros qa link qb Hs. inv_bind Hs. eapply filter_narrows; eauto.
  - intros H; inversion H; apply narrows_refl.
Qed.

Lemma apply_with_links_any_narrows w q args q' :
  apply_with_links_any w q args = Ok q' -> narrows q' q.
Proof.
  unfold apply_with_links_any. destruct (lookup "with_links_any" args).
  - intros H. inv_bind H. destruct (nodup Scalar_eq_dec x) as [|l0 ls].
    + inversion H; apply narrows_refl.
    + inv_bind H. inversion H; subst; clear H. intros r Hr.
      apply select_from_union_all_rows in Hr as (sq & Hsq & Hr).
      destruct (mapM_ok _ _ Hx0 _ Hsq) as (link & _ & Hl).
      inv_bind Hl. apply sql_rows_incl in Hr.
      eapply filter_narrows; eauto.
  - intros H; inversion H; apply narrows_refl.
Qed.

Lemma apply_without_links_narrows w q args q' :
  apply_without_links w q args = Ok q' -> narrows q' q.
Proof.
  unfold apply_without_links. destruct (lookup "without_links" args).
  - intros H. inv_bind H. eapply foldM_narrows; [|exact H].
    intros qa link qb Hs. inv_bind Hs. eapply filter_narrows; eauto.
  - intros H; inversion H; apply narrows_refl.
Qed.

Lemma apply_with_path_to_narrows w q args q' :
  apply_with_path_to w q args = Ok q' -> narrows q' q.
Proof.
  unfold apply_with_path_to. destruct (lookup "with_path_to" args).
  - apply with_path_to_narrows.
  - intros H; inversion H; apply narrows_refl.
Qed.

Lemma apply_with_path_to_any_narrows w q args q' :
  apply_with_path_to_any w q args = Ok q' -> narrows q' q.
Proof.
  unfold apply_with_path_to_any. destruct (lookup "with_path_to_any" args).
  - apply with_path_to_narrows.
  - intros H; inversion H; apply narrows_refl.
Qed.

Lemma apply_without_path_to_narrows w q args q' :
  apply_without_path_to w q args = Ok q' -> narrows q' q.
Proof.
  unfold apply_without_path_to. destruct (lookup "without_path_to" args).
  - intros H. inv_bind H. inversion H; subst; clear H.
    intros r Hr. apply except_rows in Hr as [Hr _]. now apply sql_rows_incl.
  - intros H; inversion H; apply narrows_refl.
Qed.

Lemma apply_project_id_narrows w q args q' :
  apply_project_id w q args = Ok q' -> narrows q' q.
Proof.
  unfold apply_project_id. destruct (lookup "project_id" args) as [a|].
  - destruct (String.eqb (cls_label (Q.entity q)) "project").
    + destruct a; try discriminate. apply filter_project_project_id_narrows.
    + intros H; inversion H; apply narrows_refl.
  - intros H; inversion H; apply narrows_refl.
Qed.

Lemma apply_order_by_narrows w arg desc q args q' :
  apply_order_by w arg desc q args = Ok q' -> narrows q' q.
Proof.
  unfold apply_order_by.
  destruct (lookup arg args) as [[[[s|b|z|]|l]|d|l]|]; try discriminate.
  - intros H. repeat case_if H; try discriminate;
      try (inversion H; apply narrows_refl);
      eapply order_by_narrows; eauto.
  - intros H; inversion H; apply narrows_refl.
Qed.

Lemma apply_arg_limit_narrows q args q' :
  apply_arg_limit q args = Ok q' -> narrows q' q.
Proof.
  unfold apply_arg_limit. intros H. inv_bind H.
  destruct (x >? 0)%Z; inversion H; subst; intros r Hr; exact Hr.
Qed.

Lemma apply_arg_offset_narrows q args q' :
  apply_arg_offset q args = Ok q' -> narrows q' q.
Proof.
  unfold apply_arg_offset. intros H. inv_bind H.
  destruct (x >? 0)%Z; inversion H; subst; intros r Hr; exact Hr.
Qed.

Create HintDb narrowing.
#[local] Hint Resolve apply_arg_offset_narrows apply_arg_limit_narrows
  apply_order_by_narrows apply_project_id_narrows apply_without_path_to_narrows
  apply_with_path_to_any_narrows apply_with_path_to_narrows
  apply_without_links_narrows apply_with_links_any_narrows apply_with_links_narrows
  apply_date_narrows apply_arg_quicksearch_narrows apply_submitter_id_narrows
  apply_ids_narrows apply_not_narrows from_self_narrows : narrowing.

Theorem apply_query_args_narrows w q args q' :
  apply_query_args w q args = Ok q' -> narrows q' q.
Proof.
  unfold apply_query_args. intros H.
  inv_bind H.
  assert (H0 : narrows x q).
  { eapply foldM_narrows; [|exact Hx].
    intros qa a qb. apply apply_property_filter_narrows. }
  do 19 (let Hn := fresh "Hn" in
         apply bind_ok in H; destruct H as (? & Hn & H)).
  assert (Hq : narrows x4 x3).
  { destruct (lookup "quick_search" args).
    - eapply apply_arg_quicksearch_narrows; eauto.
    - inversion Hn3; subst. apply narrows_refl. }
  repeat (eapply narrows_trans; [solve [eauto with narrowing]|]).
  apply narrows_refl.
Qed.

(** * The count batcher *)

(** C8.  A count request that is eligible for batching -- the type carries
    [project_id] or is the Node supertype, it is not the project type, and
    the argument bundle is exactly the [project_id] filter holding one scope
    key -- resolves at once to the integer zero when that key is not among
    the caller's readable projects, and the pool of the batcher is left as
    it was. *)
Theorem add_count_denied_is_zero w self cls a project_id :
  cls = PsqlNode \/ has_attr (schema w) cls "project_id" = true ->
  cls_label cls <> "project" ->
  a = AVal (VScalar (SStr project_id)) \/ a = AVal (VList [SStr project_id]) ->
  ~ In project_id (read_access_projects w) ->
  NodeCounter.add_count w self cls [("project_id", a)] = (NodeCounter.CInt 0, self).
Proof.
  intros Hscoped Hlabel Ha Hdenied.
  unfold NodeCounter.add_count.
  assert (E1 : negb (cls_eqb cls PsqlNode) && negb (has_attr (schema w) cls "project_id") = false).
  { destruct Hscoped as [-> | ->]; simpl; auto. now rewrite andb_false_r. }
  rewrite E1.
  assert (E2 : String.eqb (cls_label cls) "project" = false).
  { now apply String.eqb_neq. }
  rewrite E2.
  assert (E3 : Str.mem project_id (read_access_projects w) = false).
  { unfold Str.mem. destruct (existsb _ _) eqn:E; auto.
    apply existsb_exists in E as (x & Hx & Ex). apply String.eqb_eq in Ex. now subst. }
  simpl keys.
  destruct (list_eq_dec string_dec ["project_id"] ["project_id"]) as [_|N];
    [|now contradiction N].
  simpl. destruct Ha as [-> | ->]; now rewrite E3.
Qed.

Lemma add_count_denied_is_zero_witness :
  NodeCounter.add_count Demo.world NodeCounter.init Demo.case_
    [("project_id", Demo.str_arg "prog-Z")]
  = (NodeCounter.CInt 0, NodeCounter.init).
Proof.
  apply (add_count_denied_is_zero Demo.world NodeCounter.init (cls := Demo.case_)
           (project_id := "prog-Z")).
  - right. reflexivity.
  - simpl. discriminate.
  - left. reflexivity.
  - simpl. intros [H|[H|[]]]; discriminate.
Defined.

(** * Filtering projects by composite id *)

Lemma project_ids_fold_skips w q ids : forall acc,
  foldM (fun subqs project_id =>
           match project_id with
           | SStr s =>
               match Str.split_hyphen s with
               | Some (program_name, project_code) =>
                   q1 <- Q.props q "code" (VScalar (SStr project_code)) ;;
                   q2 <- Q.path w q1 ["programs"] ;;
                   subq <- Q.props q2 "name" (VScalar (SStr program_name)) ;;
                   Ok (subqs ++ [subq])%list
               | None => Ok subqs
               end
           | _ => Err (AttributeError "split")
           end)
        (map SStr ids) acc
  = foldM (fun subqs project_id =>
           match project_id with
           | SStr s =>
               match Str.split_hyphen s with
               | Some (program_name, project_code) =>
                   q1 <- Q.props q "code" (VScalar (SStr project_code)) ;;
                   q2 <- Q.path w q1 ["programs"] ;;
                   subq <- Q.props q2 "name" (VScalar (SStr program_name)) ;;
                   Ok (subqs ++ [subq])%list
               | None => Ok subqs
               end
           | _ => Err (AttributeError "split")
           end)
        (map SStr (filter has_hyphen ids)) acc.
Proof.
  induction ids as [|s ids IH]; intros acc; [reflexivity|].
  cbn [map filter]. unfold has_hyphen at 1.
  destruct (Str.split_hyphen s) as [[pn pc]|] eqn:E.
  - cbn [map foldM]. rewrite E.
    destruct (Q.props q "code" (VScalar (SStr pc))) as [q1|]; [|reflexivity]. cbn [bind].
    destruct (Q.path w q1 ["programs"]) as [q2|]; [|reflexivity]. cbn [bind].
    destruct (Q.props q2 "name" (VScalar (SStr pn))) as [q3|]; [|reflexivity]. cbn [bind].
    apply IH.
  - cbn [foldM]. rewrite E. cbn [bind]. apply IH.
Qed.

(** C7, as the code has it.  A composite id without a hyphen is skipped,
    with no error: the filter gives what it gives once those ids are taken
    out of the list; and when no id of the list has a hyphen (so for the
    empty list too) the filter yields a query without rows. *)
Theorem filter_project_project_id_skips_malformed w q ids :
  filter_project_project_id w q (VList (map SStr ids))
  = filter_project_project_id w q (VList (map SStr (filter has_hyphen ids)))
  /\ (Q.limited q = false ->
      filter has_hyphen ids = [] ->
      exists q', filter_project_project_id w q (VList (map SStr ids)) = Ok q'
                 /\ Q.all q' = []).
Proof.
  split.
  - unfold filter_project_project_id. cbn [as_list].
    now rewrite project_ids_fold_skips.
  - intros Hl Hnone. unfold filter_project_project_id. cbn [as_list].
    rewrite project_ids_fold_skips, Hnone. cbn [map foldM bind].
    unfold Q.filter, Q.generative. rewrite Hl. cbn [bind].
    eexists. split; [reflexivity|].
    unfold Q.all, Q.sql_rows. cbn [q_tuples q_limit q_offset q_order].
    assert (E : filter (fun t => Sql.holds (Q.false_ t)) (q_tuples q) = []).
    { induction (q_tuples q); simpl; auto. }
    rewrite E. cbn. destruct (q_offset q), (q_limit q); cbn;
      rewrite ?skipn_nil, ?firstn_nil; reflexivity.
Qed.

Lemma filter_project_project_id_skips_malformed_witness :
  exists q', filter_project_project_id Demo.world (Q.nodes Demo.world Project)
               (VList (map SStr ["nohyphen"])) = Ok q'
             /\ Q.all q' = [].
Proof.
  apply (filter_project_project_id_skips_malformed Demo.world
           (Q.nodes Demo.world Project) ["nohyphen"]); reflexivity.
Defined.

(** C7 as stated does not hold: a list holding a composite id without a
    hyphen raises nothing, and the other ids of the list are still
    answered. *)
Lemma malformed_project_id_is_no_error :
  (forall e, filter_project_project_id Demo.world (Q.nodes Demo.world Project)
               (VList [SStr "nohyphen"]) <> Err e)
  /\ (exists q', filter_project_project_id Demo.world (Q.nodes Demo.world Project)
                   (VList [SStr "nohyphen"; SStr "prog-A"]) = Ok q'
                 /\ Q.all q' = [Demo.proj_open]).
Proof.
  split.
  - intros e. vm_compute. discriminate.
  - eexists. split; vm_compute; reflexivity.
Qed.

(** * Pagination *)

Lemma take_map {A B} (f : A -> B) k l : Q.take k (map f l) = map f (Q.take k l).
Proof. destruct k; simpl; auto. apply firstn_map. Qed.

Lemma drop_map {A B} (f : A -> B) m l : Q.drop m (map f l) = map f (Q.drop m l).
Proof. destruct m; simpl; auto. apply skipn_map. Qed.

Lemma sql_rows_wrapped c l k m :
  Q.sql_rows (mkQuery c c (map Q.single l) [] k m) = Q.take k (Q.drop m l).
Proof.
  unfold Q.sql_rows. cbn [q_tuples q_limit q_offset q_order].
  rewrite sort_unordered, <- take_map, <- drop_map, map_map. cbn.
  now rewrite map_id.
Qed.

Lemma length_take_cap {A} (k : Z) (l : list A) :
  (Z.of_nat (List.length (Q.take (Some k) l)) <= Z.max k 0)%Z.
Proof.
  cbn. rewrite length_firstn. lia.
Qed.

(** C9, as the code has it.  The finished query is wrapped ([from_self])
    and LIMIT and OFFSET are both set on the wrapping statement.  With
    [first] unset the cap is the default of 10; [first] zero or negative
    sets no cap; [first = k > 0] caps the rows at [k].  [offset = m > 0]
    skips the first [m] rows of the wrapped, uncapped result, and the cap
    counts the rows after the skipped ones: the statement returns rows
    [m+1 .. m+k] of the wrapped query. *)
Theorem pagination_skips_then_caps q args first offset :
  lookup "first" args = option_map Demo.int_arg first ->
  lookup "offset" args = option_map Demo.int_arg offset ->
  exists q1 q2,
    apply_arg_limit (Q.from_self q) args = Ok q1 /\
    apply_arg_offset q1 args = Ok q2 /\
    Q.sql_rows q2 = Q.take (row_cap first) (Q.drop (rows_skipped offset) (Q.sql_rows q)) /\
    (forall k, row_cap first = Some k -> (Z.of_nat (List.length (Q.all q2)) <= k)%Z).
Proof.
  intros Hf Ho. unfold apply_arg_limit, apply_arg_offset. rewrite Hf, Ho.
  assert (Hcap : forall q2 k,
             Q.sql_rows q2 = Q.take (row_cap first) (Q.drop (rows_skipped offset) (Q.sql_rows q)) ->
             row_cap first = Some k -> (Z.of_nat (List.length (Q.all q2)) <= k)%Z).
  { intros q2 k E Hk. unfold Q.all. rewrite E, Hk.
    assert (Hpos : (0 < k)%Z).
    { unfold row_cap in Hk. destruct first as [z|].
      - destruct (z >? 0)%Z eqn:Ez; inversion Hk; subst. lia.
      - inversion Hk. unfold DEFAULT_LIMIT. lia. }
    set (l := Q.take (Some k) _).
    assert (Hl : (Z.of_nat (List.length l) <= k)%Z).
    { subst l. pose proof (length_take_cap k (Q.drop (rows_skipped offset) (Q.sql_rows q))). lia. }
    assert (Hu : forall l0 : list Row, (List.length (Q.unique l0) <= List.length l0)%nat).
    { induction l0 as [|x l0 IH]; simpl; auto.
      pose proof (filter_length_le (fun y => negb (row_eqb x y)) (Q.unique l0)). lia. }
    specialize (Hu l). lia. }
  destruct first as [k|], offset as [m|]; cbn [option_map as_int Demo.int_arg bind];
    unfold row_cap, rows_skipped, DEFAULT_LIMIT in *;
    try destruct (k >? 0)%Z eqn:Ek; try destruct (m >? 0)%Z eqn:Em;
    cbn [Z.gtb Z.compare];
    do 2 eexists; (split; [reflexivity|]); (split; [reflexivity|]);
    (assert (E : forall kk mm,
                Q.sql_rows (Q.offset (Q.limit (Q.from_self q) kk) mm)
                = Q.take kk (Q.drop mm (Q.sql_rows q)))
      by (intros; apply sql_rows_wrapped));
    (split; [first [apply E | apply (E None) | apply (E _ None) | apply (E None None)] | ]);
    intros k0 Hk0; apply Hcap with (k := k0);
      try (first [apply E | apply (E None) | apply (E _ None) | apply (E None None)]);
      auto.
Qed.

Lemma pagination_skips_then_caps_witness :
  exists q1 q2,
    apply_arg_limit (Q.from_self (Q.nodes Demo.world Demo.case_))
      [("first", Demo.int_arg 2); ("offset", Demo.int_arg 1)] = Ok q1 /\
    apply_arg_offset q1 [("first", Demo.int_arg 2); ("offset", Demo.int_arg 1)] = Ok q2 /\
    Q.sql_rows q2
    = Q.take (row_cap (Some 2%Z))
        (Q.drop (rows_skipped (Some 1%Z)) (Q.sql_rows (Q.nodes Demo.world Demo.case_))) /\
    (forall k, row_cap (Some 2%Z) = Some k -> (Z.of_nat (List.length (Q.all q2)) <= k)%Z).
Proof.
  apply (pagination_skips_then_caps (Q.nodes Demo.world Demo.case_)
           [("first", Demo.int_arg 2); ("offset", Demo.int_arg 1)]
           (Some 2%Z) (Some 1%Z)); reflexivity.
Defined.

(** C9 as stated does not hold: with three rows, [first = 2] and
    [offset = 1], the statement returns the second and the third row; had
    the offset been applied to the already capped rows, only the second
    would be returned. *)
Lemma offset_is_not_applied_to_capped_rows :
  exists q1 q2,
    apply_arg_limit (Q.from_self (Q.nodes Demo.world Demo.case_))
      [("first", Demo.int_arg 2); ("offset", Demo.int_arg 1)] = Ok q1 /\
    apply_arg_offset q1 [("first", Demo.int_arg 2); ("offset", Demo.int_arg 1)] = Ok q2 /\
    Q.all (Q.nodes Demo.world Demo.case_) = [Demo.case_ab12; Demo.case_ffff; Demo.case_b] /\
    Q.all q2 = [Demo.case_ffff; Demo.case_b] /\
    Q.all q2 <> skipn 1 (firstn 2 (Q.all (Q.nodes Demo.world Demo.case_))).
Proof.
  do 2 eexists. do 4 (split; [vm_compute; reflexivity|]).
  vm_compute. discriminate.
Qed.

(** * Traversal from the Node supertype *)



Lemma cls_eqb_eq a b : cls_eqb a b = true -> a = b.
Proof.
  destruct a, b; simpl; intros H; try discriminate; auto.
  apply String.eqb_eq in H. now subst.
Qed.












(** * Quick search *)

(** C5 at a failing input.  Searching "AB12" finds the row whose id
    contains it and the row whose submitter id contains it, but the query
    returned carries no ordering: the row with the longer submitter id (26
    characters) comes before the one with the shorter (16 characters). *)
Theorem quick_search_result_is_not_ordered :
  exists q',
    apply_arg_quicksearch Demo.world (Q.nodes Demo.world Demo.case_)
      [("quick_search", Demo.str_arg "AB12")] = Ok q' /\
    Q.all q' = [Demo.case_ab12; Demo.case_ffff] /\
    map (fun r => Sql.length (Sql.astext r "submitter_id")) (Q.all q')
    = [Some 26%nat; Some 16%nat] /\
    q_order q' = [].
Proof.
  eexists. repeat split; vm_compute; reflexivity.
Qed.

(** * Property filters *)

(** C3 at a failing input.  Filtering the list-typed property
    [consent_codes] by the single value "%" returns every case that stores
    a non-empty list, though none of the stored lists contains "%": the
    value is pasted into a LIKE pattern, where "%" is a wildcard. *)
Theorem list_filter_wildcard_matches_everything :
  lookup "consent_codes" (pg_properties (schema Demo.world) Demo.case_) = Some TList /\
  exists q',
    apply_property_filter Demo.world (Q.nodes Demo.world Demo.case_)
      ("consent_codes", Demo.strs_arg ["%"]) = Ok q' /\
    Q.all q' = [Demo.case_ab12; Demo.case_ffff; Demo.case_b] /\
    map (fun r => lookup "consent_codes" (props r)) (Q.all q')
    = [Some (JList ["x"]); Some (JList ["a"; "b"]); Some (JList ["a"])].
Proof.
  split; [reflexivity|]. eexists. repeat split; vm_compute; reflexivity.
Qed.

(** * The [id] and [ids] filters *)

Lemma apply_property_filter_shape w q kv q' :
  apply_property_filter w q kv = Ok q' ->
  q_zero q' = q_zero q /\ Q.entity q' = Q.entity q.
Proof.
  unfold apply_property_filter. destruct kv as [key a].
  destruct (lookup key (pg_properties (schema w) (Q.entity q))) as [ft|].
  - intros H. inv_bind H. destruct ft.
    + inv_bind H. apply filter_shape in H. tauto.
    + apply filter_shape in H. tauto.
    + apply filter_shape in H. tauto.
  - intros H. inversion H. auto.
Qed.

Lemma apply_not_shape w q args q' :
  apply_not w q args = Ok q' ->
  q_zero q' = q_zero q /\ Q.entity q' = Q.entity q.
Proof.
  unfold apply_not. intros H. do 2 inv_bind H.
  eapply foldM_ind
    with (P := fun b => q_zero b = q_zero q /\ Q.entity b = Q.entity q);
    [exact H | auto |].
  intros qa [key v] qb [Hz He] Hs.
  destruct (lookup key (pg_properties (schema w) (Q.entity qa))).
  - apply filter_shape in Hs as (Hz' & He' & _). split; congruence.
  - inversion Hs; subst. auto.
Qed.

Lemma row_of_zero zero t : Q.row_of zero zero t = Some (t_zero t).
Proof.
  unfold Q.row_of.
  assert (E : cls_eqb zero zero = true).
  { destruct zero; simpl; auto. apply String.eqb_refl. }
  now rewrite E.
Qed.

Lemma ids_rows q v q' r :
  Q.entity q = q_zero q ->
  Q.ids q v = Ok q' ->
  In r (Q.rows q') -> ids_match v r.
Proof.
  intros He H Hr. unfold Q.rows in Hr. apply in_map_iff in Hr as (t & <- & Ht).
  destruct v as [s|l]; simpl in *.
  - apply (filter_tuples _ _ _ H) in Ht as [_ Ht].
    unfold Q.col_node_id in Ht. rewrite He, row_of_zero in Ht.
    unfold Sql.eq_text in Ht. cbn [option_map] in Ht.
    injection Ht as Heq. apply String.eqb_eq in Heq. exact Heq.
  - apply (filter_tuples _ _ _ H) in Ht as [_ Ht].
    unfold Q.col_node_id in Ht. rewrite He, row_of_zero in Ht.
    unfold Sql.in_params in Ht. cbn [option_map] in Ht.
    destruct (existsb _ (map Q.bind_param l)) eqn:E.
    + apply existsb_exists in E as (p & Hp & Ep).
      destruct p as [s|]; [|discriminate Ep]. apply String.eqb_eq in Ep. now subst.
    + case_if Ht; discriminate Ht.
Qed.

(** C10.  When the argument bundle holds both [id] and [ids], every row
    that [apply_query_args] returns passes both id filters: its id is the
    one (or one of those) given as [id] and one of those given as [ids].
    So when no row can pass both, nothing is returned. *)
Theorem id_and_ids_are_conjoined w q args v1 v2 q' :
  Q.entity q = q_zero q ->
  lookup "id" args = Some (AVal v1) ->
  lookup "ids" args = Some (AVal v2) ->
  apply_query_args w q args = Ok q' ->
  (forall r, In r (Q.all q') -> ids_match v1 r /\ ids_match v2 r) /\
  ((forall r, ~ (ids_match v1 r /\ ids_match v2 r)) -> Q.all q' = []).
Proof.
  intros He H1 H2 H.
  assert (Hall : forall r, In r (Q.all q') -> ids_match v1 r /\ ids_match v2 r).
  { unfold apply_query_args in H. inv_bind H.
    assert (Hs : q_zero x = q_zero q /\ Q.entity x = Q.entity q).
    { eapply foldM_ind
        with (P := fun b => q_zero b = q_zero q /\ Q.entity b = Q.entity q);
        [exact Hx | auto |].
      intros b a b' [Hz Hen] Hstep.
      apply apply_property_filter_shape in Hstep as [Hz' He']. split; congruence. }
    do 19 (let Hn := fresh "Hn" in
           apply bind_ok in H; destruct H as (? & Hn & H)).
    assert (Hq : narrows x4 x3).
    { destruct (lookup "quick_search" args).
      - eapply apply_arg_quicksearch_narrows; eauto.
      - inversion Hn3; subst. apply narrows_refl. }
    assert (Hlate : narrows q' x2).
    { do 18 (eapply narrows_trans; [solve [eauto with narrowing]|]).
      apply narrows_refl. }
    pose proof (apply_not_shape _ _ _ Hn) as [Hz0 He0].
    unfold apply_ids in Hn0, Hn1. rewrite H1 in Hn0. rewrite H2 in Hn1.
    assert (He1 : Q.entity x0 = q_zero x0) by (destruct Hs; congruence).
    assert (Hsh1 : q_zero x1 = q_zero x0 /\ Q.entity x1 = Q.entity x0).
    { destruct v1; apply filter_shape in Hn0; tauto. }
    assert (He2 : Q.entity x1 = q_zero x1) by (destruct Hsh1; congruence).
    intros r Hr. apply all_incl, Hlate in Hr. split.
    - eapply ids_rows; [exact He1 | exact Hn0 |].
      eapply ids_narrows; eauto.
    - eapply ids_rows; [exact He2 | exact Hn1 | exact Hr]. }
  split; [exact Hall|].
  intros Hdisj. destruct (Q.all q') as [|r l] eqn:E; auto.
  exfalso. apply (Hdisj r). apply Hall. now left.
Qed.

Lemma id_and_ids_are_conjoined_witness :
  exists q',
    apply_query_args Demo.world (Q.nodes Demo.world Demo.case_)
      [("id", Demo.str_arg "ffff"); ("ids", Demo.strs_arg ["ffff"; "c-3"])] = Ok q' /\
    Q.all q' = [Demo.case_ffff] /\
    forall r, In r (Q.all q') ->
              ids_match (VScalar (SStr "ffff")) r /\
              ids_match (VList (map SStr ["ffff"; "c-3"])) r.
Proof.
  eexists. split; [vm_compute; reflexivity|]. split; [vm_compute; reflexivity|].
  apply (id_and_ids_are_conjoined Demo.world (Q.nodes Demo.world Demo.case_)
           [("id", Demo.str_arg "ffff"); ("ids", Demo.strs_arg ["ffff"; "c-3"])]
           (v1 := VScalar (SStr "ffff")) (v2 := VList (map SStr ["ffff"; "c-3"])));
    [reflexivity | reflexivity | reflexivity | vm_compute; reflexivity].
Defined.

(** * Traversal filters and their negation *)

Lemma in_sql_rows_unlimited q r :
  Q.limited q = false -> In r (Q.rows q) -> In r (Q.sql_rows q).
Proof.
  unfold Q.limited, Q.sql_rows, Q.rows. intros Hl Hr.
  destruct (q_limit q), (q_offset q); try discriminate. cbn.
  apply in_map_iff in Hr as (t & <- & Ht). apply in_map. now apply in_sort.
Qed.

Lemma foldM_ok_ext {A B} (f g : B -> A -> result B) l :
  (forall b a b', f b a = Ok b' -> g b a = Ok b') ->
  forall b b', foldM f l b = Ok b' -> foldM g l b = Ok b'.
Proof.
  intros Hfg. induction l as [|a l IH]; simpl; intros b b' H; auto.
  inv_bind H. rewrite (Hfg _ _ _ Hx). simpl. auto.
Qed.

(** The name given to [with_path_to] only words its error messages. *)
Lemma with_path_to_entry_name w union n1 n2 st entry st' :
  with_path_to_entry w union n1 st entry = Ok st' ->
  with_path_to_entry w union n2 st entry = Ok st'.
Proof.
  unfold with_path_to_entry. destruct st as [q uq]. intros H.
  inv_bind H.
  assert (E : forall n,
             match lookup "type" entry with
             | Some v =>
                 if value_truthy v then Ok v
                 else Err (RuntimeError ("Please specify a {type: <type>} in the "
                                           ++ n ++ " filter."))
             | None => Err (RuntimeError ("Please specify a {type: <type>} in the "
                                            ++ n ++ " filter."))
             end = Ok x).
  { intros n. destruct (lookup "type" entry) as [v|]; [|discriminate].
    destruct (value_truthy v); [exact Hx | discriminate]. }
  rewrite E. cbn [bind].
  destruct (cls_eqb (Q.entity q) GrapheneNode); [discriminate | exact H].
Qed.

Lemma with_path_to_name w q value union n1 n2 q' :
  with_path_to w q value union n1 = Ok q' ->
  with_path_to w q value union n2 = Ok q'.
Proof.
  unfold with_path_to. intros H. do 2 inv_bind H.
  rewrite Hx. cbn [bind].
  pose proof (@foldM_ok_ext _ _ (with_path_to_entry w union n1)
                (with_path_to_entry w union n2) x
                (fun b a b' => @with_path_to_entry_name w union n1 n2 b a b')
                _ _ Hx0) as E.
  rewrite E. exact H.
Qed.

(** C4.  For a base query that carries no LIMIT or OFFSET (as every query
    has when [apply_query_args] reaches the traversal filters) and a
    traversal spec [X] that [with_path_to] accepts: [without_path_to(X)] is
    accepted too, the rows of either result are rows of the base query, and
    every row of the base query is in exactly one of the two results. *)
Theorem without_path_to_complements_with_path_to w q X args1 args2 qw :
  Q.limited q = false ->
  lookup "with_path_to" args1 = Some X ->
  lookup "without_path_to" args2 = Some X ->
  apply_with_path_to w q args1 = Ok qw ->
  exists qo,
    apply_without_path_to w q args2 = Ok qo /\
    qo = Q.except_ q qw /\
    forall r,
      (In r (Q.all qw) -> In r (Q.all q)) /\
      (In r (Q.all qo) -> In r (Q.all q)) /\
      (In r (Q.all q) -> In r (Q.all qw) \/ In r (Q.all qo)) /\
      ~ (In r (Q.all qw) /\ In r (Q.all qo)).
Proof.
  intros Hl H1 H2 Hw.
  unfold apply_with_path_to in Hw. rewrite H1 in Hw.
  exists (Q.except_ q qw). split; [|split; [reflexivity|]].
  - unfold apply_without_path_to. rewrite H2.
    now rewrite (@with_path_to_name _ _ _ _ _ "without_path_to" _ Hw).
  - intros r.
    assert (Ho : In r (Q.all (Q.except_ q qw))
                 <-> In r (Q.sql_rows q) /\ ~ In r (Q.sql_rows qw)).
    { rewrite in_all. unfold Q.except_ at 1. rewrite sql_rows_of_rows.
      rewrite <- except_rows. unfold Q.except_. now rewrite rows_of_rows. }
    repeat split.
    + intros Hr. apply in_all, in_sql_rows_unlimited; auto.
      apply (with_path_to_narrows _ _ _ _ _ Hw). now apply all_incl.
    + intros Hr. apply Ho in Hr as [Hr _]. now apply in_all.
    + intros Hr. apply in_all in Hr.
      destruct (Q.mem_row r (Q.sql_rows qw)) eqn:E.
      * left. apply in_all. now apply mem_row_In.
      * right. apply Ho. split; auto. intros Hin.
        apply mem_row_In in Hin. congruence.
    + intros [Hrw Hro]. apply Ho in Hro as [_ Hn]. apply Hn. now apply in_all.
Qed.

Lemma without_path_to_complements_with_path_to_witness :
  exists qw qo,
    apply_with_path_to Demo.world (Q.nodes Demo.world Demo.case_)
      [("with_path_to", ADicts [[("type", VScalar (SStr "project"));
                                 ("code", VScalar (SStr "A"))]])] = Ok qw /\
    Q.all qw = [Demo.case_ab12; Demo.case_ffff] /\
    apply_without_path_to Demo.world (Q.nodes Demo.world Demo.case_)
      [("without_path_to", ADicts [[("type", VScalar (SStr "project"));
                                    ("code", VScalar (SStr "A"))]])] = Ok qo /\
    Q.all qo = [Demo.case_b] /\
    qo = Q.except_ (Q.nodes Demo.world Demo.case_) qw /\
    forall r,
      (In r (Q.all qw) -> In r (Q.all (Q.nodes Demo.world Demo.case_))) /\
      (In r (Q.all qo) -> In r (Q.all (Q.nodes Demo.world Demo.case_))) /\
      (In r (Q.all (Q.nodes Demo.world Demo.case_)) -> In r (Q.all qw) \/ In r (Q.all qo)) /\
      ~ (In r (Q.all qw) /\ In r (Q.all qo)).
Proof.
  assert (Hw : apply_with_path_to Demo.world (Q.nodes Demo.world Demo.case_)
                 [("with_path_to", ADicts [[("type", VScalar (SStr "project"));
                                            ("code", VScalar (SStr "A"))]])]
               = Ok (Q.of_rows Demo.case_ [Demo.case_ab12; Demo.case_ffff]))
    by (vm_compute; reflexivity).
  destruct (@without_path_to_complements_with_path_to Demo.world
              (Q.nodes Demo.world Demo.case_)
              (ADicts [[("type", VScalar (SStr "project")); ("code", VScalar (SStr "A"))]])
              [("with_path_to", ADicts [[("type", VScalar (SStr "project"));
                                         ("code", VScalar (SStr "A"))]])]
              [("without_path_to", ADicts [[("type", VScalar (SStr "project"));
                                            ("code", VScalar (SStr "A"))]])]
              (Q.of_rows Demo.case_ [Demo.case_ab12; Demo.case_ffff])
              eq_refl eq_refl eq_refl Hw)
    as (qo & Ho & Eo & Hpart).
  exists (Q.of_rows Demo.case_ [Demo.case_ab12; Demo.case_ffff]), qo.
  split; [exact Hw|]. split; [vm_compute; reflexivity|].
  split; [exact Ho|]. split; [subst qo; vm_compute; reflexivity|].
  split; [exact Eo | exact Hpart].
Defined.

(** * The authorized query of the project type *)

Lemma foldM_ind_in {A B} (P : B -> Prop) (f : B -> A -> result B) l : forall b b',
  foldM f l b = Ok b' ->
  P b ->
  (forall b a b', In a l -> P b -> f b a = Ok b' -> P b') ->
  P b'.
Proof.
  induction l as [|a l IH]; simpl; intros b b' H Hb Hf.
  - now inversion H; subst.
  - inv_bind H. eapply IH; [exact H | eapply Hf; eauto | eauto].
Qed.

Lemma join_step_tuples w zero from st ts t' :
  In t' (Q.join_step w zero from st ts) ->
  exists t r g,
    In t ts /\ Q.row_of zero from t = Some r /\
    In g (Q.related w r (fst st) (snd st)) /\
    t' = mkTuple (t_zero t) (t_joined t ++ [(snd st, g)]).
Proof.
  unfold Q.join_step. intros H. apply in_flat_map in H as (t & Ht & H).
  destruct (Q.row_of zero from t) as [r|] eqn:E; [|contradiction].
  apply in_map_iff in H as (g & <- & Hg). exists t, r, g. auto.
Qed.

Lemma path_one_step w q name q' :
  Q.path w q [name] = Ok q' ->
  exists d,
    lookup name (pg_edges (schema w) (Q.entity q)) = Some d /\
    Q.entity q' = d /\ q_zero q' = q_zero q /\
    forall t', In t' (q_tuples q') ->
      exists t r g,
        In t (q_tuples q) /\ Q.row_of (q_zero q) (Q.entity q) t = Some r /\
        In g (Q.related w r name d) /\
        t' = mkTuple (t_zero t) (t_joined t ++ [(d, g)]).
Proof.
  unfold Q.path. intros H. inv_bind H. apply generative_ok in Hx as [-> _].
  inv_bind H. cbn [Q.resolve_path] in Hx.
  destruct (lookup name (pg_edges (schema w) (Q.entity q))) as [d|]; [|discriminate].
  cbn in Hx. inversion Hx; subst; clear Hx. cbn in H. inversion H; subst; clear H.
  exists d. cbn. repeat split; auto.
  intros t' Ht'. apply (join_step_tuples w (q_zero q) (Q.entity q) (name, d)) in Ht'.
  exact Ht'.
Qed.

Lemma last_joined_app c j g : Q.last_joined c (j ++ [(c, g)]) = Some g.
Proof.
  assert (E : cls_eqb c c = true).
  { destruct c; simpl; auto. apply String.eqb_refl. }
  induction j as [|[c' r] j IH]; simpl.
  - now rewrite E.
  - now rewrite IH.
Qed.

Lemma props_contains_str r key s :
  Sql.props_contains r key (VScalar (SStr s)) = Some true ->
  lookup key (props r) = Some (JStr s).
Proof.
  unfold Sql.props_contains.
  destruct (lookup key (props r)) as [[a|b|z|l|]|]; simpl; try discriminate.
  intros H. injection H as H. apply String.eqb_eq in H. now subst.
Qed.

Lemma filter_project_project_id_rows w q ids q' :
  lookup "programs" (pg_edges (schema w) Project) = Some Program ->
  Q.entity q = Project -> q_zero q = Project ->
  filter_project_project_id w q (VList (map SStr ids)) = Ok q' ->
  forall r, In r (Q.rows q') -> permitted_project w ids r.
Proof.
  intros Hschema He Hz H. unfold filter_project_project_id in H. cbn [as_list] in H.
  inv_bind H.
  assert (Hs : forall sq, In sq x -> forall r, In r (Q.rows sq) -> permitted_project w ids r).
  { eapply foldM_ind_in
      with (P := fun l => forall sq, In sq l ->
                          forall r, In r (Q.rows sq) -> permitted_project w ids r);
      [exact Hx | intros sq [] |].
    intros subqs a subqs' Ha IH Hstep sq Hsq r Hr.
    apply in_map_iff in Ha as (pid & <- & Hpid).
    destruct (Str.split_hyphen pid) as [[pn pc]|] eqn:Esplit.
    - do 3 inv_bind Hstep. inversion Hstep; subst; clear Hstep.
      apply in_app_iff in Hsq as [Hsq|[<-|[]]]; [eauto|].
      unfold Q.rows in Hr. apply in_map_iff in Hr as (t3 & <- & Ht3).
      unfold Q.props in Hx2, Hx0.
      apply (filter_tuples _ _ _ Hx2) in Ht3 as [Ht2 Hname].
      destruct (path_one_step _ _ _ Hx1) as (d & Hd & Hent & Hzero & Htup).
      destruct (filter_shape _ _ Hx0) as (Hz0 & He0 & _).
      rewrite He0, He, Hschema in Hd. injection Hd as Hd.
      rewrite <- Hd in Hent, Htup. clear Hd d.
      destruct (Htup _ Ht2) as (t & r1 & g & Ht & Hrow & Hg & ->).
      apply (filter_tuples _ _ _ Hx0) in Ht as [Ht Hcode].
      rewrite Hz0, He0, He, Hz, row_of_zero in Hrow. inversion Hrow; subst r1; clear Hrow.
      rewrite He, Hz, row_of_zero in Hcode.
      rewrite Hent, Hzero, Hz0, Hz in Hname.
      unfold Q.row_of in Hname. cbn [cls_eqb Program Project String.eqb Ascii.eqb Bool.eqb]
        in Hname. cbn in Hname.
      rewrite last_joined_app in Hname.
      exists pid, pn, pc, g. cbn [t_zero].
      repeat split; auto using props_contains_str.
    - inversion Hstep; subst. eauto. }
  destruct x as [|sq0 rest].
  - apply filter_false_empty in H. intros r Hr. unfold Q.rows in Hr.
    rewrite H in Hr. contradiction.
  - inversion H; subst; clear H. intros r Hr.
    apply select_from_union_all_rows in Hr as (sq & Hsq & Hr).
    apply (Hs sq Hsq). now apply sql_rows_incl.
Qed.

Lemma cls_eqb_refl c : cls_eqb c c = true.
Proof. destruct c; simpl; auto. apply String.eqb_refl. Qed.

Lemma authz_join_project fuel w q :
  Q.entity q = Project -> authz_join fuel w q = Ok (q, Project, None).
Proof.
  intros He. unfold authz_join. rewrite He.
  destruct (node_authz_entity w); reflexivity.
Qed.

Lemma authz_entry_project w sub q ands entry st' :
  authz_entry w Project sub (q, ands) entry = Ok st' -> fst st' = q.
Proof.
  unfold authz_entry. destruct entry as [key value].
  rewrite (cls_eqb_refl Project). cbn [negb]. rewrite andb_false_r, andb_false_l.
  cbn [bind]. intros H. inversion H. reflexivity.
Qed.

(** C2, as the code has it.  The authorized query of the project type
    returns only projects whose code, with the name of a program they are
    linked to, spells a composite id of [read_access_projects]; it tests no
    [state].  Leaving out the projects whose state is "closed" or "legacy"
    is what [active_project_filter] does, a filter of its own that the
    authorized query does not apply. *)
Theorem project_authorized_query_scope fuel w :
  (lookup "programs" (pg_edges (schema w) Project) = Some Program ->
   forall q', get_authorized_query fuel w Project = Ok q' ->
   forall r, In r (Q.all q') -> permitted_project w (read_access_projects w) r)
  /\
  (forall q q', Q.entity q = Project -> q_zero q = Project ->
   active_project_filter w q = Ok q' ->
   forall r, In r (Q.all q') ->
     Sql.astext r "state" <> Some "closed" /\ Sql.astext r "state" <> Some "legacy").
Proof.
  split.
  - intros Hschema q' H r Hr. apply all_incl in Hr.
    unfold get_authorized_query, authorization_filter in H.
    rewrite authz_join_project in H by reflexivity. cbn [bind] in H.
    inv_bind H. cbn [cls_label Project] in H. cbn [String.eqb Ascii.eqb Bool.eqb] in H.
    assert (Hx' : q_zero x = Project /\ Q.entity x = Project).
    { destruct (is_scoped w Project).
      - destruct (read_access_permissions w) as [|p perms] eqn:Ep.
        + apply filter_shape in Hx. cbn in Hx. tauto.
        + inv_bind Hx. destruct x0 as [q1 ands].
          assert (Hq1 : fst (q1, ands) = Q.nodes w Project).
          { eapply foldM_ind with (P := fun st : Query * list Pred => fst st = Q.nodes w Project);
              [exact Hx0 | reflexivity |].
            intros [qa aa] e st' Hqa Hs. simpl in Hqa. subst qa.
            now apply authz_entry_project in Hs. }
          cbn [fst] in Hq1. subst q1. destruct ands.
          * inversion Hx; subst. auto.
          * apply filter_shape in Hx. cbn in Hx. tauto.
      - inversion Hx; subst. auto. }
    destruct Hx' as [Hz He].
    eapply filter_project_project_id_rows; eauto.
  - intros q q' He Hz H r Hr. apply all_incl in Hr.
    unfold active_project_filter in H. rewrite He in H.
    cbn [cls_label Project String.eqb Ascii.eqb Bool.eqb] in H. cbn in H.
    inv_bind H. unfold Q.rows in Hr. apply in_map_iff in Hr as (t & <- & Ht).
    apply (filter_tuples _ _ _ H) in Ht as [Ht Hlegacy].
    apply (filter_tuples _ _ _ Hx) in Ht as [Ht Hclosed].
    unfold Q.astext in Hlegacy, Hclosed. rewrite Hz, row_of_zero in Hlegacy, Hclosed.
    unfold Sql.neq_text in *.
    destruct (Sql.astext (t_zero t) "state") as [v|]; [|discriminate].
    cbn in Hlegacy, Hclosed.
    split; intros E; injection E as E; subst v; discriminate.
Qed.

Lemma project_authorized_query_scope_witness :
  (exists q',
      get_authorized_query 5 Demo.world Project = Ok q' /\
      Q.all q' = [Demo.proj_open; Demo.proj_closed] /\
      forall r, In r (Q.all q') ->
                permitted_project Demo.world (read_access_projects Demo.world) r)
  /\
  (exists q',
      active_project_filter Demo.world (Q.nodes Demo.world Project) = Ok q' /\
      Q.all q' = [Demo.proj_open] /\
      forall r, In r (Q.all q') ->
                Sql.astext r "state" <> Some "closed" /\
                Sql.astext r "state" <> Some "legacy").
Proof.
  split.
  - eexists. split; [vm_compute; reflexivity|]. split; [vm_compute; reflexivity|].
    apply (proj1 (project_authorized_query_scope 5 Demo.world) eq_refl).
    vm_compute. reflexivity.
  - eexists. split; [vm_compute; reflexivity|]. split; [vm_compute; reflexivity|].
    apply (proj2 (project_authorized_query_scope 5 Demo.world)
             (Q.nodes Demo.world Project) _ eq_refl eq_refl).
    vm_compute. reflexivity.
Defined.

(** C2 as stated does not hold: the authorized query of the project type
    returns the project whose state is "closed", when the caller may read
    it. *)
Lemma authorized_project_query_keeps_closed_projects :
  exists q',
    get_authorized_query 5 Demo.world Project = Ok q' /\
    In Demo.proj_closed (Q.all q') /\
    Sql.astext Demo.proj_closed "state" = Some "closed".
Proof.
  eexists. split; [vm_compute; reflexivity|]. split; [|reflexivity].
  vm_compute. right. left. reflexivity.
Qed.

(** * The authorization filter on scoped types *)

Lemma and_true l : Sql.and_ l = Some true -> forall x, In x l -> x = Some true.
Proof.
  induction l as [|a l IH]; simpl; intros H x Hx; [contradiction|].
  destruct a as [[|]|], (Sql.and_ l) as [[|]|]; simpl in H; try discriminate.
  destruct Hx as [<-|Hx]; auto.
Qed.

Lemma or_true l : Sql.or_ l = Some true -> exists x, In x l /\ x = Some true.
Proof.
  induction l as [|a l IH]; simpl; intros H; [discriminate|].
  destruct a as [[|]|].
  - exists (Some true). auto.
  - destruct (Sql.or_ l) as [[|]|]; simpl in H; try discriminate.
    destruct (IH eq_refl) as (x & Hx & E). exists x. auto.
  - destruct (Sql.or_ l) as [[|]|]; simpl in H; try discriminate.
    destruct (IH eq_refl) as (x & Hx & E). exists x. auto.
Qed.

Lemma eq_text_true x s : Sql.eq_text x s = Some true -> x = Some s.
Proof.
  destruct x as [v|]; simpl; [|discriminate].
  intros H. injection H as H. apply String.eqb_eq in H. now subst.
Qed.

Lemma astext_zero q q2 c k t :
  q_zero q = q_zero q2 -> Q.astext q c k t = Q.astext q2 c k t.
Proof. unfold Q.astext. now intros ->. Qed.

Lemma path_shape w q names q' :
  Q.path w q names = Ok q' -> q_zero q' = q_zero q /\ Q.limited q' = false.
Proof. intros H. apply path_ok in H. tauto. Qed.

Lemma authz_join_shape fuel w q q0 a sub :
  Q.limited q = false ->
  authz_join fuel w q = Ok (q0, a, sub) ->
  q_zero q0 = q_zero q /\ Q.limited q0 = false /\ narrows q0 q.
Proof.
  intros Hl H. unfold authz_join in H.
  destruct (node_authz_entity w) as [leaf|];
    [|inversion H; subst; auto using narrows_refl].
  case_if H; [|inversion H; subst; auto using narrows_refl].
  inv_bind H. destruct x as [q1 c1].
  assert (H1 : q_zero q1 = q_zero q /\ Q.limited q1 = false /\ narrows q1 q).
  { case_if Hx; [|inversion Hx; subst; auto using narrows_refl].
    inv_bind Hx. destruct x as [nodeType dst]. inv_bind Hx. destruct x as [tmp path_tmp].
    case_if Hx; [|inversion Hx; subst; auto using narrows_refl].
    inv_bind Hx. inversion Hx; subst; clear Hx.
    apply path_ok in Hx2. tauto. }
  destruct H1 as (Hz1 & Hl1 & Hn1).
  case_if H; [|inversion H; subst; auto].
  inv_bind H. inversion H; subst; clear H.
  apply path_ok in Hx0 as (Hn & Hz & Hl0).
  unfold Q.limited in *. cbn. repeat split; try congruence.
  intros r Hr. apply Hn1, Hn. exact Hr.
Qed.

Lemma authz_entry_invariant w z a sub st entry st' :
  In entry (read_access_permissions w) ->
  authz_loop_invariant w z a st ->
  authz_entry w a sub st entry = Ok st' ->
  authz_loop_invariant w z a st'.
Proof.
  intros Hin (Hz & Hl & Hands) H. destruct st as [q ands]. cbn [fst snd] in *.
  unfold authz_entry in H. destruct entry as [key value].
  inv_bind H. destruct x as [q1 filter_group]. inversion H; subst st'; clear H.
  assert (Hg : q_zero q1 = z /\ Q.limited q1 = false /\
               exists rest, filter_group
                            = (fun t => Sql.eq_text (Q.astext q a "project_id" t) key) :: rest).
  { case_if Hx; [|inversion Hx; subst; eauto].
    case_if Hx.
    - destruct sub as [sc|]; [|discriminate]. inversion Hx; subst. eauto.
    - case_if Hx; [|inversion Hx; subst; eauto].
      inv_bind Hx.
      destruct (lookup "subjects" (pg_backrefs (schema w) a)); [|discriminate].
      inversion Hx; subst; clear Hx.
      apply path_shape in Hx0 as [Hz0 Hl0]. unfold Q.limited in *. cbn.
      repeat split; eauto. }
  destruct Hg as (Hz1 & Hl1 & rest & ->).
  unfold authz_loop_invariant. cbn [fst snd]. repeat split; auto.
  intros p Hp t Ht. apply in_app_iff in Hp as [Hp|[<-|[]]]; [eauto|].
  apply and_true with (x := Sql.eq_text (Q.astext q a "project_id" t) key) in Ht;
    [|now left].
  apply eq_text_true in Ht. exists key. split.
  - unfold keys. apply in_map_iff. exists (key, value). auto.
  - unfold Q.astext in Ht. now rewrite Hz in Ht.
Qed.

Lemma authz_entry_grows w a sub st entry st' :
  authz_entry w a sub st entry = Ok st' -> snd st' <> [].
Proof.
  unfold authz_entry. destruct st as [q ands], entry as [key value].
  intros H. inv_bind H. destruct x as [q1 fg]. inversion H; subst. cbn [snd].
  destruct ands; discriminate.
Qed.

Lemma authz_loop_gathers w a sub p perms st q ands :
  foldM (authz_entry w a sub) (p :: perms) st = Ok (q, ands) -> ands <> [].
Proof.
  cbn [foldM]. intros H. inv_bind H.
  change ands with (snd (q, ands)).
  eapply foldM_ind with (P := fun st : Query * list Pred => snd st <> []);
    [exact H | eapply authz_entry_grows; eauto |].
  intros b e b' _ Hs. eapply authz_entry_grows; eauto.
Qed.

Lemma authz_entry_narrows w a sub st entry st' :
  authz_entry w a sub st entry = Ok st' -> narrows (fst st') (fst st).
Proof.
  unfold authz_entry. destruct st as [q ands], entry as [key value].
  intros H. inv_bind H. destruct x as [q1 fg]. inversion H; subst; clear H.
  cbn [fst].
  case_if Hx; [|inversion Hx; subst; apply narrows_refl].
  case_if Hx.
  - destruct sub as [sc|]; [|discriminate]. inversion Hx; subst. apply narrows_refl.
  - case_if Hx; [|inversion Hx; subst; apply narrows_refl].
    inv_bind Hx.
    destruct (lookup "subjects" (pg_backrefs (schema w) a)); [|discriminate].
    inversion Hx; subst; clear Hx.
    apply path_ok in Hx0 as (Hn & _). intros r Hr. apply Hn. exact Hr.
Qed.

Lemma authz_anchor_join fuel w cls a :
  authz_anchor fuel w cls = Ok a ->
  exists q0 sub, authz_join fuel w (Q.nodes w cls) = Ok (q0, a, sub).
Proof.
  unfold authz_anchor. intros H. inv_bind H. destruct x as [[q0 c] sub].
  inversion H; subst. eauto.
Qed.

Lemma authorized_tuples fuel w cls a q' :
  authz_anchor fuel w cls = Ok a ->
  is_scoped w a = true ->
  cls_label a <> "project" ->
  get_authorized_query fuel w cls = Ok q' ->
  q_zero q' = cls /\
  narrows q' (Q.nodes w cls) /\
  (read_access_permissions w = [] -> q_tuples q' = []) /\
  forall t, In t (q_tuples q') ->
    exists key, In key (keys (read_access_permissions w)) /\
                Q.astext q' a "project_id" t = Some key.
Proof.
  intros Ha Hscoped Hlabel H.
  destruct (authz_anchor_join _ _ _ Ha) as (q0 & sub & Hj).
  unfold get_authorized_query, authorization_filter in H.
  rewrite Hj in H. cbn [bind] in H. rewrite Hscoped in H.
  apply String.eqb_neq in Hlabel. rewrite Hlabel in H.
  inv_bind H. inversion H; subst x; clear H.
  destruct (authz_join_shape fuel w (Q.nodes w cls) eq_refl Hj) as (Hz0 & Hl0 & Hn0).
  cbn [Q.nodes Q.of_rows q_zero] in Hz0.
  destruct (read_access_permissions w) as [|p perms] eqn:Ep.
  - pose proof (filter_false_empty _ Hx) as He.
    destruct (filter_shape _ _ Hx) as (Hz & _ & _).
    repeat split; try congruence.
    + eapply narrows_trans; [eapply filter_narrows; eauto | exact Hn0].
    + intros t Ht. rewrite He in Ht. contradiction.
  - inv_bind Hx. destruct x as [q1 ands].
    assert (Hinv : authz_loop_invariant w cls a (q1, ands)).
    { eapply foldM_ind_in with (P := authz_loop_invariant w cls a);
        [exact Hx0 | |].
      - unfold authz_loop_invariant. cbn [fst snd]. repeat split; auto.
        intros p0 [].
      - intros b e b' Hin Hb Hs. eapply authz_entry_invariant; eauto.
        now rewrite Ep. }
    destruct Hinv as (Hz1 & Hl1 & Hands). cbn [fst snd] in *.
    assert (Hn1 : narrows (fst (q1, ands)) q0).
    { eapply foldM_ind with (P := fun st : Query * list Pred => narrows (fst st) q0);
        [exact Hx0 | apply narrows_refl |].
      intros b e b' Hb Hs. eapply narrows_trans; [|exact Hb].
      eapply authz_entry_narrows; eauto. }
    cbn [fst] in Hn1.
    destruct ands as [|p0 ands0].
    + exfalso. now apply (authz_loop_gathers _ _ _ _ _ _ Hx0).
    + destruct (filter_shape _ _ Hx) as (Hz & _ & _).
      repeat split; try congruence.
      * eapply narrows_trans; [eapply filter_narrows; eauto|].
        eapply narrows_trans; eauto.
      * intros t Ht. apply (filter_tuples _ _ _ Hx) in Ht as [_ Ht].
        apply or_true in Ht as (x & Hx1 & ->).
        apply in_map_iff in Hx1 as (p1 & Hp1 & Hin1).
        destruct (Hands p1 Hin1 t Hp1) as (key & Hk & Hkey).
        exists key. split; [now rewrite Ep in Hk|].
        unfold Q.astext. now rewrite Hz, Hz1.
Qed.

Lemma last_joined_snoc c j d g :
  Q.last_joined c (j ++ [(d, g)]) = if cls_eqb c d then Some g else Q.last_joined c j.
Proof.
  induction j as [|[c' r] j IH]; cbn [app Q.last_joined].
  - reflexivity.
  - rewrite IH. destruct (cls_eqb c d); reflexivity.
Qed.

Lemma reach_app w steps st : forall rs,
  Q.reach w (steps ++ [st]) rs
  = flat_map (fun r => Q.related w r (fst st) (snd st)) (Q.reach w steps rs).
Proof.
  induction steps as [|s0 steps IH]; intros rs; cbn [app Q.reach]; [reflexivity|].
  apply IH.
Qed.

Lemma last_cls_cons c n d rest : Q.last_cls c ((n, d) :: rest) = Q.last_cls d rest.
Proof.
  unfold Q.last_cls. cbn [map snd].
  generalize (map snd rest). intros l.
  destruct l as [|x l]; [reflexivity|].
  change (List.last (d :: x :: l) c) with (List.last (x :: l) c).
  revert x. induction l as [|y l IH]; intros x; [reflexivity|].
  change (List.last (x :: y :: l) c) with (List.last (y :: l) c).
  change (List.last (x :: y :: l) d) with (List.last (y :: l) d).
  apply IH.
Qed.

Lemma last_cls_app c steps name d : Q.last_cls c (steps ++ [(name, d)]) = d.
Proof. unfold Q.last_cls. rewrite map_app. cbn [map snd]. apply last_last. Qed.

Lemma resolve_path_app s names : forall c steps name d,
  Q.resolve_path s c names = Ok steps ->
  lookup name (pg_edges s (Q.last_cls c steps)) = Some d ->
  Q.resolve_path s c (names ++ [name]) = Ok (steps ++ [(name, d)])%list.
Proof.
  induction names as [|n names IH]; intros c steps name d H Hl; cbn [app Q.resolve_path] in *.
  - inversion H; subst. cbn in Hl. rewrite Hl. reflexivity.
  - destruct (lookup n (pg_edges s c)) as [d1|]; [|discriminate H].
    inv_bind H. inversion H; subst; clear H. rewrite last_cls_cons in Hl.
    rewrite (IH _ _ _ _ Hx Hl). reflexivity.
Qed.

Lemma reached_along_self w zero r : reached_along w zero r zero r.
Proof. exists [], []. repeat split. now left. Qed.

Lemma join_step_linked w zero from name d ts :
  lookup name (pg_edges (schema w) from) = Some d ->
  linked w zero ts ->
  linked w zero (Q.join_step w zero from (name, d) ts).
Proof.
  intros Hedge Hts t' c g Ht' Hrow.
  apply join_step_tuples in Ht' as (t & r & n & Ht & Hr & Hn & ->).
  cbn [fst snd] in *. unfold Q.row_of in Hrow. cbn [t_zero t_joined] in *.
  destruct (cls_eqb c zero) eqn:Ez.
  - apply (Hts t c g Ht). unfold Q.row_of. now rewrite Ez.
  - rewrite last_joined_snoc in Hrow. destruct (cls_eqb c d) eqn:Ed.
    + apply cls_eqb_eq in Ed. subst c. inversion Hrow; subst g.
      destruct (Hts t from r Ht Hr) as (names & steps & Hres & Hlast & Hreach).
      exists (names ++ [name])%list, (steps ++ [(name, d)])%list. split; [|split].
      * apply resolve_path_app; [exact Hres | now rewrite Hlast].
      * apply last_cls_app.
      * rewrite reach_app. apply in_flat_map. exists r. auto.
    + apply (Hts t c g Ht). unfold Q.row_of. now rewrite Ez.
Qed.

Lemma join_steps_linked w zero names : forall from steps ts,
  Q.resolve_path (schema w) from names = Ok steps ->
  linked w zero ts ->
  linked w zero (snd (Q.join_steps w zero from steps ts)).
Proof.
  induction names as [|n names IH]; intros from steps ts H Hts; cbn [Q.resolve_path] in H.
  - inversion H; subst. exact Hts.
  - destruct (lookup n (pg_edges (schema w) from)) as [d|] eqn:El; [|discriminate H].
    inv_bind H. inversion H; subst; clear H. cbn [Q.join_steps snd].
    apply (IH d x _ Hx). now apply join_step_linked.
Qed.

Lemma path_linked w q names q' :
  Q.path w q names = Ok q' ->
  linked w (q_zero q) (q_tuples q) -> linked w (q_zero q') (q_tuples q').
Proof.
  unfold Q.path. intros H Hq. inv_bind H. apply generative_ok in Hx as [-> _].
  inv_bind H.
  pose proof (@join_steps_linked w (q_zero q) names (Q.entity q) x (q_tuples q) Hx Hq)
    as Hl.
  destruct (Q.join_steps w (q_zero q) (Q.entity q) x (q_tuples q)) as [jp ts].
  inversion H; subst; clear H. exact Hl.
Qed.

Lemma filter_linked w q p q' :
  Q.filter q p = Ok q' ->
  linked w (q_zero q) (q_tuples q) -> linked w (q_zero q') (q_tuples q').
Proof.
  intros H Hq. apply filter_ok in H as [_ ->]. cbn [q_zero q_tuples].
  intros t c g Ht. apply filter_In in Ht as [Ht _]. now apply Hq.
Qed.

Lemma nodes_linked w cls : linked w cls (q_tuples (Q.nodes w cls)).
Proof.
  intros t c g Ht Hrow. unfold Q.nodes, Q.of_rows in Ht. cbn [q_tuples] in Ht.
  apply in_map_iff in Ht as (r & <- & _).
  unfold Q.row_of, Q.single in *. cbn [t_zero t_joined Q.last_joined] in *.
  destruct (cls_eqb c cls) eqn:E; [|discriminate Hrow].
  apply cls_eqb_eq in E. subst c. inversion Hrow; subst. apply reached_along_self.
Qed.

Lemma authz_join_linked fuel w q q0 a sub :
  authz_join fuel w q = Ok (q0, a, sub) ->
  linked w (q_zero q) (q_tuples q) ->
  linked w (q_zero q0) (q_tuples q0).
Proof.
  intros H Hq. unfold authz_join in H.
  destruct (node_authz_entity w) as [leaf|]; [|inversion H; subst; auto].
  case_if H; [|inversion H; subst; auto].
  inv_bind H. destruct x as [q1 c1].
  assert (H1 : linked w (q_zero q1) (q_tuples q1)).
  { case_if Hx; [|inversion Hx; subst; auto].
    inv_bind Hx. destruct x as [nodeType dst]. inv_bind Hx. destruct x as [tmp path_tmp].
    case_if Hx; [|inversion Hx; subst; auto].
    inv_bind Hx. inversion Hx; subst; clear Hx.
    eapply path_linked; eauto. }
  case_if H; [|inversion H; subst; auto].
  inv_bind H. inversion H; subst; clear H.
  cbn [Q.reset_joinpoint q_zero q_tuples]. eapply path_linked; eauto.
Qed.

Lemma authz_entry_linked w a sub st entry st' :
  authz_entry w a sub st entry = Ok st' ->
  linked w (q_zero (fst st)) (q_tuples (fst st)) ->
  linked w (q_zero (fst st')) (q_tuples (fst st')).
Proof.
  unfold authz_entry. destruct st as [q ands], entry as [key value].
  intros H Hq. inv_bind H. destruct x as [q1 fg]. inversion H; subst; clear H.
  cbn [fst] in *.
  case_if Hx; [|inversion Hx; subst; auto].
  case_if Hx.
  - destruct sub as [sc|]; [|discriminate]. inversion Hx; subst. auto.
  - case_if Hx; [|inversion Hx; subst; auto].
    inv_bind Hx.
    destruct (lookup "subjects" (pg_backrefs (schema w) a)); [|discriminate].
    inversion Hx; subst; clear Hx.
    cbn [Q.reset_joinpoint q_zero q_tuples]. eapply path_linked; eauto.
Qed.

(** The joins of the authorized query follow stored relationships: every
    row a tuple of it holds is reached from the tuple's own row. *)
Lemma authorized_linked fuel w cls a q' :
  authz_anchor fuel w cls = Ok a ->
  is_scoped w a = true ->
  cls_label a <> "project" ->
  get_authorized_query fuel w cls = Ok q' ->
  q_zero q' = cls /\ linked w cls (q_tuples q').
Proof.
  intros Ha Hscoped Hlabel H.
  destruct (authorized_tuples _ _ _ Ha Hscoped Hlabel H) as (Hz & _).
  split; [exact Hz|].
  destruct (authz_anchor_join _ _ _ Ha) as (q0 & sub & Hj).
  unfold get_authorized_query, authorization_filter in H.
  rewrite Hj in H. cbn [bind] in H. rewrite Hscoped in H.
  apply String.eqb_neq in Hlabel. rewrite Hlabel in H.
  inv_bind H. inversion H; subst x; clear H.
  pose proof (@authz_join_linked fuel w (Q.nodes w cls) q0 a sub Hj (nodes_linked w cls))
    as H0.
  rewrite <- Hz.
  destruct (read_access_permissions w) as [|p perms].
  - eapply filter_linked; eauto.
  - inv_bind Hx. destruct x as [q1 ands].
    assert (H1 : linked w (q_zero (fst (q1, ands))) (q_tuples (fst (q1, ands)))).
    { eapply foldM_ind
        with (P := fun st : Query * list Pred =>
                     linked w (q_zero (fst st)) (q_tuples (fst st)));
        [exact Hx0 | exact H0 |].
      intros b e b' Hb Hs. eapply authz_entry_linked; eauto. }
    cbn [fst] in H1. destruct ands; [inversion Hx; subst; exact H1|].
    eapply filter_linked; eauto.
Qed.

Lemma reach_mono w steps : forall rs rs',
  (forall x, In x rs -> In x rs') ->
  forall g, In g (Q.reach w steps rs) -> In g (Q.reach w steps rs').
Proof.
  induction steps as [|st steps IH]; intros rs rs' Hsub g Hg; cbn [Q.reach] in *.
  - auto.
  - eapply IH; [|exact Hg]. intros x Hx. apply in_flat_map in Hx as (r & Hr & Hx).
    apply in_flat_map. eauto.
Qed.

Lemma join_steps_fst w zero steps : forall from ts,
  fst (Q.join_steps w zero from steps ts) = Q.last_cls from steps.
Proof.
  induction steps as [|[n d] steps IH]; intros from ts; cbn [Q.join_steps];
    [reflexivity|].
  rewrite last_cls_cons. apply IH.
Qed.

(** Joins along a path none of whose classes is the class of the query:
    each tuple of the result holds, for the last class, a row that the
    path leads to from the row it started at. *)
Lemma join_steps_exact w zero steps :
  (forall st, In st steps -> cls_eqb (snd st) zero = false) ->
  forall from ts t',
    (forall t, In t ts -> exists r, Q.row_of zero from t = Some r) ->
    In t' (snd (Q.join_steps w zero from steps ts)) ->
    exists t r g,
      In t ts /\ Q.row_of zero from t = Some r /\ t_zero t' = t_zero t /\
      Q.row_of zero (Q.last_cls from steps) t' = Some g /\
      In g (Q.reach w steps [r]).
Proof.
  induction steps as [|[name d] steps IH]; intros Hcls from ts t' Hts Ht'.
  - cbn in Ht'. destruct (Hts t' Ht') as (r & Hr).
    exists t', r, r. split; [exact Ht'|]. split; [exact Hr|]. split; [reflexivity|].
    split; [exact Hr | now left].
  - cbn [Q.join_steps] in Ht'.
    assert (Hd : cls_eqb d zero = false) by (apply (Hcls (name, d)); now left).
    assert (Hrow1 : forall t1, In t1 (Q.join_step w zero from (name, d) ts) ->
              exists t r n,
                In t ts /\ Q.row_of zero from t = Some r /\
                In n (Q.related w r name d) /\ t_zero t1 = t_zero t /\
                Q.row_of zero d t1 = Some n).
    { intros t1 Ht1. apply join_step_tuples in Ht1 as (t & r & n & Ht & Hr & Hn & ->).
      exists t, r, n. cbn [fst snd t_zero] in *. repeat split; auto.
      unfold Q.row_of. cbn [t_joined]. rewrite Hd. apply last_joined_app. }
    cbn [snd] in Ht'.
    destruct (IH (fun st H => Hcls st (or_intror H)) d
                 (Q.join_step w zero from (name, d) ts) t')
      as (t1 & r1 & g & Ht1 & Hr1 & Hz & Hg & Hreach); [|exact Ht'|].
    + intros t1 Ht1. destruct (Hrow1 t1 Ht1) as (t & r & n & _ & _ & _ & _ & Hn). eauto.
    + destruct (Hrow1 t1 Ht1) as (t & r & n & Ht & Hr & Hn & Hz1 & Hrow).
      rewrite Hrow in Hr1. injection Hr1 as <-.
      exists t, r, g. rewrite last_cls_cons. repeat split; auto; [congruence|].
      cbn [Q.reach fst snd]. eapply reach_mono; [|exact Hreach].
      intros x [<-|[]]. cbn [flat_map]. apply in_or_app. now left.
Qed.

Lemma path_unfold w q names q' :
  Q.path w q names = Ok q' ->
  exists steps,
    Q.resolve_path (schema w) (Q.entity q) names = Ok steps /\
    Q.entity q' = Q.last_cls (Q.entity q) steps /\
    q_zero q' = q_zero q /\
    q_tuples q' = snd (Q.join_steps w (q_zero q) (Q.entity q) steps (q_tuples q)).
Proof.
  unfold Q.path. intros H. inv_bind H. apply generative_ok in Hx as [-> _].
  inv_bind H. exists x. split; [exact Hx|].
  pose proof (join_steps_fst w (q_zero q) x (Q.entity q) (q_tuples q)) as Hf.
  destruct (Q.join_steps w (q_zero q) (Q.entity q) x (q_tuples q)) as [jp ts].
  inversion H; subst; clear H. cbn in *. auto.
Qed.

Lemma authz_loop_keeps_query w leaf person :
  node_authz_entity w = Some leaf ->
  subject_entity w = Some person ->
  forall perms q ands st',
    foldM (authz_entry w leaf (Some person)) perms (q, ands) = Ok st' ->
    fst st' = q.
Proof.
  intros Hleaf Hsubj. induction perms as [|[key value] perms IH]; intros q ands st' H.
  - inversion H; subst. reflexivity.
  - cbn [foldM] in H. inv_bind H.
    assert (Hq : exists ands', x = (q, ands')).
    { unfold authz_entry in Hx. rewrite Hleaf, Hsubj in Hx. cbn [ocls_eqb] in Hx.
      rewrite !cls_eqb_refl in Hx. cbn [andb] in Hx.
      inv_bind Hx. destruct x0 as [q1 fg]. inversion Hx; subst; clear Hx.
      case_if Hx0; inversion Hx0; subst; eauto. }
    destruct Hq as (ands' & ->). eapply IH; eauto.
Qed.

(** The authorized query of a type below the authorization leaf, in a
    configuration where the persons of the leaf are the subject root: the
    anchor row of each row is reached along the chain of first links. *)
Lemma authorized_along_the_chain fuel w cls leaf person q' :
  node_authz_entity w = Some leaf ->
  subject_entity w = Some person ->
  lookup "persons" (pg_edges (schema w) leaf) = Some person ->
  cls_eqb leaf person = false ->
  cls_eqb cls leaf = false ->
  authz_anchor fuel w cls = Ok leaf ->
  is_scoped w leaf = true ->
  cls_label leaf <> "project" ->
  get_authorized_query fuel w cls = Ok q' ->
  exists nodeType dst path_tmp steps,
    first_link (schema w) cls = Ok (nodeType, dst) /\
    walk_up fuel (schema w) leaf dst [nodeType] = Ok (leaf, path_tmp) /\
    Q.resolve_path (schema w) cls path_tmp = Ok steps /\
    ((forall st, In st steps -> cls_eqb (snd st) cls = false) ->
     forall r, In r (Q.all q') ->
       exists g key,
         In g (Q.reach w steps [r]) /\
         In key (keys (read_access_permissions w)) /\
         Sql.astext g "project_id" = Some key).
Proof.
  intros Hleaf Hsubj Hlink Hperson Hne Ha Hscoped Hlabel H.
  destruct (authorized_tuples _ _ _ Ha Hscoped Hlabel H) as (Hz & _ & _ & Htup).
  destruct (authz_anchor_join _ _ _ Ha) as (q0 & sub & Hj).
  unfold get_authorized_query, authorization_filter in H.
  rewrite Hj in H. cbn [bind] in H. rewrite Hscoped in H.
  assert (Hlabel' := Hlabel). apply String.eqb_neq in Hlabel'. rewrite Hlabel' in H.
  inv_bind H. inversion H; subst x; clear H.
  (* the joins *)
  unfold authz_join in Hj. rewrite Hleaf in Hj.
  cbn [Q.entity Q.nodes Q.of_rows q_joinpoint] in Hj.
  case_if Hj; [|inversion Hj; subst; rewrite cls_eqb_refl in Hne; discriminate Hne].
  inv_bind Hj. destruct x as [q1 c1]. rewrite Hne in Hx0. cbn [negb] in Hx0.
  inv_bind Hx0. destruct x as [nodeType dst]. inv_bind Hx0. destruct x as [tmp path_tmp].
  destruct (cls_eqb tmp leaf) eqn:Etmp.
  2:{ inversion Hx0; subst; clear Hx0. rewrite Hne in Hj.
      inversion Hj; subst. rewrite cls_eqb_refl in Hne. discriminate Hne. }
  apply cls_eqb_eq in Etmp. subst tmp.
  inv_bind Hx0. inversion Hx0; subst q1 c1; clear Hx0.
  destruct (cls_eqb (Q.entity x) leaf) eqn:Eent.
  2:{ inversion Hj; subst. rewrite cls_eqb_refl in Eent. discriminate Eent. }
  apply cls_eqb_eq in Eent.
  inv_bind Hj. rewrite Eent in Hj. inversion Hj; subst q0 sub; clear Hj.
  destruct (path_unfold _ _ _ Hx3) as (steps & Hres & Hjp & Hz1 & Htuples1).
  cbn [Q.entity Q.nodes Q.of_rows q_joinpoint q_zero q_tuples] in Hres, Hjp, Hz1, Htuples1.
  destruct (path_one_step _ _ _ Hx0) as (d & Hd & Hent2 & Hz2 & Htuples2).
  rewrite Eent, Hlink in Hd. injection Hd as <-.
  exists nodeType, dst, path_tmp, steps. split; [exact Hx1|]. split; [exact Hx2|].
  split; [exact Hres|].
  intros Hcls r Hr.
  apply all_incl in Hr. unfold Q.rows in Hr. apply in_map_iff in Hr as (t & <- & Ht).
  destruct (Htup t Ht) as (key & Hkey & Hast).
  assert (Ht0 : In t (q_tuples x0)).
  { rewrite Hent2 in Hx. destruct (read_access_permissions w) as [|p perms].
    - apply filter_false_empty in Hx. rewrite Hx in Ht. contradiction.
    - inv_bind Hx. destruct x1 as [q1 ands].
      pose proof (@authz_loop_keeps_query w leaf person Hleaf Hsubj _ _ _ _ Hx4) as Hq1.
      cbn [fst] in Hq1. subst q1.
      destruct ands as [|p0 ands0].
      + inversion Hx; subst. exact Ht.
      + apply (filter_tuples _ _ _ Hx) in Ht as [Ht _]. exact Ht. }
  destruct (Htuples2 t Ht0) as (t1 & r1 & g1 & Ht1 & _ & _ & Et).
  rewrite Htuples1 in Ht1.
  destruct (@join_steps_exact w cls steps Hcls cls
              (map Q.single (filter (Q.is_instance cls) (db_nodes (db w)))) t1)
    as (t00 & r0 & g & Ht00 & Hr0 & Hzz & Hg & Hreach); [|exact Ht1|].
  { intros t2 _. exists (t_zero t2). apply row_of_zero. }
  rewrite row_of_zero in Hr0. injection Hr0 as <-.
  rewrite <- Hjp, Eent in Hg.
  assert (Hlc : cls_eqb leaf cls = false).
  { destruct (cls_eqb leaf cls) eqn:E; [|reflexivity].
    apply cls_eqb_eq in E. rewrite E, cls_eqb_refl in Hne. discriminate Hne. }
  assert (Hrow : Q.row_of cls leaf t = Some g).
  { subst t. unfold Q.row_of in *. cbn [t_joined]. rewrite Hlc in *.
    rewrite last_joined_snoc, Hperson. exact Hg. }
  unfold Q.astext in Hast. rewrite Hz, Hrow in Hast.
  exists g, key. split; [|split; assumption].
  subst t. cbn [t_zero]. rewrite Hzz. exact Hreach.
Qed.
Lemma authz_loop_total w a sub :
  node_authz_entity w = None ->
  forall perms q ands,
    exists ands', foldM (authz_entry w a sub) perms (q, ands) = Ok (q, ands').
Proof.
  intros Hnone. induction perms as [|[key value] perms IH]; intros q ands.
  - exists ands. reflexivity.
  - cbn [foldM]. unfold authz_entry at 1. rewrite Hnone.
    rewrite andb_false_r, !andb_false_l. cbn [bind]. apply IH.
Qed.

Lemma no_rows_no_result q : q_tuples q = [] -> Q.all q = [].
Proof.
  intros H. destruct (Q.all q) as [|r l] eqn:E; auto.
  assert (Hr : In r (Q.rows q)) by (apply all_incl; rewrite E; now left).
  unfold Q.rows in Hr. rewrite H in Hr. contradiction.
Qed.

(** C1, as the code has it.  The filter tests the [project_id] of the
    authorization anchor: the class of the query, or -- when an
    authorization leaf is configured and the chain of first links of the
    class leads to it -- the leaf, joined along that chain.  When the
    anchor carries [project_id] (or is the Node supertype) and is not the
    project type, every row of the authorized query is joined, along
    relationship attributes that start at its class, to an anchor row
    whose [project_id] is a key of the permission map; when the anchor is
    the class itself the anchor row is the row and this is the row's own
    [project_id].  With an empty map the query has no rows, whatever
    filters are applied afterwards.
    Below the leaf, where the persons of the leaf are the subject root,
    the anchor row is the leaf row that the chain of first links leads to
    from the row, provided the chain does not come back to the class of
    the query.
    With no authorization leaf configured the anchor is the class itself
    and the query is always produced. *)
Theorem authorized_query_scope fuel w cls :
  (forall a q',
      authz_anchor fuel w cls = Ok a ->
      is_scoped w a = true ->
      cls_label a <> "project" ->
      get_authorized_query fuel w cls = Ok q' ->
      (forall t, In t (q_tuples q') ->
         exists g key,
           Q.row_of cls a t = Some g /\
           reached_along w cls (t_zero t) a g /\
           In key (keys (read_access_permissions w)) /\
           Sql.astext g "project_id" = Some key) /\
      (forall r, In r (Q.all q') ->
         exists g key,
           reached_along w cls r a g /\
           In key (keys (read_access_permissions w)) /\
           Sql.astext g "project_id" = Some key) /\
      (a = cls ->
       forall r, In r (Q.all q') ->
         exists key, In key (keys (read_access_permissions w)) /\
                     Sql.astext r "project_id" = Some key) /\
      (read_access_permissions w = [] ->
       Q.all q' = [] /\
       forall args q'', apply_query_args w q' args = Ok q'' -> Q.all q'' = []))
  /\
  (forall leaf person q',
      node_authz_entity w = Some leaf ->
      subject_entity w = Some person ->
      lookup "persons" (pg_edges (schema w) leaf) = Some person ->
      cls_eqb leaf person = false ->
      cls_eqb cls leaf = false ->
      authz_anchor fuel w cls = Ok leaf ->
      is_scoped w leaf = true ->
      cls_label leaf <> "project" ->
      get_authorized_query fuel w cls = Ok q' ->
      exists nodeType dst path_tmp steps,
        first_link (schema w) cls = Ok (nodeType, dst) /\
        walk_up fuel (schema w) leaf dst [nodeType] = Ok (leaf, path_tmp) /\
        Q.resolve_path (schema w) cls path_tmp = Ok steps /\
        ((forall st, In st steps -> cls_eqb (snd st) cls = false) ->
         forall r, In r (Q.all q') ->
           exists g key,
             In g (Q.reach w steps [r]) /\
             In key (keys (read_access_permissions w)) /\
             Sql.astext g "project_id" = Some key))
  /\
  (node_authz_entity w = None ->
   cls_label cls <> "project" ->
   authz_anchor fuel w cls = Ok cls /\
   exists q', get_authorized_query fuel w cls = Ok q').
Proof.
  split; [|split].
  - intros a q' Ha Hscoped Hlabel H.
    destruct (authorized_tuples _ _ _ Ha Hscoped Hlabel H) as (Hz & Hn & Hempty & Htup).
    destruct (authorized_linked _ _ _ Ha Hscoped Hlabel H) as (_ & Hlinked).
    assert (Hanchor : forall t, In t (q_tuples q') ->
              exists g key,
                Q.row_of cls a t = Some g /\
                reached_along w cls (t_zero t) a g /\
                In key (keys (read_access_permissions w)) /\
                Sql.astext g "project_id" = Some key).
    { intros t Ht. destruct (Htup t Ht) as (key & Hk & Hkey).
      unfold Q.astext in Hkey. rewrite Hz in Hkey.
      destruct (Q.row_of cls a t) as [g|] eqn:Hrow; [|discriminate Hkey].
      exists g, key. repeat split; auto. }
    split; [exact Hanchor|]. split; [|split].
    + intros r Hr. apply all_incl in Hr. unfold Q.rows in Hr.
      apply in_map_iff in Hr as (t & <- & Ht).
      destruct (Hanchor t Ht) as (g & key & _ & Hreach & Hk & Hkey). eauto.
    + intros -> r Hr. apply all_incl in Hr. unfold Q.rows in Hr.
      apply in_map_iff in Hr as (t & <- & Ht).
      destruct (Htup t Ht) as (key & Hk & Hkey). exists key. split; auto.
      unfold Q.astext in Hkey. now rewrite Hz, row_of_zero in Hkey.
    + intros Hperms. specialize (Hempty Hperms). split.
      * now apply no_rows_no_result.
      * intros args q'' Hargs.
        destruct (Q.all q'') as [|r l] eqn:E; auto. exfalso.
        assert (Hr : In r (Q.rows q'')) by (apply all_incl; rewrite E; now left).
        apply (apply_query_args_narrows _ _ _ Hargs) in Hr.
        unfold Q.rows in Hr. rewrite Hempty in Hr. contradiction.
  - intros leaf person q'. apply authorized_along_the_chain.
  - intros Hnone Hlabel.
    assert (Hj : authz_join fuel w (Q.nodes w cls) = Ok (Q.nodes w cls, cls, None)).
    { unfold authz_join. now rewrite Hnone. }
    split.
    + unfold authz_anchor. now rewrite Hj.
    + unfold get_authorized_query, authorization_filter. rewrite Hj. cbn [bind].
      apply String.eqb_neq in Hlabel. rewrite Hlabel.
      destruct (is_scoped w cls); [|eexists; reflexivity].
      destruct (read_access_permissions w) as [|p perms].
      * eexists. reflexivity.
      * destruct (authz_loop_total w cls None Hnone (p :: perms) (Q.nodes w cls) [])
          as (ands & ->).
        cbn [bind]. destruct ands; eexists; reflexivity.
Qed.

Lemma authorized_query_scope_witness :
  (exists q',
      authz_anchor 5 Demo.world_authz Demo.sample = Ok Demo.subject /\
      get_authorized_query 5 Demo.world_authz Demo.sample = Ok q' /\
      Q.all q' = [Demo.sample1] /\
      (forall r, In r (Q.all q') ->
         exists g key,
           reached_along Demo.world_authz Demo.sample r Demo.subject g /\
           In key (keys (read_access_permissions Demo.world_authz)) /\
           Sql.astext g "project_id" = Some key) /\
      (forall r, In r (Q.all q') ->
         exists g key,
           In g (Q.reach Demo.world_authz [("subjects", Demo.subject)] [r]) /\
           In key (keys (read_access_permissions Demo.world_authz)) /\
           Sql.astext g "project_id" = Some key))
  /\
  (authz_anchor 5 Demo.world Demo.case_ = Ok Demo.case_ /\
   exists q', get_authorized_query 5 Demo.world Demo.case_ = Ok q').
Proof.
  split.
  - eexists. split; [vm_compute; reflexivity|].
    split; [vm_compute; reflexivity|]. split; [vm_compute; reflexivity|]. split.
    + apply (proj1 (authorized_query_scope 5 Demo.world_authz Demo.sample) Demo.subject).
      * vm_compute. reflexivity.
      * reflexivity.
      * simpl. discriminate.
      * vm_compute. reflexivity.
    + destruct (proj1 (proj2 (authorized_query_scope 5 Demo.world_authz Demo.sample))
                  Demo.subject Demo.person _
                  eq_refl eq_refl eq_refl eq_refl eq_refl eq_refl eq_refl
                  (fun E : cls_label Demo.subject = "project" =>
                     eq_ind "subject" (fun s => match s with
                                                | String "s" _ => True
                                                | _ => False
                                                end) I _ E)
                  eq_refl)
        as (nodeType & dst & path_tmp & steps & Hf & Hw & Hres & Hall).
      injection Hf as <- <-. injection Hw as <-. injection Hres as <-.
      apply Hall. intros st [<-|[]]. reflexivity.
  - apply (proj2 (proj2 (authorized_query_scope 5 Demo.world Demo.case_))).
    + reflexivity.
    + simpl. discriminate.
Defined.

(** C1 as stated does not hold: with the subject type as authorization
    leaf, the authorized query of the sample type returns a sample whose
    own [project_id], "prog-B", is not a key of the permission map; the
    subject it hangs on belongs to "prog-A", which is. *)
Lemma authorized_row_outside_permitted_scopes :
  has_attr (schema Demo.world_authz) Demo.sample "project_id" = true /\
  keys (read_access_permissions Demo.world_authz) = ["prog-A"] /\
  exists q',
    get_authorized_query 5 Demo.world_authz Demo.sample = Ok q' /\
    Q.all q' = [Demo.sample1] /\
    Sql.astext Demo.sample1 "project_id" = Some "prog-B" /\
    ~ In "prog-B" (keys (read_access_permissions Demo.world_authz)).
Proof.
  split; [reflexivity|]. split; [reflexivity|].
  eexists. split; [vm_compute; reflexivity|]. split; [vm_compute; reflexivity|].
  split; [reflexivity|]. simpl. intros [H|[]]. discriminate.
Qed.

(** * More on the authorization filter *)

Lemma or_true_intro l : In (Some true) l -> Sql.or_ l = Some true.
Proof.
  induction l as [|a l IH]; simpl; intros H; [contradiction|].
  destruct H as [->|H]; [reflexivity|].
  rewrite (IH H). destruct a as [[|]|]; reflexivity.
Qed.

Lemma or_true_iff l : Sql.or_ l = Some true <-> In (Some true) l.
Proof.
  split; [|apply or_true_intro].
  intros H. apply or_true in H as (x & Hx & ->). exact Hx.
Qed.

Lemma eq_text_true_iff x s : Sql.eq_text x s = Some true <-> x = Some s.
Proof.
  split; [apply eq_text_true|]. intros ->. simpl. now rewrite String.eqb_refl.
Qed.

(** The class gets no subject test: no authorization leaf is configured,
    or the class is neither the leaf nor the subject root. *)
Lemma authz_entry_project_only w a sub q ands key value :
  node_authz_entity w = None \/
  (ocls_eqb (Some a) (node_authz_entity w) = false /\
   ocls_eqb (Some a) (subject_entity w) = false) ->
  authz_entry w a sub (q, ands) (key, value)
  = Ok (q, (ands ++ [fun t => Sql.and_ [Sql.eq_text (Q.astext q a "project_id" t) key]])%list).
Proof.
  intros [Hnone|[Hleaf Hsubj]]; unfold authz_entry.
  - rewrite Hnone. now rewrite andb_false_r, !andb_false_l.
  - rewrite Hleaf, Hsubj. cbn [andb].
    destruct (negb (Str.mem "*" value)
              && match node_authz_entity w with Some _ => true | None => false end
              && negb (cls_eqb a Project) && negb (cls_eqb a Program)
              && (0 <? List.length value)%nat); reflexivity.
Qed.

Lemma authz_loop_project_only w a sub q :
  node_authz_entity w = None \/
  (ocls_eqb (Some a) (node_authz_entity w) = false /\
   ocls_eqb (Some a) (subject_entity w) = false) ->
  forall perms ands,
  exists ands',
    foldM (authz_entry w a sub) perms (q, ands) = Ok (q, ands') /\
    forall t,
      (exists p, In p ands' /\ p t = Some true) <->
      (exists p, In p ands /\ p t = Some true) \/
      (exists key, In key (keys perms) /\ Q.astext q a "project_id" t = Some key).
Proof.
  intros Hcfg. induction perms as [|[key value] perms IH]; intros ands.
  - exists ands. split; [reflexivity|]. intros t. split; [auto|].
    intros [H|(key & [] & _)]. exact H.
  - cbn [foldM]. rewrite authz_entry_project_only by assumption. cbn [bind].
    destruct (IH (ands ++ [fun t => Sql.and_ [Sql.eq_text (Q.astext q a "project_id" t) key]])%list)
      as (ands' & Hfold & Hiff).
    exists ands'. split; [exact Hfold|]. intros t. rewrite Hiff. clear Hiff Hfold.
    cbn [keys map fst]. split.
    + intros [(p & Hp & Ht)|(k & Hk & Ht)].
      * apply in_app_iff in Hp as [Hp|[<-|[]]]; [left; eauto|].
        right. exists key. split; [now left|].
        cbn in Ht. destruct (Sql.eq_text (Q.astext q a "project_id" t) key) as [[|]|] eqn:E;
          try discriminate. now apply eq_text_true in E.
      * right. exists k. split; [now right | exact Ht].
    + intros [(p & Hp & Ht)|(k & [<-|Hk] & Ht)].
      * left. exists p. split; [apply in_app_iff; now left | exact Ht].
      * left. eexists. split; [apply in_app_iff; right; now left|].
        cbn. apply eq_text_true_iff in Ht. now rewrite Ht.
      * right. eauto.
Qed.

Lemma rows_of_nodes w cls r :
  In r (Q.rows (Q.nodes w cls)) <-> In r (db_nodes (db w)) /\ Q.is_instance cls r = true.
Proof.
  unfold Q.nodes. rewrite rows_of_rows, filter_In. tauto.
Qed.

(** When [authorization_filter] joins nothing and the class is neither the
    authorization leaf nor the subject root, the authorized query holds
    exactly the rows of the class whose own [project_id] is a key of the
    permission map. *)
Lemma authorized_rows_by_project fuel w cls sub :
  authz_join fuel w (Q.nodes w cls) = Ok (Q.nodes w cls, cls, sub) ->
  node_authz_entity w = None \/
  (ocls_eqb (Some cls) (node_authz_entity w) = false /\
   ocls_eqb (Some cls) (subject_entity w) = false) ->
  is_scoped w cls = true ->
  cls_label cls <> "project" ->
  exists q',
    get_authorized_query fuel w cls = Ok q' /\
    forall r, In r (Q.all q') <->
              In r (db_nodes (db w)) /\ Q.is_instance cls r = true /\
              exists key, In key (keys (read_access_permissions w)) /\
                          Sql.astext r "project_id" = Some key.
Proof.
  intros Hj Hcfg Hscoped Hlabel.
  unfold get_authorized_query, authorization_filter. rewrite Hj. cbn [bind].
  rewrite Hscoped. apply String.eqb_neq in Hlabel. rewrite Hlabel.
  destruct (read_access_permissions w) as [|p perms] eqn:Ep.
  - eexists. split; [reflexivity|]. intros r. split.
    + intros Hr. apply all_incl in Hr. unfold Q.rows in Hr. cbn in Hr.
      exfalso. induction (filter (Q.is_instance cls) (db_nodes (db w))); auto.
    + intros (_ & _ & key & [] & _).
  - destruct (authz_loop_project_only w cls sub (Q.nodes w cls) Hcfg (p :: perms) [])
      as (ands & Hfold & Hiff).
    rewrite Hfold. cbn [bind].
    assert (Hne : ands <> []) by (eapply authz_loop_gathers; eauto).
    destruct ands as [|p0 ands0]; [contradiction|].
    eexists. split; [reflexivity|]. intros r.
    rewrite in_all, sql_rows_unlimited by reflexivity.
    unfold Q.rows. cbn [q_tuples Q.nodes Q.of_rows].
    rewrite in_map_iff. split.
    + intros (t & <- & Ht). apply filter_In in Ht as [Ht Hp].
      apply in_map_iff in Ht as (r & <- & Hr). apply filter_In in Hr as [Hr Hi].
      split; [exact Hr|]. split; [exact Hi|].
      assert (Ho : Sql.or_ (map (fun p1 : Pred => p1 (Q.single r)) (p0 :: ands0)) = Some true).
      { unfold Sql.holds in Hp. destruct (Sql.or_ _) as [[|]|]; congruence. }
      apply or_true_iff, in_map_iff in Ho as (p1 & Hp1 & Hin).
      destruct (proj1 (Hiff (Q.single r))) as [(p2 & [] & _)|(key & Hk & Hkey)]; [eauto|].
      exists key. split; [exact Hk|].
      unfold Q.astext in Hkey. cbn [q_zero Q.nodes Q.of_rows] in Hkey.
      now rewrite row_of_zero in Hkey.
    + intros (Hr & Hi & key & Hk & Hkey).
      exists (Q.single r). split; [reflexivity|]. apply filter_In. split.
      * apply in_map. apply filter_In. auto.
      * destruct (proj2 (Hiff (Q.single r))) as (p1 & Hp1 & Ht).
        { right. exists key. split; [exact Hk|].
          unfold Q.astext. cbn [q_zero Q.nodes Q.of_rows]. now rewrite row_of_zero. }
        assert (Ho : Sql.or_ (map (fun p2 : Pred => p2 (Q.single r)) (p0 :: ands0)) = Some true).
        { apply or_true_iff, in_map_iff. exists p1. auto. }
        cbv beta. unfold Sql.holds, Pred in *. now rewrite Ho.
Qed.

(** X1 (authorization_filter, get_authorized_query).
    With no authorization leaf configured, the authorized query of a type
    that carries [project_id] (or of the Node supertype) is always
    produced and holds exactly the rows of the type whose own [project_id]
    is a key of the permission map; which subjects an entry lists plays no
    part. *)
Theorem authorized_rows_without_leaf fuel w cls :
  node_authz_entity w = None ->
  is_scoped w cls = true ->
  cls_label cls <> "project" ->
  exists q',
    get_authorized_query fuel w cls = Ok q' /\
    forall r, In r (Q.all q') <->
              In r (db_nodes (db w)) /\ Q.is_instance cls r = true /\
              exists key, In key (keys (read_access_permissions w)) /\
                          Sql.astext r "project_id" = Some key.
Proof.
  intros Hnone Hscoped Hlabel.
  apply authorized_rows_by_project with (sub := None); auto.
  unfold authz_join. now rewrite Hnone.
Qed.

Lemma authorized_rows_without_leaf_witness :
  exists q',
    get_authorized_query 0 Demo.world Demo.case_ = Ok q' /\
    forall r, In r (Q.all q') <->
              In r (db_nodes (db Demo.world)) /\ Q.is_instance Demo.case_ r = true /\
              exists key, In key (keys (read_access_permissions Demo.world)) /\
                          Sql.astext r "project_id" = Some key.
Proof.
  apply (authorized_rows_without_leaf 0 Demo.world Demo.case_).
  - reflexivity.
  - reflexivity.
  - simpl. discriminate.
Defined.

(** X2 (authorization_filter, get_authorized_query).
    With an authorization leaf configured, a type that is neither the
    leaf nor the subject root and whose chain of first links ends at the
    program type without meeting the leaf is filtered by [project_id]
    alone: an entry of the permission map that lists subjects still grants
    every row of its project. *)
Theorem authorized_rows_off_the_leaf_chain fuel w cls leaf nodeType dst tmp path_tmp :
  node_authz_entity w = Some leaf ->
  cls_eqb cls leaf = false ->
  ocls_eqb (Some cls) (subject_entity w) = false ->
  cls_eqb cls Program = false ->
  first_link (schema w) cls = Ok (nodeType, dst) ->
  walk_up fuel (schema w) leaf dst [nodeType] = Ok (tmp, path_tmp) ->
  cls_eqb tmp leaf = false ->
  is_scoped w cls = true ->
  cls_label cls <> "project" ->
  exists q',
    get_authorized_query fuel w cls = Ok q' /\
    forall r, In r (Q.all q') <->
              In r (db_nodes (db w)) /\ Q.is_instance cls r = true /\
              exists key, In key (keys (read_access_permissions w)) /\
                          Sql.astext r "project_id" = Some key.
Proof.
  intros Hleaf Hne Hsubj Hprog Hfirst Hwalk Htmp Hscoped Hlabel.
  apply authorized_rows_by_project with (sub := None); auto.
  - unfold authz_join. rewrite Hleaf.
    cbn [Q.entity Q.nodes Q.of_rows q_joinpoint]. rewrite Hsubj, Hprog, Hne.
    assert (Hproj : cls_eqb cls Project = false).
    { destruct cls as [|l|]; try reflexivity. cbn [cls_eqb Project].
      apply String.eqb_neq. exact Hlabel. }
    rewrite Hproj. cbn [negb andb]. rewrite Hfirst. cbn [bind].
    rewrite Hwalk. cbn [bind]. rewrite Htmp. cbn [bind]. rewrite Hne. reflexivity.
  - right. rewrite Hleaf. cbn [ocls_eqb]. auto.
Qed.

Lemma authorized_rows_off_the_leaf_chain_witness :
  exists q',
    get_authorized_query 5 Demo.world_authz Demo.case_ = Ok q' /\
    forall r, In r (Q.all q') <->
              In r (db_nodes (db Demo.world_authz)) /\ Q.is_instance Demo.case_ r = true /\
              exists key, In key (keys (read_access_permissions Demo.world_authz)) /\
                          Sql.astext r "project_id" = Some key.
Proof.
  apply (authorized_rows_off_the_leaf_chain 5 Demo.world_authz Demo.case_
           (leaf := Demo.subject) (nodeType := "projects") (dst := Project)
           (tmp := Program) (path_tmp := ["projects"; "programs"]));
    try reflexivity.
  simpl. discriminate.
Defined.

(** X3 (authorization_filter).
    With an authorization leaf configured, authorizing a type that has no
    link at all -- the Node supertype is one -- and is not the leaf, the
    subject root, the project or the program type raises [IndexError]: no
    query is produced. *)
Theorem authorization_of_linkless_type_fails fuel w q leaf :
  node_authz_entity w = Some leaf ->
  cls_eqb (Q.entity q) leaf = false ->
  ocls_eqb (Some (Q.entity q)) (subject_entity w) = false ->
  cls_eqb (Q.entity q) Project = false ->
  cls_eqb (Q.entity q) Program = false ->
  pg_links (schema w) (Q.entity q) = [] ->
  authorization_filter fuel w q = Err IndexError.
Proof.
  intros Hleaf Hne Hsubj Hproj Hprog Hlinks.
  unfold authorization_filter, authz_join. rewrite Hleaf, Hproj, Hprog, Hsubj, Hne.
  cbn [negb andb]. unfold first_link. rewrite Hlinks. reflexivity.
Qed.

Lemma authorization_of_linkless_type_fails_witness :
  get_authorized_query 5 Demo.world_authz PsqlNode = Err IndexError.
Proof.
  apply (authorization_of_linkless_type_fails 5 Demo.world_authz
           (Q.nodes Demo.world_authz PsqlNode) (leaf := Demo.subject));
    reflexivity.
Defined.

Lemma and3_true a b : Sql.and3 a b = Some true -> a = Some true /\ b = Some true.
Proof. destruct a as [[|]|], b as [[|]|]; simpl; intros H; try discriminate; auto. Qed.

Lemma or3_true a b : Sql.or3 a b = Some true -> a = Some true \/ b = Some true.
Proof. destruct a as [[|]|], b as [[|]|]; simpl; intros H; try discriminate; auto. Qed.

Lemma in_text_true x l : Sql.in_text x l = Some true -> exists s, x = Some s /\ In s l.
Proof.
  destruct x as [v|]; simpl; [|discriminate]. intros H. injection H as H.
  unfold Str.mem in H. apply existsb_exists in H as (s & Hs & E).
  apply String.eqb_eq in E. subst. eauto.
Qed.

Lemma cls_eqb_sym a b : cls_eqb a b = cls_eqb b a.
Proof.
  destruct a, b; simpl; auto. apply String.eqb_sym.
Qed.

Lemma authz_entry_at_leaf w leaf person q ands key value st' :
  node_authz_entity w = Some leaf ->
  subject_entity w = Some person ->
  cls_eqb leaf Project = false ->
  cls_eqb leaf Program = false ->
  authz_entry w leaf (Some person) (q, ands) (key, value) = Ok st' ->
  exists p,
    st' = (q, (ands ++ [p])%list) /\
    forall t, p t = Some true ->
      Q.astext q leaf "project_id" t = Some key /\
      (grants_all value = true \/
       (exists s, In s value /\ Q.astext q leaf "submitter_id" t = Some s) \/
       (exists s, In s value /\ Q.astext q person "submitter_id" t = Some s)).
Proof.
  intros Hleaf Hsubj Hproj Hprog H. unfold authz_entry in H.
  rewrite Hleaf, Hsubj, Hproj, Hprog in H. cbn [ocls_eqb negb andb] in H.
  rewrite !cls_eqb_refl in H. cbn [andb] in H. rewrite !andb_true_r in H.
  destruct (negb (Str.mem "*" value) && (0 <? List.length value)%nat) eqn:Hrestricted;
    cbn [bind] in H; inversion H; subst; clear H; eexists; (split; [reflexivity|]);
    intros t Ht; cbv beta in Ht; cbn [Sql.and_ Sql.or_ map fold_right] in Ht.
  - apply and3_true in Ht as [H1 H2]. apply and3_true in H2 as [H2 _].
    apply eq_text_true in H1. split; [exact H1|]. right.
    apply or3_true in H2 as [Hx|Hx].
    + apply in_text_true in Hx as (s & E & Hs). left. eauto.
    + apply or3_true in Hx as [Hx|Hx]; [|discriminate].
      apply in_text_true in Hx as (s & E & Hs). right. eauto.
  - apply and3_true in Ht as [H1 _].
    apply eq_text_true in H1. split; [exact H1|]. left.
    unfold grants_all. apply andb_false_iff in Hrestricted as [E|E].
    + apply negb_false_iff in E. now rewrite E.
    + apply Nat.ltb_ge in E. assert (List.length value = 0%nat) as -> by lia.
      now rewrite orb_true_r.
Qed.

Lemma authz_loop_at_leaf w leaf person q :
  node_authz_entity w = Some leaf ->
  subject_entity w = Some person ->
  cls_eqb leaf Project = false ->
  cls_eqb leaf Program = false ->
  forall perms ands st',
    foldM (authz_entry w leaf (Some person)) perms (q, ands) = Ok st' ->
    fst st' = q /\
    forall p, In p (snd st') ->
      In p ands \/
      forall t, p t = Some true ->
        exists key value,
          In (key, value) perms /\
          Q.astext q leaf "project_id" t = Some key /\
          (grants_all value = true \/
           (exists s, In s value /\ Q.astext q leaf "submitter_id" t = Some s) \/
           (exists s, In s value /\ Q.astext q person "submitter_id" t = Some s)).
Proof.
  intros Hleaf Hsubj Hproj Hprog.
  induction perms as [|[key value] perms IH]; intros ands st' H.
  - inversion H; subst. cbn. auto.
  - cbn [foldM] in H. inv_bind H.
    destruct (@authz_entry_at_leaf _ _ _ _ _ _ _ _ Hleaf Hsubj Hproj Hprog Hx) as (p0 & -> & Hp0).
    destruct (IH _ _ H) as (Hq & Hands). split; [exact Hq|].
    intros p Hp. destruct (Hands p Hp) as [Hin|Hnew].
    + apply in_app_iff in Hin as [Hin|[<-|[]]]; [now left|].
      right. intros t Ht. exists key, value. split; [now left|]. now apply Hp0.
    + right. intros t Ht. destruct (Hnew t Ht) as (k & v & Hin & Hrest).
      exists k, v. split; [now right | exact Hrest].
Qed.

(** X4 (authorization_filter, get_authorized_query).
    At the authorization leaf itself, with the subject root one
    [persons] link away: every row of the authorized query is linked to a
    person, and some entry of the permission map has the row's
    [project_id] as key and either grants the whole project (it holds the
    wildcard, or lists nobody) or lists the [submitter_id] of the row or of
    that person. *)
Theorem authorized_rows_at_the_leaf fuel w leaf person q' :
  node_authz_entity w = Some leaf ->
  subject_entity w = Some person ->
  cls_eqb leaf Project = false ->
  cls_eqb leaf Program = false ->
  cls_eqb leaf person = false ->
  lookup "persons" (pg_edges (schema w) leaf) = Some person ->
  is_scoped w leaf = true ->
  get_authorized_query fuel w leaf = Ok q' ->
  forall r, In r (Q.all q') ->
    exists g key value,
      In g (Q.related w r "persons" person) /\
      In (key, value) (read_access_permissions w) /\
      Sql.astext r "project_id" = Some key /\
      (grants_all value = true \/
       (exists s, In s value /\ Sql.astext r "submitter_id" = Some s) \/
       (exists s, In s value /\ Sql.astext g "submitter_id" = Some s)).
Proof.
  intros Hleaf Hsubj Hproj Hprog Hperson Hlink Hscoped H r Hr.
  assert (Hlabel : String.eqb (cls_label leaf) "project" = false).
  { destruct leaf as [|l|]; try reflexivity. exact Hproj. }
  unfold get_authorized_query, authorization_filter in H.
  inv_bind H. destruct x as [[q0 a] sub].
  assert (Hj : a = leaf /\ sub = Some person /\ q_zero q0 = leaf /\
               forall t, In t (q_tuples q0) ->
                 exists g, In g (Q.related w (t_zero t) "persons" person) /\
                           t_joined t = [(person, g)]).
  { unfold authz_join in Hx. rewrite Hleaf, Hsubj in Hx.
    cbn [Q.entity Q.nodes Q.of_rows q_joinpoint ocls_eqb] in Hx.
    rewrite Hproj, Hprog, Hperson, cls_eqb_refl in Hx. cbn [negb andb bind] in Hx.
    rewrite cls_eqb_refl in Hx. inv_bind Hx.
    destruct (path_one_step _ _ _ Hx0) as (d & Hd & Hent & Hzero & Htup).
    cbn [Q.entity Q.nodes Q.of_rows q_joinpoint q_zero q_tuples] in Hd, Hzero, Htup.
    rewrite Hlink in Hd. injection Hd as Hd. subst d.
    inversion Hx; subst; clear Hx. repeat split; auto.
    intros t Ht. cbn [Q.reset_joinpoint q_tuples] in Ht.
    destruct (Htup t Ht) as (t0 & r0 & g & Ht0 & Hr0 & Hg & ->).
    apply in_map_iff in Ht0 as (r1 & <- & _). rewrite row_of_zero in Hr0.
    injection Hr0 as <-. exists g. cbn. auto. }
  destruct Hj as (-> & -> & Hz0 & Hshape).
  cbn [bind] in H. rewrite Hscoped, Hlabel in H. inv_bind H.
  inversion H; subst x; clear H.
  apply all_incl in Hr. unfold Q.rows in Hr. apply in_map_iff in Hr as (t & <- & Ht).
  destruct (read_access_permissions w) as [|p perms] eqn:Ep.
  - apply filter_false_empty in Hx0. rewrite Hx0 in Ht. contradiction.
  - inv_bind Hx0. destruct x as [q1 ands].
    destruct (@authz_loop_at_leaf _ _ _ _ Hleaf Hsubj Hproj Hprog _ _ _ Hx1) as (Hq1 & Hands).
    cbn [fst snd] in *. subst q1.
    destruct ands as [|p0 ands0]; [exfalso; eapply authz_loop_gathers; eauto|].
    apply (filter_tuples _ _ _ Hx0) in Ht as [Ht Hor].
    apply or_true in Hor as (x & Hx2 & ->). apply in_map_iff in Hx2 as (p1 & Hp1 & Hin1).
    destruct (Hands p1 Hin1) as [[]|Hnew].
    destruct (Hnew t Hp1) as (key & value & Hin & Hkey & Hsub).
    destruct (Hshape t Ht) as (g & Hg & Hjoined).
    unfold Q.astext in Hkey, Hsub. rewrite Hz0, row_of_zero in Hkey, Hsub.
    assert (Hrow : Q.row_of leaf person t = Some g).
    { unfold Q.row_of. rewrite cls_eqb_sym, Hperson, Hjoined. cbn.
      now rewrite cls_eqb_refl. }
    rewrite Hrow in Hsub.
    exists g, key, value. repeat split; auto.
Qed.

Lemma authorized_rows_at_the_leaf_witness :
  exists q',
    get_authorized_query 5 Demo.world_authz Demo.subject = Ok q' /\
    Q.all q' = [Demo.subject1] /\
    forall r, In r (Q.all q') ->
      exists g key value,
        In g (Q.related Demo.world_authz r "persons" Demo.person) /\
        In (key, value) (read_access_permissions Demo.world_authz) /\
        Sql.astext r "project_id" = Some key /\
        (grants_all value = true \/
         (exists s, In s value /\ Sql.astext r "submitter_id" = Some s) \/
         (exists s, In s value /\ Sql.astext g "submitter_id" = Some s)).
Proof.
  eexists. split; [vm_compute; reflexivity|]. split; [vm_compute; reflexivity|].
  apply (authorized_rows_at_the_leaf 5 Demo.world_authz (leaf := Demo.subject)
           (person := Demo.person)); try reflexivity.
Defined.

(** * The active-project filter *)

Lemma mem_In s l : Str.mem s l = true <-> In s l.
Proof.
  unfold Str.mem. rewrite existsb_exists. split.
  - intros (x & Hx & E). apply String.eqb_eq in E. now subst.
  - intros H. exists s. split; [exact H | apply String.eqb_refl].
Qed.

Lemma all_unlimited q r :
  Q.limited q = false -> (In r (Q.all q) <-> In r (Q.rows q)).
Proof.
  intros Hl. rewrite in_all. split; [apply sql_rows_incl|].
  now apply in_sql_rows_unlimited.
Qed.

Lemma filter_unlimited q p :
  Q.limited q = false -> exists q', Q.filter q p = Ok q' /\ Q.limited q' = false.
Proof.
  intros Hl. unfold Q.filter, Q.generative. rewrite Hl. cbn [bind].
  eexists. split; [reflexivity|]. exact Hl.
Qed.

(** A filter whose condition reads the entity row only keeps exactly the
    entity rows on which the condition is true. *)
Lemma filter_rows_iff q p f q' :
  (forall t, p t = f (t_zero t)) ->
  Q.filter q p = Ok q' ->
  forall r, In r (Q.rows q') <-> In r (Q.rows q) /\ f r = Some true.
Proof.
  intros Hp H r. unfold Q.rows. rewrite !in_map_iff. split.
  - intros (t & <- & Ht). apply (filter_tuples _ _ _ H) in Ht as [Ht Htrue].
    rewrite Hp in Htrue. split; [eauto | exact Htrue].
  - intros [(t & <- & Ht) Hf]. exists t. split; [reflexivity|].
    apply (filter_tuples _ _ _ H). split; [exact Ht|]. now rewrite Hp.
Qed.

Lemma astext_own q t key :
  Q.entity q = q_zero q -> Q.astext q (Q.entity q) key t = Sql.astext (t_zero t) key.
Proof. intros He. unfold Q.astext. now rewrite He, row_of_zero. Qed.

(** X5 (active_project_filter).
    On a query of the project type, [active_project_filter] keeps exactly
    the projects that have a [state] and whose state is neither "closed"
    nor "legacy"; a project without a state is left out as well. *)
Theorem active_project_filter_on_projects w q :
  Q.limited q = false ->
  Q.entity q = Project ->
  q_zero q = Project ->
  exists q',
    active_project_filter w q = Ok q' /\
    forall r, In r (Q.all q') <->
              In r (Q.all q) /\
              exists s, Sql.astext r "state" = Some s /\ s <> "closed" /\ s <> "legacy".
Proof.
  intros Hl He Hz. unfold active_project_filter. rewrite He.
  cbn [cls_label Project]. cbn [String.eqb Ascii.eqb Bool.eqb]. cbn [bind].
  destruct (filter_unlimited q
              (fun t => Sql.neq_text (Q.astext q Project "state" t) "closed") Hl)
    as (q1 & H1 & Hl1).
  rewrite H1. cbn [bind].
  destruct (filter_unlimited q1
              (fun t => Sql.neq_text (Q.astext q Project "state" t) "legacy") Hl1)
    as (q2 & H2 & Hl2).
  rewrite H2. exists q2. split; [reflexivity|]. intros r.
  rewrite !all_unlimited by assumption.
  assert (Hp : forall s t, Sql.neq_text (Q.astext q Project "state" t) s
                           = Sql.neq_text (Sql.astext (t_zero t) "state") s).
  { intros s t. unfold Q.astext. now rewrite Hz, row_of_zero. }
  rewrite (@filter_rows_iff _ _ (fun r => Sql.neq_text (Sql.astext r "state") "legacy")
             _ (Hp "legacy") H2).
  rewrite (@filter_rows_iff _ _ (fun r => Sql.neq_text (Sql.astext r "state") "closed")
             _ (Hp "closed") H1).
  unfold Sql.neq_text.
  destruct (Sql.astext r "state") as [s|]; cbn [option_map].
  - split.
    + intros [[Hr Hc] Hg]. split; [exact Hr|]. exists s. split; [reflexivity|].
      injection Hc as Hc. injection Hg as Hg.
      apply negb_true_iff, String.eqb_neq in Hc, Hg. auto.
    + intros (Hr & s' & E & Hc & Hg). injection E as <-.
      apply String.eqb_neq in Hc, Hg. now rewrite Hc, Hg.
  - split.
    + intros [[_ Hc] _]. discriminate.
    + intros (_ & s & E & _). discriminate.
Qed.

Lemma active_project_filter_on_projects_witness :
  exists q',
    active_project_filter Demo.world (Q.nodes Demo.world Project) = Ok q' /\
    forall r, In r (Q.all q') <->
              In r (Q.all (Q.nodes Demo.world Project)) /\
              exists s, Sql.astext r "state" = Some s /\ s <> "closed" /\ s <> "legacy".
Proof.
  apply (active_project_filter_on_projects Demo.world (Q.nodes Demo.world Project));
    reflexivity.
Defined.

(** X6 (active_project_filter, get_active_project_ids).
    On a query of any other type, [active_project_filter] needs the list
    of active project ids cached in the request: without it (or with an
    empty one) it raises [NameError], for [get_active_project_ids] names a
    class that [util.py] does not import.  With the list, a type that
    carries [project_id] is cut down to the rows whose [project_id] is in
    the list, and any other type is left as it is. *)
Theorem active_project_filter_on_other_types w q :
  cls_label (Q.entity q) <> "project" ->
  (cached_active_project_ids w = [] ->
   active_project_filter w q = Err (NameError "Project")) /\
  (cached_active_project_ids w <> [] ->
   is_scoped w (Q.entity q) = false ->
   active_project_filter w q = Ok q) /\
  (cached_active_project_ids w <> [] ->
   is_scoped w (Q.entity q) = true ->
   Q.limited q = false ->
   Q.entity q = q_zero q ->
   exists q',
     active_project_filter w q = Ok q' /\
     forall r, In r (Q.all q') <->
               In r (Q.all q) /\
               exists s, Sql.astext r "project_id" = Some s /\
                         In s (cached_active_project_ids w)).
Proof.
  intros Hlabel. apply String.eqb_neq in Hlabel.
  unfold active_project_filter. rewrite Hlabel. repeat split.
  - intros ->. reflexivity.
  - intros Hne Hs. destruct (cached_active_project_ids w); [contradiction|].
    cbn [bind]. now rewrite Hs.
  - intros Hne Hs Hl He.
    destruct (cached_active_project_ids w) as [|a l] eqn:Ec; [contradiction|].
    cbn [bind]. rewrite Hs.
    destruct (filter_unlimited q
                (fun t => Sql.in_text (Q.astext q (Q.entity q) "project_id" t) (a :: l)) Hl)
      as (q1 & H1 & Hl1).
    rewrite H1. exists q1. split; [reflexivity|]. intros r.
    rewrite !all_unlimited by assumption.
    rewrite (@filter_rows_iff _ _
               (fun r => Sql.in_text (Sql.astext r "project_id") (a :: l))
               _ (fun t => f_equal (fun x => Sql.in_text x (a :: l))
                             (@astext_own q t "project_id" He)) H1).
    split.
    + intros [Hr Hin]. split; [exact Hr|]. apply in_text_true in Hin as (s & E & Hs').
      eauto.
    + intros (Hr & s & E & Hs'). split; [exact Hr|]. rewrite E.
      unfold Sql.in_text. cbn [option_map]. f_equal. now apply mem_In.
Qed.

Lemma active_project_filter_on_other_types_witness :
  exists q',
    active_project_filter Demo.world (Q.nodes Demo.world Demo.case_) = Ok q' /\
    forall r, In r (Q.all q') <->
              In r (Q.all (Q.nodes Demo.world Demo.case_)) /\
              exists s, Sql.astext r "project_id" = Some s /\
                        In s (cached_active_project_ids Demo.world).
Proof.
  apply (active_project_filter_on_other_types Demo.world (Q.nodes Demo.world Demo.case_)).
  - simpl. discriminate.
  - simpl. discriminate.
  - reflexivity.
  - reflexivity.
  - reflexivity.
Defined.

(** * More on filtering projects by composite id *)

Lemma props_contains_str_iff r key s :
  Sql.props_contains r key (VScalar (SStr s)) = Some true <->
  lookup key (props r) = Some (JStr s).
Proof.
  split; [apply props_contains_str|].
  intros H. unfold Sql.props_contains. rewrite H. cbn. now rewrite String.eqb_refl.
Qed.

Lemma join_step_intro w zero from name d ts t r g :
  In t ts -> Q.row_of zero from t = Some r -> In g (Q.related w r name d) ->
  In (mkTuple (t_zero t) (t_joined t ++ [(d, g)])) (Q.join_step w zero from (name, d) ts).
Proof.
  intros Ht Hr Hg. unfold Q.join_step. apply in_flat_map. exists t. split; [exact Ht|].
  rewrite Hr. cbn [fst snd]. apply in_map_iff. exists g. auto.
Qed.

(** The subquery that [filter_project_project_id] builds for one composite
    id: it is always produced, and it returns the rows that carry the
    project code and are linked to a program of the given name. *)
Lemma project_subquery w q program_name project_code :
  lookup "programs" (pg_edges (schema w) Project) = Some Program ->
  Q.limited q = false -> Q.entity q = Project -> q_zero q = Project ->
  exists subq,
    (q1 <- Q.props q "code" (VScalar (SStr project_code)) ;;
     q2 <- Q.path w q1 ["programs"] ;;
     Q.props q2 "name" (VScalar (SStr program_name))) = Ok subq /\
    forall t g,
      In t (q_tuples q) ->
      lookup "code" (props (t_zero t)) = Some (JStr project_code) ->
      In g (Q.related w (t_zero t) "programs" Program) ->
      lookup "name" (props g) = Some (JStr program_name) ->
      In (t_zero t) (Q.sql_rows subq).
Proof.
  intros Hschema Hl He Hz.
  unfold Q.props at 1.
  destruct (filter_unlimited q
              (fun t => match Q.row_of (q_zero q) (Q.entity q) t with
                        | Some r => Sql.props_contains r "code" (VScalar (SStr project_code))
                        | None => None
                        end) Hl) as (q1 & H1 & Hl1).
  rewrite H1. cbn [bind].
  destruct (filter_shape _ _ H1) as (Hz1 & He1 & _).
  assert (H2 : Q.path w q1 ["programs"]
               = Ok (mkQuery (q_zero q1) Program
                       (Q.join_step w (q_zero q1) (Q.entity q1) ("programs", Program)
                          (q_tuples q1))
                       (q_order q1) (q_limit q1) (q_offset q1))).
  { unfold Q.path, Q.generative. rewrite Hl1. cbn [bind Q.resolve_path].
    rewrite He1, He, Hschema. reflexivity. }
  rewrite H2. cbn [bind].
  set (q2 := mkQuery _ _ _ _ _ _) in *.
  assert (Hl2 : Q.limited q2 = false) by exact Hl1.
  unfold Q.props.
  destruct (filter_unlimited q2
              (fun t => match Q.row_of (q_zero q2) (Q.entity q2) t with
                        | Some r => Sql.props_contains r "name" (VScalar (SStr program_name))
                        | None => None
                        end) Hl2) as (q3 & H3 & Hl3).
  exists q3. split; [exact H3|].
  intros t g Ht Hcode Hg Hname.
  apply in_sql_rows_unlimited; [exact Hl3|].
  unfold Q.rows. apply in_map_iff.
  exists (mkTuple (t_zero t) (t_joined t ++ [(Program, g)])). split; [reflexivity|].
  apply (filter_tuples _ _ _ H3). split.
  - subst q2. cbn [q_tuples]. apply join_step_intro with (r := t_zero t).
    + apply (filter_tuples _ _ _ H1). split; [exact Ht|].
      rewrite He, Hz, row_of_zero. now apply props_contains_str_iff.
    + rewrite Hz1, He1, He, Hz. apply row_of_zero.
    + exact Hg.
  - subst q2. cbn [q_zero Q.entity q_joinpoint]. rewrite Hz1, Hz.
    unfold Q.row_of. cbn [cls_eqb Program Project String.eqb Ascii.eqb Bool.eqb t_joined].
    cbn. rewrite last_joined_app. now apply props_contains_str_iff.
Qed.

#[local] Abbreviation project_step w q :=
  (fun subqs project_id =>
     match project_id with
     | SStr s =>
         match Str.split_hyphen s with
         | Some (program_name, project_code) =>
             q1 <- Q.props q "code" (VScalar (SStr project_code)) ;;
             q2 <- Q.path w q1 ["programs"] ;;
             subq <- Q.props q2 "name" (VScalar (SStr program_name)) ;;
             Ok (subqs ++ [subq])%list
         | None => Ok subqs
         end
     | _ => Err (AttributeError "split")
     end).

Lemma project_subqueries_complete w q :
  lookup "programs" (pg_edges (schema w) Project) = Some Program ->
  Q.limited q = false -> Q.entity q = Project -> q_zero q = Project ->
  forall ids acc,
  exists subqs,
    foldM (project_step w q) (map SStr ids) acc = Ok subqs /\
    (forall sq, In sq acc -> In sq subqs) /\
    forall pid program_name project_code,
      In pid ids ->
      Str.split_hyphen pid = Some (program_name, project_code) ->
      exists sq,
        In sq subqs /\
        forall t g,
          In t (q_tuples q) ->
          lookup "code" (props (t_zero t)) = Some (JStr project_code) ->
          In g (Q.related w (t_zero t) "programs" Program) ->
          lookup "name" (props g) = Some (JStr program_name) ->
          In (t_zero t) (Q.sql_rows sq).
Proof.
  intros Hschema Hl He Hz. induction ids as [|pid0 ids IH]; intros acc.
  - exists acc. split; [reflexivity|]. split; [auto|]. intros ? ? ? [].
  - cbn [map foldM].
    destruct (Str.split_hyphen pid0) as [[pn0 pc0]|] eqn:E0.
    + destruct (project_subquery w q pn0 pc0 Hschema Hl He Hz) as (sq0 & Hsq0 & Hrows0).
      do 2 inv_bind Hsq0. rewrite Hx. cbn [bind]. rewrite Hx0. cbn [bind].
      rewrite Hsq0. cbn [bind].
      destruct (IH (acc ++ [sq0])%list) as (subqs & Hfold & Hacc & Hall).
      exists subqs. split; [exact Hfold|]. split.
      * intros sq Hsq. apply Hacc. apply in_app_iff. now left.
      * intros pid pn pc [<-|Hin] Hsplit.
        -- rewrite E0 in Hsplit. injection Hsplit as <- <-.
           exists sq0. split; [apply Hacc, in_app_iff; right; now left | exact Hrows0].
        -- eapply Hall; eauto.
    + cbn [bind]. destruct (IH acc) as (subqs & Hfold & Hacc & Hall).
      exists subqs. split; [exact Hfold|]. split; [exact Hacc|].
      intros pid pn pc [<-|Hin] Hsplit; [congruence|]. eapply Hall; eauto.
Qed.

(** X7 (filter_project_project_id).
    For a query of the project type, the composite-id filter is always
    produced and keeps exactly the projects that carry the code, and are
    linked to a program carrying the name, of one of the given ids, an id
    being split at its first hyphen. *)
Theorem filter_project_project_id_exact w q ids :
  lookup "programs" (pg_edges (schema w) Project) = Some Program ->
  Q.limited q = false -> Q.entity q = Project -> q_zero q = Project ->
  exists q',
    filter_project_project_id w q (VList (map SStr ids)) = Ok q' /\
    forall r, In r (Q.all q') <-> In r (Q.all q) /\ permitted_project w ids r.
Proof.
  intros Hschema Hl He Hz.
  destruct (project_subqueries_complete w q Hschema Hl He Hz ids [])
    as (subqs & Hfold & _ & Hall).
  assert (Hq' : exists q', filter_project_project_id w q (VList (map SStr ids)) = Ok q'
                           /\ Q.limited q' = false
                           /\ forall sq r, In sq subqs -> In r (Q.sql_rows sq) -> In r (Q.rows q')).
  { unfold filter_project_project_id. cbn [as_list]. rewrite Hfold. cbn [bind].
    destruct subqs as [|sq0 rest].
    - destruct (filter_unlimited q Q.false_ Hl) as (q' & Hf & Hl').
      exists q'. repeat split; auto. intros sq r [].
    - eexists. split; [reflexivity|]. split; [reflexivity|].
      intros sq r Hsq Hr. apply select_from_union_all_rows. eauto. }
  destruct Hq' as (q' & Hq' & Hl' & Hin). exists q'. split; [exact Hq'|].
  intros r. rewrite !all_unlimited by assumption. split.
  - intros Hr. split.
    + eapply filter_project_project_id_narrows; eauto.
    + eapply filter_project_project_id_rows; eauto.
  - intros [Hr (pid & pn & pc & g & Hpid & Hsplit & Hcode & Hg & Hname)].
    unfold Q.rows in Hr. apply in_map_iff in Hr as (t & <- & Ht).
    destruct (Hall pid pn pc Hpid Hsplit) as (sq & Hsq & Hrows).
    eapply Hin; eauto.
Qed.

Lemma filter_project_project_id_exact_witness :
  exists q',
    filter_project_project_id Demo.world (Q.nodes Demo.world Project)
      (VList (map SStr ["prog-B"; "other"])) = Ok q' /\
    forall r, In r (Q.all q') <->
              In r (Q.all (Q.nodes Demo.world Project)) /\
              permitted_project Demo.world ["prog-B"; "other"] r.
Proof.
  apply (filter_project_project_id_exact Demo.world (Q.nodes Demo.world Project)
           ["prog-B"; "other"]); reflexivity.
Defined.

(** * More on the traversal filters *)

Lemma foldM_fails {A B} (f : B -> A -> result B) l a :
  In a l -> (forall b b', f b a <> Ok b') ->
  forall b b', foldM f l b <> Ok b'.
Proof.
  intros Hin Hf. induction l as [|x l IH]; [contradiction|].
  intros b b' H. cbn [foldM] in H. inv_bind H.
  destruct Hin as [->|Hin].
  - eapply Hf; eauto.
  - eapply IH; eauto.
Qed.

(** X8 (with_path_to).
    A traversal filter holding an entry without a target type -- the key
    [type] is missing, or its value is empty -- never yields a query: the
    filter raises. *)
Theorem with_path_to_needs_every_type w q entries entry union name :
  In entry entries ->
  match lookup "type" entry with
  | Some v => value_truthy v = false
  | None => True
  end ->
  forall q', with_path_to w q (ADicts entries) union name <> Ok q'.
Proof.
  intros Hin Htype q' H. unfold with_path_to in H. cbn [bind] in H. inv_bind H.
  revert Hx. apply foldM_fails with (a := entry); [exact Hin|].
  intros [qa ua] st' Hs. unfold with_path_to_entry in Hs.
  destruct (lookup "type" entry) as [v|].
  - rewrite Htype in Hs. discriminate.
  - discriminate.
Qed.

Lemma with_path_to_needs_every_type_witness :
  exists e,
    with_path_to Demo.world (Q.nodes Demo.world Demo.case_)
      (ADicts [[("type", VScalar (SStr "project"))]; [("code", VScalar (SStr "A"))]])
      false "with_path_to" = Err e.
Proof.
  destruct (with_path_to Demo.world (Q.nodes Demo.world Demo.case_)
              (ADicts [[("type", VScalar (SStr "project"))];
                       [("code", VScalar (SStr "A"))]])
              false "with_path_to") as [q'|e] eqn:E; [|exists e; reflexivity].
  exfalso.
  apply (@with_path_to_needs_every_type Demo.world (Q.nodes Demo.world Demo.case_)
           [[("type", VScalar (SStr "project"))]; [("code", VScalar (SStr "A"))]]
           [("code", VScalar (SStr "A"))] false "with_path_to"
           (or_intror (or_introl eq_refl)) I q' E).
Defined.

Lemma all_except_self q : Q.all (Q.except_ q q) = [].
Proof.
  destruct (Q.all (Q.except_ q q)) as [|r l] eqn:E; auto. exfalso.
  assert (Hr : In r (Q.rows (Q.except_ q q))) by (apply all_incl; rewrite E; now left).
  apply except_rows in Hr as [Hin Hout]. contradiction.
Qed.

(** X9 (with_path_to, apply_query_args).
    A traversal filter over no entry at all: [with_path_to] leaves the
    query as it is, [with_path_to_any] keeps no row, and [without_path_to]
    keeps no row either, since it takes away from the query all that
    [with_path_to] leaves of it. *)
Theorem traversal_filters_over_no_entry w q args :
  (lookup "with_path_to" args = Some (ADicts []) ->
   apply_with_path_to w q args = Ok q) /\
  (lookup "with_path_to_any" args = Some (ADicts []) ->
   Q.limited q = false ->
   exists q', apply_with_path_to_any w q args = Ok q' /\ Q.all q' = []) /\
  (lookup "without_path_to" args = Some (ADicts []) ->
   exists q', apply_without_path_to w q args = Ok q' /\ Q.all q' = []).
Proof.
  repeat split.
  - intros H. unfold apply_with_path_to. rewrite H. reflexivity.
  - intros H Hl. unfold apply_with_path_to_any. rewrite H.
    unfold with_path_to. cbn [bind foldM].
    destruct (filter_unlimited q Q.false_ Hl) as (q' & Hf & _).
    exists q'. split; [exact Hf|]. apply no_rows_no_result.
    eapply filter_false_empty; eauto.
  - intros H. unfold apply_without_path_to. rewrite H.
    unfold with_path_to. cbn [bind foldM].
    eexists. split; [reflexivity|]. apply all_except_self.
Qed.

Lemma traversal_filters_over_no_entry_witness :
  (exists q', apply_with_path_to_any Demo.world (Q.nodes Demo.world Demo.case_)
                [("with_path_to_any", ADicts [])] = Ok q' /\ Q.all q' = []) /\
  (exists q', apply_without_path_to Demo.world (Q.nodes Demo.world Demo.case_)
                [("without_path_to", ADicts [])] = Ok q' /\ Q.all q' = []).
Proof.
  split.
  - apply (traversal_filters_over_no_entry Demo.world (Q.nodes Demo.world Demo.case_)
             [("with_path_to_any", ADicts [])]); reflexivity.
  - apply (traversal_filters_over_no_entry Demo.world (Q.nodes Demo.world Demo.case_)
             [("without_path_to", ADicts [])]); reflexivity.
Defined.

Lemma foldM_app {A B} (f : B -> A -> result B) l1 l2 b :
  foldM f (l1 ++ l2) b = bind (foldM f l1 b) (fun b1 => foldM f l2 b1).
Proof.
  revert b. induction l1 as [|a l1 IH]; intros b; [reflexivity|].
  cbn [app foldM]. destruct (f b a) as [b1|e]; [|reflexivity]. cbn [bind]. apply IH.
Qed.

Lemma subq_path_shape w q names f q' :
  Q.subq_path w q names f = Ok q' -> Q.limited q' = false.
Proof.
  unfold Q.subq_path. intros H. do 2 inv_bind H. apply filter_shape in H. tauto.
Qed.

Lemma subq_paths_shape w q dst f q' :
  subq_paths w q dst f = Ok q' -> Q.limited q' = false.
Proof.
  unfold subq_paths. destruct (find_paths w (Q.entity q) dst); [|discriminate].
  intros H. inv_bind H. apply filter_shape in H. tauto.
Qed.

(** One round of the loop of [with_path_to]: the query it goes on with
    and the subquery it has built. *)
Lemma with_path_to_entry_inv w union name q uq entry st' :
  with_path_to_entry w union name (q, uq) entry = Ok st' ->
  exists q1 subq,
    (q1 = q \/ q1 = Q.limit q None) /\ Q.limited subq = false /\
    st' = (if union then (q1, (uq ++ [subq])%list) else (subq, uq)) /\
    forall uq2,
      with_path_to_entry w union name (q, uq2) entry
      = Ok (if union then (q1, (uq2 ++ [subq])%list) else (subq, uq2)).
Proof.
  unfold with_path_to_entry. intros H. inv_bind H. rewrite Hx. cbn [bind].
  destruct (cls_eqb (Q.entity q) GrapheneNode); [discriminate|].
  inv_bind H. destruct x0 as [q1 subq]. rewrite Hx0. cbn [bind].
  exists q1, subq.
  assert (Hs : (q1 = q \/ q1 = Q.limit q None) /\ Q.limited subq = false).
  { case_if Hx0; [|case_if Hx0]; try case_if Hx0;
      inv_bind Hx0; inversion Hx0; subst; split; auto.
    - eapply subq_path_shape; eauto.
    - apply filter_shape in Hx1. tauto.
    - eapply subq_path_shape; eauto.
    - apply filter_shape in Hx1. tauto.
    - eapply subq_paths_shape; eauto. }
  destruct Hs as [Hq1 Hl]. split; [exact Hq1|]. split; [exact Hl|].
  destruct union; inversion H; subst; auto.
Qed.

Lemma limit_none_unlimited q : Q.limited q = false -> Q.limit q None = q.
Proof.
  destruct q as [z j ts o l m]. unfold Q.limited, Q.limit. cbn.
  destruct l, m; intros H; try discriminate. reflexivity.
Qed.

(** X10 (with_path_to).
    With several entries, [with_path_to] keeps what it keeps with the
    first ones and narrows that further: each entry is applied to what the
    entries before it have left. *)
Theorem with_path_to_narrows_with_each_entry w q entries more name qb :
  Q.limited q = false ->
  with_path_to w q (ADicts (entries ++ more)) false name = Ok qb ->
  exists qa,
    with_path_to w q (ADicts entries) false name = Ok qa /\
    forall r, In r (Q.all qb) -> In r (Q.all qa).
Proof.
  intros Hl H. unfold with_path_to in *. cbn [bind] in *.
  rewrite foldM_app in H. inv_bind H. inv_bind Hx.
  destruct x0 as [qa ua]. rewrite Hx0. cbn [bind]. destruct x as [qb' ub].
  inversion H; subst qb'; clear H.
  exists qa. split; [reflexivity|].
  assert (Ha : Q.limited (fst (qa, ua)) = false /\ snd (qa, ua) = []).
  { eapply foldM_ind
      with (P := fun st : Query * list Query => Q.limited (fst st) = false /\ snd st = []);
      [exact Hx0 | auto |].
    intros [q1 u1] e st' [Hl1 Hu1] Hs. cbn [fst snd] in *. subst u1.
    apply with_path_to_entry_inv in Hs as (q2 & subq & _ & Hls & -> & _). auto. }
  destruct Ha as [Hla Hua]. cbn [fst snd] in *. subst ua.
  assert (Hn : narrows (fst (qb, ub)) qa /\ forall sq, In sq (snd (qb, ub)) -> narrows sq qa).
  { eapply foldM_ind
      with (P := fun st : Query * list Query =>
                   narrows (fst st) qa /\ forall sq, In sq (snd st) -> narrows sq qa);
      [exact Hx | split; [apply narrows_refl | intros sq []] |].
    intros st e st' [H1 H2] Hs. eapply with_path_to_entry_narrows; eauto. }
  destruct Hn as [Hn _]. cbn [fst] in Hn.
  intros r Hr. apply all_unlimited; [exact Hla|]. apply Hn. now apply all_incl.
Qed.

Lemma with_path_to_narrows_with_each_entry_witness :
  exists qa qb,
    with_path_to Demo.world (Q.nodes Demo.world Demo.case_)
      (ADicts ([[("type", VScalar (SStr "program"))]]
               ++ [[("type", VScalar (SStr "project")); ("code", VScalar (SStr "B"))]]))
      false "with_path_to" = Ok qb /\
    with_path_to Demo.world (Q.nodes Demo.world Demo.case_)
      (ADicts [[("type", VScalar (SStr "program"))]]) false "with_path_to" = Ok qa /\
    Q.all qa = [Demo.case_ab12; Demo.case_ffff; Demo.case_b] /\
    Q.all qb = [Demo.case_b] /\
    forall r, In r (Q.all qb) -> In r (Q.all qa).
Proof.
  assert (Hb : with_path_to Demo.world (Q.nodes Demo.world Demo.case_)
                 (ADicts ([[("type", VScalar (SStr "program"))]]
                          ++ [[("type", VScalar (SStr "project"));
                               ("code", VScalar (SStr "B"))]]))
                 false "with_path_to" = Ok (Q.of_rows Demo.case_ [Demo.case_b]))
    by (vm_compute; reflexivity).
  destruct (@with_path_to_narrows_with_each_entry Demo.world
              (Q.nodes Demo.world Demo.case_)
              [[("type", VScalar (SStr "program"))]]
              [[("type", VScalar (SStr "project")); ("code", VScalar (SStr "B"))]]
              "with_path_to" _ eq_refl Hb) as (qa & Ha & Hsub).
  exists qa, (Q.of_rows Demo.case_ [Demo.case_b]).
  split; [exact Hb|]. split; [exact Ha|].
  assert (Ea : Ok qa = Ok (Q.of_rows Demo.case_ [Demo.case_ab12; Demo.case_ffff; Demo.case_b]))
    by (rewrite <- Ha; vm_compute; reflexivity).
  injection Ea as ->.
  split; [vm_compute; reflexivity|]. split; [vm_compute; reflexivity | exact Hsub].
Defined.

Lemma all_union q o r :
  In r (Q.all (Q.union q o)) <-> In r (Q.all q) \/ In r (Q.all o).
Proof.
  rewrite !in_all. unfold Q.union. rewrite sql_rows_of_rows, in_unique, in_app_iff.
  tauto.
Qed.

Lemma fold_union_contains rest : forall q0 sq r,
  In sq (q0 :: rest) -> In r (Q.all sq) -> In r (Q.all (fold_left Q.union rest q0)).
Proof.
  induction rest as [|q1 rest IH]; intros q0 sq r Hin Hr.
  - destruct Hin as [<-|[]]. exact Hr.
  - cbn [fold_left]. destruct Hin as [<-|[<-|Hin]].
    + apply IH with (sq := Q.union q0 q1); [now left|]. apply all_union. now left.
    + apply IH with (sq := Q.union q0 q1); [now left|]. apply all_union. now right.
    + apply IH with (sq := sq); [now right | exact Hr].
Qed.

Lemma with_path_to_any_subqueries w name q :
  Q.limited q = false ->
  forall entries uq st',
    foldM (with_path_to_entry w true name) entries (q, uq) = Ok st' ->
    fst st' = q /\
    (forall sq, In sq uq -> In sq (snd st')) /\
    forall e, In e entries ->
      exists subq, In subq (snd st') /\
                   with_path_to_entry w true name (q, []) e = Ok (q, [subq]).
Proof.
  intros Hl. induction entries as [|e0 entries IH]; intros uq st' H.
  - inversion H; subst. cbn. repeat split; auto. intros e [].
  - cbn [foldM] in H. inv_bind H.
    apply with_path_to_entry_inv in Hx as (q1 & subq & Hq1 & _ & -> & Hany).
    assert (E : q1 = q).
    { destruct Hq1 as [->| ->]; [reflexivity | now apply limit_none_unlimited]. }
    subst q1. destruct (IH _ _ H) as (Hq & Hacc & Hall).
    split; [exact Hq|]. split.
    + intros sq Hsq. apply Hacc, in_app_iff. now left.
    + intros e [<-|Hin].
      * exists subq. split; [apply Hacc, in_app_iff; right; now left|].
        apply (Hany []).
      * apply Hall. exact Hin.
Qed.

(** X11 (with_path_to).
    [with_path_to_any] over several entries returns every row that it
    returns over any one of them alone. *)
Theorem with_path_to_any_widens_with_each_entry w q entries entry name qa :
  Q.limited q = false ->
  In entry entries ->
  with_path_to w q (ADicts entries) true name = Ok qa ->
  exists qe,
    with_path_to w q (ADict entry) true name = Ok qe /\
    forall r, In r (Q.all qe) -> In r (Q.all qa).
Proof.
  intros Hl Hin H. unfold with_path_to in *. cbn [bind] in *.
  inv_bind H. destruct x as [q1 subqs].
  destruct (@with_path_to_any_subqueries w name q Hl _ _ _ Hx) as (Hq1 & _ & Hall).
  cbn [fst snd] in *. subst q1.
  destruct (Hall entry Hin) as (subq & Hsub & Hone).
  cbn [foldM]. rewrite Hone. cbn [bind fold_left].
  exists subq. split; [reflexivity|].
  destruct subqs as [|q0 rest]; [contradiction|].
  inversion H; subst qa; clear H.
  intros r Hr. eapply fold_union_contains; eauto.
Qed.

Lemma with_path_to_any_widens_with_each_entry_witness :
  exists qe qa,
    with_path_to Demo.world (Q.nodes Demo.world Demo.case_)
      (ADicts [[("type", VScalar (SStr "project")); ("code", VScalar (SStr "A"))];
               [("type", VScalar (SStr "project")); ("code", VScalar (SStr "B"))]])
      true "with_path_to" = Ok qa /\
    with_path_to Demo.world (Q.nodes Demo.world Demo.case_)
      (ADict [("type", VScalar (SStr "project")); ("code", VScalar (SStr "B"))])
      true "with_path_to" = Ok qe /\
    Q.all qe = [Demo.case_b] /\
    Q.all qa = [Demo.case_ab12; Demo.case_ffff; Demo.case_b] /\
    forall r, In r (Q.all qe) -> In r (Q.all qa).
Proof.
  assert (Ha : with_path_to Demo.world (Q.nodes Demo.world Demo.case_)
                 (ADicts [[("type", VScalar (SStr "project")); ("code", VScalar (SStr "A"))];
                          [("type", VScalar (SStr "project")); ("code", VScalar (SStr "B"))]])
                 true "with_path_to"
               = Ok (Q.of_rows Demo.case_ [Demo.case_ab12; Demo.case_ffff; Demo.case_b]))
    by (vm_compute; reflexivity).
  destruct (@with_path_to_any_widens_with_each_entry Demo.world
              (Q.nodes Demo.world Demo.case_)
              [[("type", VScalar (SStr "project")); ("code", VScalar (SStr "A"))];
               [("type", VScalar (SStr "project")); ("code", VScalar (SStr "B"))]]
              [("type", VScalar (SStr "project")); ("code", VScalar (SStr "B"))]
              "with_path_to" _ eq_refl (or_intror (or_introl eq_refl)) Ha)
    as (qe & He & Hsub).
  exists qe, (Q.of_rows Demo.case_ [Demo.case_ab12; Demo.case_ffff; Demo.case_b]).
  split; [exact Ha|]. split; [exact He|].
  assert (Ee : Ok qe = Ok (Q.of_rows Demo.case_ [Demo.case_b]))
    by (rewrite <- He; vm_compute; reflexivity).
  injection Ee as ->.
  split; [vm_compute; reflexivity|]. split; [vm_compute; reflexivity | exact Hsub].
Defined.

(** * More on quick search *)









(** * More on [apply_query_args] *)

(** X13 (apply_query_args).
    Whatever the arguments, the rows of the compiled query are rows of the
    query the compiler is given: no argument widens it. *)
Theorem compiled_rows_within_base w q args q' :
  apply_query_args w q args = Ok q' ->
  forall r, In r (Q.all q') -> In r (Q.rows q).
Proof.
  intros H r Hr. apply (apply_query_args_narrows _ _ _ H). now apply all_incl.
Qed.

Lemma compiled_rows_within_base_witness :
  exists q',
    apply_query_args Demo.world (Q.nodes Demo.world Demo.case_)
      [("lost_to_followup", AVal (VList [SBool true]))] = Ok q' /\
    Q.all q' = [Demo.case_ab12] /\
    forall r, In r (Q.all q') -> In r (Q.rows (Q.nodes Demo.world Demo.case_)).
Proof.
  eexists. split; [vm_compute; reflexivity|]. split; [vm_compute; reflexivity|].
  apply (@compiled_rows_within_base Demo.world (Q.nodes Demo.world Demo.case_)
           [("lost_to_followup", AVal (VList [SBool true]))]).
  vm_compute. reflexivity.
Defined.

Lemma unique_length l : (List.length (Q.unique l) <= List.length l)%nat.
Proof.
  induction l as [|x l IH]; simpl; auto.
  pose proof (filter_length_le (fun y => negb (row_eqb x y)) (Q.unique l)). lia.
Qed.

Lemma limit_caps q k :
  q_limit q = Some k -> (List.length (Q.all q) <= Z.to_nat k)%nat.
Proof.
  intros Hk. unfold Q.all. etransitivity; [apply unique_length|].
  unfold Q.sql_rows. rewrite Hk, length_map. cbn [Q.take]. rewrite length_firstn. lia.
Qed.

(** X14 (apply_query_args, apply_arg_limit).
    The compiled query returns at most [first] rows when [first] is
    positive, and at most ten rows when [first] is not given. *)
Theorem compiled_rows_are_capped w q args first k q' :
  lookup "first" args = option_map Demo.int_arg first ->
  row_cap first = Some k ->
  apply_query_args w q args = Ok q' ->
  (List.length (Q.all q') <= Z.to_nat k)%nat.
Proof.
  intros Hf Hk H. unfold apply_query_args in H.
  do 20 (let Hn := fresh "Hn" in apply bind_ok in H; destruct H as (? & Hn & H)).
  apply limit_caps.
  assert (Hlim : q_limit x18 = Some k).
  { unfold apply_arg_limit in Hn18. rewrite Hf in Hn18. unfold row_cap in Hk.
    destruct first as [z|]; cbn [option_map Demo.int_arg as_int bind] in Hn18.
    - destruct (z >? 0)%Z; [|discriminate]. inversion Hn18; subst. exact Hk.
    - cbn in Hn18. inversion Hn18; subst. exact Hk. }
  unfold apply_arg_offset in H. inv_bind H.
  destruct (x19 >? 0)%Z; inversion H; subst; exact Hlim.
Qed.

Lemma compiled_rows_are_capped_witness :
  exists q',
    apply_query_args Demo.world (Q.nodes Demo.world Demo.case_)
      [("first", Demo.int_arg 2)] = Ok q' /\
    Q.all q' = [Demo.case_ab12; Demo.case_ffff] /\
    (List.length (Q.all q') <= Z.to_nat 2)%nat.
Proof.
  eexists. split; [vm_compute; reflexivity|]. split; [vm_compute; reflexivity|].
  apply (@compiled_rows_are_capped Demo.world (Q.nodes Demo.world Demo.case_)
           [("first", Demo.int_arg 2)] (Some 2%Z) 2%Z).
  - reflexivity.
  - reflexivity.
  - vm_compute. reflexivity.
Defined.

Lemma in_text_iff x l :
  Sql.in_text x l = Some true <-> exists s, x = Some s /\ In s l.
Proof.
  split; [apply in_text_true|]. intros (s & -> & Hs).
  unfold Sql.in_text. cbn [option_map]. f_equal. now apply mem_In.
Qed.

(** X15 (apply_query_args, property filters).
    Filtering by a property that is not list-typed keeps exactly the rows
    whose stored value, as text, is the text of one of the given values;
    for a boolean property the given values are put in lower case first,
    so [True] matches the stored "true".  A row that does not have the
    property is left out. *)
Theorem scalar_property_filter_rows w q key v ft :
  Q.limited q = false ->
  Q.entity q = q_zero q ->
  lookup key (pg_properties (schema w) (Q.entity q)) = Some ft ->
  ft <> TList ->
  exists q',
    apply_property_filter w q (key, AVal v) = Ok q' /\
    forall r, In r (Q.all q') <->
              In r (Q.all q) /\
              exists s x, Sql.astext r key = Some s /\ In x (as_list v) /\
                          s = match ft with
                              | TBool => py_lower w (py_str x)
                              | _ => py_str x
                              end.
Proof.
  intros Hl He Hft Hne. unfold apply_property_filter. rewrite Hft.
  cbn [prop_values bind].
  destruct ft; [contradiction| |].
  - destruct (filter_unlimited q
                (fun t => Sql.in_text (Q.astext q (Q.entity q) key t)
                                      (map (fun v0 => py_lower w (py_str v0)) (as_list v))) Hl)
      as (q' & Hf & Hl').
    exists q'. split; [exact Hf|]. intros r.
    rewrite !all_unlimited by assumption.
    rewrite (@filter_rows_iff _ _
               (fun r => Sql.in_text (Sql.astext r key)
                                     (map (fun v0 => py_lower w (py_str v0)) (as_list v)))
               _ (fun t => f_equal (fun x => Sql.in_text x _) (@astext_own q t key He)) Hf).
    rewrite in_text_iff. split.
    + intros [Hr (s & E & Hs)]. split; [exact Hr|].
      apply in_map_iff in Hs as (x & <- & Hx). eauto.
    + intros [Hr (s & x & E & Hx & ->)]. split; [exact Hr|].
      eexists. split; [exact E|]. apply in_map_iff. eauto.
  - destruct (filter_unlimited q
                (fun t => Sql.in_text (Q.astext q (Q.entity q) key t)
                                      (map py_str (as_list v))) Hl)
      as (q' & Hf & Hl').
    exists q'. split; [exact Hf|]. intros r.
    rewrite !all_unlimited by assumption.
    rewrite (@filter_rows_iff _ _
               (fun r => Sql.in_text (Sql.astext r key) (map py_str (as_list v)))
               _ (fun t => f_equal (fun x => Sql.in_text x _) (@astext_own q t key He)) Hf).
    rewrite in_text_iff. split.
    + intros [Hr (s & E & Hs)]. split; [exact Hr|].
      apply in_map_iff in Hs as (x & <- & Hx). eauto.
    + intros [Hr (s & x & E & Hx & ->)]. split; [exact Hr|].
      eexists. split; [exact E|]. apply in_map_iff. eauto.
Qed.

Lemma scalar_property_filter_rows_witness :
  exists q',
    apply_property_filter Demo.world (Q.nodes Demo.world Demo.case_)
      ("lost_to_followup", AVal (VList [SBool true])) = Ok q' /\
    forall r, In r (Q.all q') <->
              In r (Q.all (Q.nodes Demo.world Demo.case_)) /\
              exists s x, Sql.astext r "lost_to_followup" = Some s /\
                          In x (as_list (VList [SBool true])) /\
                          s = py_lower Demo.world (py_str x).
Proof.
  apply (@scalar_property_filter_rows Demo.world (Q.nodes Demo.world Demo.case_)
           "lost_to_followup" (VList [SBool true]) TBool); try reflexivity.
  discriminate.
Defined.

(** X16 (apply_query_args, the not filter).
    A [not] argument whose only exclusion map starts with the key of a
    property, with at least one value to exclude, keeps exactly the rows
    that have the property with a value whose text is none of the given
    ones: rows without the property are left out too, and any further key
    of the exclusion map is not looked at. *)
Theorem not_filter_rows w q args key v others ft :
  Q.limited q = false ->
  Q.entity q = q_zero q ->
  lookup "not" args = Some (ADicts [(key, v) :: others]) ->
  as_list v <> [] ->
  lookup key (pg_properties (schema w) (Q.entity q)) = Some ft ->
  exists q',
    apply_not w q args = Ok q' /\
    forall r, In r (Q.all q') <->
              In r (Q.all q) /\
              exists s, Sql.astext r key = Some s /\ ~ In s (map py_str (as_list v)).
Proof.
  intros Hl He Hargs _ Hft. unfold apply_not. rewrite Hargs.
  cbn [bind not_props_of keys map Str.mem existsb foldM]. rewrite Hft.
  destruct (filter_unlimited q
              (fun t => Sql.not3 (Sql.in_text (Q.astext q (Q.entity q) key t)
                                              (map py_str (as_list v)))) Hl)
    as (q' & Hf & Hl').
  rewrite Hf. cbn [bind]. exists q'. split; [reflexivity|]. intros r.
  rewrite !all_unlimited by assumption.
  rewrite (@filter_rows_iff _ _
             (fun r => Sql.not3 (Sql.in_text (Sql.astext r key) (map py_str (as_list v))))
             _ (fun t => f_equal (fun x => Sql.not3 (Sql.in_text x _))
                           (@astext_own q t key He)) Hf).
  unfold Sql.not3, Sql.in_text.
  destruct (Sql.astext r key) as [s|]; cbn [option_map].
  - split.
    + intros [Hr Hn]. split; [exact Hr|]. exists s. split; [reflexivity|].
      injection Hn as Hn. apply negb_true_iff in Hn. intros Hin.
      apply mem_In in Hin. congruence.
    + intros (Hr & s' & E & Hn). injection E as <-. split; [exact Hr|].
      f_equal. apply negb_true_iff.
      destruct (Str.mem s (map py_str (as_list v))) eqn:Em; [|reflexivity].
      apply mem_In in Em. contradiction.
  - split.
    + intros [_ Hn]. discriminate.
    + intros (_ & s & E & _). discriminate.
Qed.

Lemma not_filter_rows_witness :
  exists q',
    apply_not Demo.world (Q.nodes Demo.world Demo.case_)
      [("not", ADicts [[("lost_to_followup", VScalar (SStr "true"))]])] = Ok q' /\
    forall r, In r (Q.all q') <->
              In r (Q.all (Q.nodes Demo.world Demo.case_)) /\
              exists s, Sql.astext r "lost_to_followup" = Some s /\
                        ~ In s (map py_str (as_list (VScalar (SStr "true")))).
Proof.
  apply (@not_filter_rows Demo.world (Q.nodes Demo.world Demo.case_)
           [("not", ADicts [[("lost_to_followup", VScalar (SStr "true"))]])]
           "lost_to_followup" (VScalar (SStr "true")) [] TBool);
    try reflexivity; discriminate.
Defined.

(** * More on the count batcher *)

Lemma to_uint_nonnil n : Nat.to_uint n <> Decimal.Nil.
Proof.
  rewrite <- (DecimalNat.Unsigned.of_to n) at 1.
  rewrite DecimalNat.Unsigned.to_of. apply DecimalFacts.unorm_nonnil.
Qed.

Lemma of_nat_inj n m : Str.of_nat n = Str.of_nat m -> n = m.
Proof.
  unfold Str.of_nat. intros H.
  apply (f_equal NilZero.uint_of_string) in H.
  rewrite !NilZero.usu in H by apply to_uint_nonnil.
  injection H as H. now apply DecimalNat.Unsigned.to_uint_inj.
Qed.

Lemma lookup_app_new {A} k (v : A) l :
  lookup k l = None -> lookup k (l ++ [(k, v)]) = Some v.
Proof.
  induction l as [|[k' v'] l IH]; cbn; intros H.
  - now rewrite String.eqb_refl.
  - destruct (String.eqb k k'); [discriminate | auto].
Qed.

Lemma lookup_app_old {A} k (v : A) l e :
  lookup k l = Some v -> lookup k (l ++ e) = Some v.
Proof.
  induction l as [|[k' v'] l IH]; cbn; intros H; [discriminate|].
  destruct (String.eqb k k'); auto.
Qed.

Lemma add_count_pooling w self cls (args : Args) project_id r nc :
  keys args = ["project_id"] ->
  (lookup "project_id" args = Some (AVal (VScalar (SStr project_id))) \/
   lookup "project_id" args = Some (AVal (VList [SStr project_id]))) ->
  (if negb (Str.mem project_id (read_access_projects w))
   then (NodeCounter.CInt 0, self)
   else
     let '(project_id_name, project_ids) :=
       match lookup project_id (NodeCounter._project_ids self) with
       | Some n => (n, NodeCounter._project_ids self)
       | None =>
           let n := "p_" ++ Str.of_nat (List.length (NodeCounter._project_ids self)) in
           (n, (NodeCounter._project_ids self ++ [(project_id, n)])%list)
       end in
     let key := "c_" ++ Str.of_nat (List.length (NodeCounter._queries self)) in
     let p := List.length (NodeCounter._queries self) in
     let sql := "(SELECT count(" ++ "*" ++ ") FROM " ++ tablename (schema w) cls
                ++ " WHERE _props->>'project_id' = :" ++ project_id_name
                ++ ") AS " ++ key in
     (NodeCounter.CPromise p,
      NodeCounter.mk project_ids
        (NodeCounter._queries self ++ [NodeCounter.mkPooled key p sql])))
  = (r, nc) ->
  (nc = self /\ (r = NodeCounter.CNone \/ r = NodeCounter.CInt 0))
  \/
  (exists project_id name,
      (lookup "project_id" args = Some (AVal (VScalar (SStr project_id))) \/
       lookup "project_id" args = Some (AVal (VList [SStr project_id]))) /\
      keys args = ["project_id"] /\
      In project_id (read_access_projects w) /\
      r = NodeCounter.CPromise (List.length (NodeCounter._queries self)) /\
      lookup project_id (NodeCounter._project_ids nc) = Some name /\
      (lookup project_id (NodeCounter._project_ids self) = Some name /\
       NodeCounter._project_ids nc = NodeCounter._project_ids self
       \/
       lookup project_id (NodeCounter._project_ids self) = None /\
       name = "p_" ++ Str.of_nat (List.length (NodeCounter._project_ids self)) /\
       NodeCounter._project_ids nc
       = (NodeCounter._project_ids self ++ [(project_id, name)])%list) /\
      NodeCounter._queries nc
      = (NodeCounter._queries self
         ++ [NodeCounter.mkPooled
               ("c_" ++ Str.of_nat (List.length (NodeCounter._queries self)))
               (List.length (NodeCounter._queries self))
               ("(SELECT count(" ++ "*" ++ ") FROM " ++ tablename (schema w) cls
                ++ " WHERE _props->>'project_id' = :" ++ name
                ++ ") AS " ++ "c_"
                ++ Str.of_nat (List.length (NodeCounter._queries self)))])%list).
Proof.
  intros Hk Hargs H. destruct (Str.mem project_id (read_access_projects w)) eqn:Em;
    cbn [negb] in H.
  - right. apply mem_In in Em.
    destruct (lookup project_id (NodeCounter._project_ids self)) as [n|] eqn:El;
      inversion H; subst; clear H.
    + exists project_id, n. cbn [NodeCounter._project_ids NodeCounter._queries].
      repeat split; auto.
    + exists project_id,
        ("p_" ++ Str.of_nat (List.length (NodeCounter._project_ids self))).
      cbn [NodeCounter._project_ids NodeCounter._queries].
      split; [exact Hargs|]. split; [exact Hk|]. split; [exact Em|].
      split; [reflexivity|]. split; [now apply lookup_app_new|].
      split; [right; auto | reflexivity].
  - left. inversion H; subst. auto.
Qed.

(** X17 (NodeCounter.add_count).
    [add_count] hands out a promise only when [project_id] is the sole
    argument and its value is one project, given alone or as a list of
    one, that the caller may read.  It then pools exactly one query,
    numbered by the size of the pool, whose text names the placeholder of
    the project asked for: the one that project already had, or a new one
    numbered by the count of placeholders.  In every other case it answers
    [None] or zero and leaves the batcher as it was. *)
Theorem add_count_outcomes w self cls args r nc :
  NodeCounter.add_count w self cls args = (r, nc) ->
  (nc = self /\ (r = NodeCounter.CNone \/ r = NodeCounter.CInt 0))
  \/
  (exists project_id name,
      (lookup "project_id" args = Some (AVal (VScalar (SStr project_id))) \/
       lookup "project_id" args = Some (AVal (VList [SStr project_id]))) /\
      keys args = ["project_id"] /\
      In project_id (read_access_projects w) /\
      r = NodeCounter.CPromise (List.length (NodeCounter._queries self)) /\
      lookup project_id (NodeCounter._project_ids nc) = Some name /\
      (lookup project_id (NodeCounter._project_ids self) = Some name /\
       NodeCounter._project_ids nc = NodeCounter._project_ids self
       \/
       lookup project_id (NodeCounter._project_ids self) = None /\
       name = "p_" ++ Str.of_nat (List.length (NodeCounter._project_ids self)) /\
       NodeCounter._project_ids nc
       = (NodeCounter._project_ids self ++ [(project_id, name)])%list) /\
      NodeCounter._queries nc
      = (NodeCounter._queries self
         ++ [NodeCounter.mkPooled
               ("c_" ++ Str.of_nat (List.length (NodeCounter._queries self)))
               (List.length (NodeCounter._queries self))
               ("(SELECT count(" ++ "*" ++ ") FROM " ++ tablename (schema w) cls
                ++ " WHERE _props->>'project_id' = :" ++ name
                ++ ") AS " ++ "c_"
                ++ Str.of_nat (List.length (NodeCounter._queries self)))])%list).
Proof.
  unfold NodeCounter.add_count.
  destruct (negb (cls_eqb cls PsqlNode) && negb (has_attr (schema w) cls "project_id"));
    [intros H; inversion H; subst; left; auto|].
  destruct (String.eqb (cls_label cls) "project");
    [intros H; inversion H; subst; left; auto|].
  destruct (list_eq_dec string_dec (keys args) ["project_id"]) as [Hk|Hk];
    cbn [negb]; [|intros H; inversion H; subst; left; auto].
  destruct (lookup "project_id" args) as [[[[s|b|z|]|[|[s|b|z|] [|x l]]]|d|l]|] eqn:Ea;
    try (intros H; inversion H; subst; left; auto; fail);
    intros H; rewrite <- Ea; apply (@add_count_pooling w self cls args s r nc Hk); auto.
Qed.

Lemma add_count_outcomes_witness :
  exists name,
    lookup "prog-A"
      (NodeCounter._project_ids
         (snd (NodeCounter.add_count Demo.world NodeCounter.init Demo.case_
                 [("project_id", Demo.str_arg "prog-A")]))) = Some name /\
    In "prog-A" (read_access_projects Demo.world).
Proof.
  destruct (@add_count_outcomes Demo.world NodeCounter.init Demo.case_
              [("project_id", Demo.str_arg "prog-A")] _ _ eq_refl)
    as [[_ [H|H]]|(pid & name & Ha & _ & Hin & _ & Hname & _)].
  - discriminate H.
  - discriminate H.
  - assert (pid = "prog-A") as ->.
    { destruct Ha as [Ha|Ha]; cbn in Ha; [now injection Ha as <- | discriminate Ha]. }
    exists name. split; [exact Hname | exact Hin].
Defined.

Lemma add_count_project_ids w self cls args :
  NodeCounter._project_ids (snd (NodeCounter.add_count w self cls args))
  = NodeCounter._project_ids self
  \/
  exists project_id,
    lookup project_id (NodeCounter._project_ids self) = None /\
    NodeCounter._project_ids (snd (NodeCounter.add_count w self cls args))
    = (NodeCounter._project_ids self
       ++ [(project_id,
            ("p_" ++ Str.of_nat (List.length (NodeCounter._project_ids self)))%string)])%list.
Proof.
  unfold NodeCounter.add_count.
  destruct (negb (cls_eqb cls PsqlNode) && negb (has_attr (schema w) cls "project_id"));
    [left; reflexivity|].
  destruct (String.eqb (cls_label cls) "project"); [left; reflexivity|].
  destruct (negb (if list_eq_dec string_dec (keys args) ["project_id"] then true else false));
    [left; reflexivity|].
  destruct (lookup "project_id" args) as [[[[s|b|z|]|[|[s|b|z|] [|x l]]]|d|l]|];
    try (left; reflexivity);
    (destruct (negb (Str.mem s (read_access_projects w))); [left; reflexivity|];
     destruct (lookup s (NodeCounter._project_ids self)) eqn:El;
     [left; reflexivity | right; exists s; split; [exact El | reflexivity]]).
Qed.

Lemma lookup_none_notin {A} k (l : list (string * A)) :
  lookup k l = None -> ~ In k (map fst l).
Proof.
  induction l as [|[k' v] l IH]; cbn; intros H; [tauto|].
  destruct (String.eqb k k') eqn:E; [discriminate|].
  apply String.eqb_neq in E. intros [Hk|Hk]; [congruence | now apply IH].
Qed.

Lemma lookup_in {A} k (v : A) l : lookup k l = Some v -> In (k, v) l.
Proof.
  induction l as [|[k' v'] l IH]; cbn; intros H; [discriminate|].
  destruct (String.eqb k k') eqn:E.
  - apply String.eqb_eq in E. injection H as ->. subst. now left.
  - right. auto.
Qed.

Lemma add_count_queries w self cls args :
  NodeCounter._queries (snd (NodeCounter.add_count w self cls args))
  = NodeCounter._queries self
  \/
  exists sql,
    NodeCounter._queries (snd (NodeCounter.add_count w self cls args))
    = (NodeCounter._queries self
       ++ [NodeCounter.mkPooled
             ("c_" ++ Str.of_nat (List.length (NodeCounter._queries self)))%string
             (List.length (NodeCounter._queries self)) sql])%list.
Proof.
  unfold NodeCounter.add_count.
  destruct (negb (cls_eqb cls PsqlNode) && negb (has_attr (schema w) cls "project_id"));
    [left; reflexivity|].
  destruct (String.eqb (cls_label cls) "project"); [left; reflexivity|].
  destruct (negb (if list_eq_dec string_dec (keys args) ["project_id"] then true else false));
    [left; reflexivity|].
  destruct (lookup "project_id" args) as [[[[s|b|z|]|[|[s|b|z|] [|x l]]]|d|l]|];
    try (left; reflexivity);
    (destruct (negb (Str.mem s (read_access_projects w))); [left; reflexivity|];
     destruct (lookup s (NodeCounter._project_ids self));
     right; eexists; reflexivity).
Qed.

(** What every state of a batcher satisfies: the promises are numbered in
    the order of the pool, each query is keyed by the number of its
    promise, each placeholder is named by its rank, and no project has two
    placeholders. *)
Lemma batcher_state_invariant w nc :
  batcher_state w nc ->
  map NodeCounter.p_promise (NodeCounter._queries nc)
  = seq 0 (List.length (NodeCounter._queries nc)) /\
  (forall p, In p (NodeCounter._queries nc) ->
             NodeCounter.p_key p = "c_" ++ Str.of_nat (NodeCounter.p_promise p)) /\
  map snd (NodeCounter._project_ids nc)
  = map (fun i => "p_" ++ Str.of_nat i)
        (seq 0 (List.length (NodeCounter._project_ids nc))) /\
  NoDup (map fst (NodeCounter._project_ids nc)).
Proof.
  induction 1 as [|self cls args Hstate (Hp & Hk & Hn & Hd)].
  - cbn. repeat split; auto; try tauto. constructor.
  - assert (HQ :
      map NodeCounter.p_promise
          (NodeCounter._queries (snd (NodeCounter.add_count w self cls args)))
      = seq 0 (List.length
                 (NodeCounter._queries (snd (NodeCounter.add_count w self cls args)))) /\
      (forall p,
          In p (NodeCounter._queries (snd (NodeCounter.add_count w self cls args))) ->
          NodeCounter.p_key p = "c_" ++ Str.of_nat (NodeCounter.p_promise p))).
    { destruct (add_count_queries w self cls args) as [->|[sql ->]]; [now split|].
      split.
      - rewrite map_app, length_app, Hp. cbn [map List.length NodeCounter.p_promise].
        rewrite Nat.add_1_r, seq_S. reflexivity.
      - intros p Hin. apply in_app_or in Hin. destruct Hin as [Hin|[<-|[]]]; auto. }
    assert (HI :
      map snd (NodeCounter._project_ids (snd (NodeCounter.add_count w self cls args)))
      = map (fun i => "p_" ++ Str.of_nat i)
            (seq 0 (List.length
               (NodeCounter._project_ids (snd (NodeCounter.add_count w self cls args))))) /\
      NoDup (map fst
               (NodeCounter._project_ids (snd (NodeCounter.add_count w self cls args))))).
    { destruct (add_count_project_ids w self cls args) as [->|[pid [Hnone ->]]];
        [now split|].
      split.
      - rewrite map_app, length_app, Hn. cbn [map List.length snd].
        rewrite Nat.add_1_r, seq_S, map_app. reflexivity.
      - rewrite map_app. cbn [map fst].
        apply NoDup_app; [exact Hd | repeat constructor; intros [] | ].
        intros x Hx [<-|[]]. revert Hx. now apply lookup_none_notin. }
    destruct HQ as [? ?], HI as [? ?]. repeat split; assumption.
Qed.

Lemma mapM_map {A B C} (f : A -> result B) (g : A -> C) (h : B -> C) l :
  (forall a b, f a = Ok b -> h b = g a) ->
  forall bs, mapM f l = Ok bs -> map h bs = map g l.
Proof.
  intros Hf. induction l as [|a l IH]; simpl; intros bs H.
  - inversion H; subst. reflexivity.
  - do 2 inv_bind H. inversion H; subst; clear H. cbn.
    now rewrite (Hf _ _ Hx), (IH _ Hx0).
Qed.

Lemma mapM_total {A B} (f : A -> result B) l :
  (forall a, In a l -> exists b, f a = Ok b) -> exists bs, mapM f l = Ok bs.
Proof.
  induction l as [|a l IH]; simpl; intros H; [eauto|].
  destruct (H a (or_introl eq_refl)) as [b ->].
  destruct IH as [bs ->]; [intros; apply H; auto|]. simpl. eauto.
Qed.

(** X18 (NodeCounter.run): on a batcher that pooled nothing, [run] does
    nothing, whatever the session would answer.  Otherwise, when the
    session answers with a row that has the column of every pooled count,
    [run] fulfils the promises in the order they were made, each exactly
    once, and promise number [i] gets the value of column [c_i]. *)
Theorem run_fulfils_promises_in_order w nc execute :
  batcher_state w nc ->
  (NodeCounter._queries nc = [] -> NodeCounter_run nc execute = Ok []) /\
  (forall results,
      (forall sql params, execute sql params = Ok results) ->
      (forall i, i < List.length (NodeCounter._queries nc) ->
                 lookup ("c_" ++ Str.of_nat i) results <> None) ->
      exists fulfilled,
        NodeCounter_run nc execute = Ok fulfilled /\
        map fst fulfilled = seq 0 (List.length (NodeCounter._queries nc)) /\
        forall i v, In (i, v) fulfilled ->
                    lookup ("c_" ++ Str.of_nat i) results = Some v).
Proof.
  intros Hstate. destruct (batcher_state_invariant Hstate) as (Hp & Hk & _ & _).
  split.
  - intros E. unfold NodeCounter_run. now rewrite E.
  - intros results Hexec Hcols.
    assert (Hrun : NodeCounter_run nc execute
                   = mapM (fun p => match lookup (NodeCounter.p_key p) results with
                                    | Some v => Ok (NodeCounter.p_promise p, v)
                                    | None => Err (KeyError (NodeCounter.p_key p))
                                    end) (NodeCounter._queries nc)).
    { unfold NodeCounter_run.
      destruct (NodeCounter._queries nc) as [|p l]; [reflexivity|].
      rewrite Hexec. reflexivity. }
    rewrite Hrun.
    destruct (@mapM_total _ _
                (fun p => match lookup (NodeCounter.p_key p) results with
                          | Some v => Ok (NodeCounter.p_promise p, v)
                          | None => Err (KeyError (NodeCounter.p_key p))
                          end) (NodeCounter._queries nc)) as [fulfilled Hf].
    { intros p Hin. rewrite (Hk p Hin).
      assert (Hlt : NodeCounter.p_promise p < List.length (NodeCounter._queries nc)).
      { apply (in_map NodeCounter.p_promise) in Hin. rewrite Hp in Hin.
        apply in_seq in Hin. lia. }
      specialize (Hcols _ Hlt).
      destruct (lookup ("c_" ++ Str.of_nat (NodeCounter.p_promise p)) results);
        [eauto | congruence]. }
    exists fulfilled. split; [exact Hf|]. split.
    + rewrite <- Hp. refine (@mapM_map _ _ _ _ _ _ _ _ _ Hf).
      intros p [i v] E. destruct (lookup (NodeCounter.p_key p) results);
        [|discriminate E].
      inversion E; subst. reflexivity.
    + intros i v Hin. destruct (mapM_ok _ _ Hf _ Hin) as (p & Hp' & E).
      rewrite (Hk p Hp') in E.
      destruct (lookup ("c_" ++ Str.of_nat (NodeCounter.p_promise p)) results) eqn:El;
        [|discriminate E].
      inversion E; subst. exact El.
Qed.

Lemma run_fulfils_promises_in_order_witness :
  exists fulfilled,
    NodeCounter_run
      (snd (NodeCounter.add_count Demo.world NodeCounter.init Demo.case_
              [("project_id", Demo.str_arg "prog-A")]))
      (fun _ _ => Ok [("c_0", 2%Z)]) = Ok fulfilled /\
    map fst fulfilled = [0].
Proof.
  destruct (proj2 (@run_fulfils_promises_in_order Demo.world
                     (snd (NodeCounter.add_count Demo.world NodeCounter.init Demo.case_
                             [("project_id", Demo.str_arg "prog-A")]))
                     (fun _ _ => Ok [("c_0", 2%Z)])
                     (batcher_add Demo.case_ [("project_id", Demo.str_arg "prog-A")]
                                  (batcher_new Demo.world)))
                  [("c_0", 2%Z)] (fun _ _ => eq_refl))
    as (fulfilled & Hrun & Hfst & _).
  - intros i Hi. vm_compute in Hi. assert (i = 0) as -> by lia.
    vm_compute. discriminate.
  - exists fulfilled. split; [exact Hrun | exact Hfst].
Defined.

Lemma lookup_dict_set_same {A} k (v : A) d : lookup k (dict_set k v d) = Some v.
Proof.
  induction d as [|[k' v'] d IH]; cbn.
  - now rewrite String.eqb_refl.
  - destruct (String.eqb k k') eqn:E; cbn; rewrite ?String.eqb_refl, ?E; auto.
Qed.

Lemma lookup_dict_set_other {A} k k' (v : A) d :
  k <> k' -> lookup k (dict_set k' v d) = lookup k d.
Proof.
  intros Hne. apply String.eqb_neq in Hne.
  induction d as [|[k2 v2] d IH]; cbn.
  - now rewrite Hne.
  - destruct (String.eqb k' k2) eqn:E; cbn.
    + apply String.eqb_eq in E. subst k2. now rewrite Hne.
    + destruct (String.eqb k k2); auto.
Qed.

Lemma lookup_inverted_absent k (l : list (string * string)) : forall d,
  ~ In k (map snd l) ->
  lookup k (fold_left (fun d kv => dict_set (snd kv) (fst kv) d) l d) = lookup k d.
Proof.
  induction l as [|[a b] l IH]; cbn; intros d H; [reflexivity|].
  rewrite IH by tauto. apply lookup_dict_set_other. intros ->. tauto.
Qed.

Lemma lookup_inverted k v (l : list (string * string)) : forall d,
  NoDup (map snd l) -> In (k, v) l ->
  lookup v (fold_left (fun d kv => dict_set (snd kv) (fst kv) d) l d) = Some k.
Proof.
  induction l as [|[a b] l IH]; cbn; intros d Hd Hin; [contradiction|].
  inversion Hd as [|? ? Hb Hd']; subst.
  destruct Hin as [E|Hin].
  - inversion E; subst. rewrite lookup_inverted_absent by exact Hb.
    apply lookup_dict_set_same.
  - now apply IH.
Qed.

Lemma placeholder_names_distinct n :
  NoDup (map (fun i => "p_" ++ Str.of_nat i) (seq 0 n)).
Proof.
  apply Finite.Injective_map_NoDup; [|apply seq_NoDup].
  intros i j H. cbn in H. injection H as H. now apply of_nat_inj.
Qed.

(** X19 (NodeCounter.add_count, NodeCounter.run): within a request a
    project keeps the placeholder it was first given, no two projects share
    a placeholder, and the parameters [run] binds give every placeholder
    the project it was made for. *)
Theorem placeholders_name_their_projects w nc project_id name :
  batcher_state w nc ->
  lookup project_id (NodeCounter._project_ids nc) = Some name ->
  lookup name (run_params nc) = Some project_id /\
  (forall other, lookup other (NodeCounter._project_ids nc) = Some name ->
                 other = project_id) /\
  (forall cls args,
      lookup project_id
             (NodeCounter._project_ids (snd (NodeCounter.add_count w nc cls args)))
      = Some name).
Proof.
  intros Hstate Hl. destruct (batcher_state_invariant Hstate) as (_ & _ & Hn & _).
  assert (Hnd : NoDup (map snd (NodeCounter._project_ids nc))).
  { rewrite Hn. apply placeholder_names_distinct. }
  assert (Hinv : forall p, lookup p (NodeCounter._project_ids nc) = Some name ->
                           lookup name (run_params nc) = Some p).
  { intros p Hp. unfold run_params. apply lookup_inverted; [exact Hnd|].
    now apply lookup_in. }
  split; [now apply Hinv|]. split.
  - intros other Ho. apply Hinv in Ho. apply Hinv in Hl. congruence.
  - intros cls args.
    destruct (add_count_project_ids w nc cls args) as [->|[pid [_ ->]]];
      [exact Hl | now apply lookup_app_old].
Qed.

Lemma placeholders_name_their_projects_witness :
  lookup "p_0"
    (run_params (snd (NodeCounter.add_count Demo.world NodeCounter.init Demo.case_
                        [("project_id", Demo.str_arg "prog-A")])))
  = Some "prog-A".
Proof.
  apply (proj1 (@placeholders_name_their_projects Demo.world
                  (snd (NodeCounter.add_count Demo.world NodeCounter.init Demo.case_
                          [("project_id", Demo.str_arg "prog-A")]))
                  "prog-A" "p_0"
                  (batcher_add Demo.case_ [("project_id", Demo.str_arg "prog-A")]
                               (batcher_new Demo.world))
                  eq_refl)).
Defined.

(** * The dictionary a node is loaded into *)

Lemma lookup_map_key {A} (g : string -> A) k l :
  lookup k (map (fun c => (c, g c)) l) = if in_dec string_dec k l then Some (g k) else None.
Proof.
  induction l as [|c l IH]; cbn [map lookup]; [reflexivity|].
  destruct (String.eqb k c) eqn:E.
  - apply String.eqb_eq in E. subst c.
    destruct (in_dec string_dec k (k :: l)) as [_|Hn]; [reflexivity|].
    exfalso. apply Hn. now left.
  - apply String.eqb_neq in E. rewrite IH.
    destruct (in_dec string_dec k l) as [Hi|Hi],
             (in_dec string_dec k (c :: l)) as [Hj|Hj]; try reflexivity.
    + exfalso. apply Hj. now right.
    + exfalso. destruct Hj as [Hj|Hj]; [congruence | contradiction].
Qed.

(** X20 (load_node, filtered_column_dict, get_loaded_columns): the
    dictionary a node is loaded into always carries the node's own [id] and
    [type], also when the selection names neither or the node has
    properties so named.  Every other key of it is a declared property of
    the node's class that the selection names or that a selected field
    depends on, with the node's value for it (none when it is not set):
    a key of the stored properties that the class does not declare, or that
    was not selected, is never loaded. *)
Theorem load_node_keeps_selected_declared_properties fuel w n info deps d :
  load_node fuel w n info deps = Ok d ->
  lookup "id" d = Some (LText (node_id n)) /\
  lookup "type" d = Some (LText (label n)) /\
  exists fields,
    get_fields fuel info = Ok fields /\
    forall k v,
      k <> "id" -> k <> "type" ->
      (lookup k d = Some v <->
       v = LProp (lookup k (props n)) /\
       In k (get_column_names w (Model (label n))) /\
       (In k (keys fields) \/
        exists field columns,
          In field (keys fields) /\ lookup field deps = Some columns /\ In k columns)).
Proof.
  unfold load_node, filtered_column_dict, get_loaded_columns. intros H.
  inv_bind H. inv_bind Hx. inv_bind Hx0.
  inversion Hx0; subst; clear Hx0. inversion Hx; subst; clear Hx.
  inversion H; subst; clear H.
  split; [|split].
  - rewrite lookup_dict_set_other by discriminate. apply lookup_dict_set_same.
  - apply lookup_dict_set_same.
  - exists x1. split; [exact Hx1|]. intros k v Hid Htype.
    rewrite !lookup_dict_set_other by assumption.
    rewrite (lookup_map_key (fun column => LProp (lookup column (props n)))).
    match goal with |- context [in_dec string_dec k ?l] =>
      destruct (in_dec string_dec k l) as [Hin|Hin] end.
    + apply filter_In in Hin. destruct Hin as [Hin Hmem].
      apply mem_In in Hmem. apply nodup_In in Hin. apply in_app_or in Hin.
      split.
      * intros E. inversion E; subst. split; [reflexivity|]. split; [exact Hmem|].
        destruct Hin as [Hin|Hin]; [left; now apply nodup_In in Hin|].
        right. apply in_flat_map in Hin. destruct Hin as (field & Hf & Hk).
        apply nodup_In in Hf.
        destruct (lookup field deps) as [columns|] eqn:El; [|contradiction].
        eauto.
      * intros (-> & _). reflexivity.
    + split; [discriminate|]. intros (_ & Hmem & Hsel). exfalso. apply Hin.
      apply filter_In. split; [|now apply mem_In].
      apply nodup_In, in_or_app. destruct Hsel as [Hk|(field & columns & Hf & El & Hk)].
      * left. now apply nodup_In.
      * right. apply in_flat_map. exists field. split; [now apply nodup_In|].
        now rewrite El.
Qed.

Lemma load_node_keeps_selected_declared_properties_witness :
  exists d,
    load_node 3 Demo.world Demo.case_ab12
      (mkInfo (AstNode "Field" "case"
                 (Some [AstNode "Field" "submitter_id" None;
                        AstNode "Field" "no_such_property" None]))
              [])
      Node_fields_depend_on_columns = Ok d /\
    lookup "id" d = Some (LText (node_id Demo.case_ab12)).
Proof.
  eexists. split; [vm_compute; reflexivity|].
  apply (proj1 (@load_node_keeps_selected_declared_properties 3 Demo.world Demo.case_ab12
                  (mkInfo (AstNode "Field" "case"
                             (Some [AstNode "Field" "submitter_id" None;
                                    AstNode "Field" "no_such_property" None]))
                          [])
                  Node_fields_depend_on_columns _ eq_refl)).
Defined.

(** * The resolvers *)

Lemma load_node_identity fuel w n info deps d :
  load_node fuel w n info deps = Ok d ->
  lookup "id" d = Some (LText (node_id n)) /\
  lookup "type" d = Some (LText (label n)).
Proof.
  unfold load_node. intros H. inv_bind H. inversion H; subst; clear H. split.
  - rewrite lookup_dict_set_other by discriminate. apply lookup_dict_set_same.
  - apply lookup_dict_set_same.
Qed.

(** X21 (create_root_fields, its object resolver): whatever the arguments
    of the request, every object the resolver of a class returns is loaded
    from a row of the authorized query of that class, and carries the id
    and the type of that row; the objects are as many as the rows the
    compiled query returns. *)
Theorem resolver_returns_authorized_nodes fuel w cls args info loaded :
  resolver fuel w cls args info = Ok loaded ->
  exists q q',
    get_authorized_query fuel w cls = Ok q /\
    apply_query_args w q args = Ok q' /\
    List.length loaded = List.length (Q.all q') /\
    forall d, In d loaded ->
      exists n, In n (Q.rows q) /\
                lookup "id" d = Some (LText (node_id n)) /\
                lookup "type" d = Some (LText (label n)).
Proof.
  unfold resolver. intros H. inv_bind H. inv_bind H.
  exists x, x0. split; [exact Hx|]. split; [exact Hx0|]. split.
  - assert (Hlen : map (fun _ : list (string * Loaded) => tt) loaded
                   = map (fun _ : Row => tt) (Q.all x0)).
    { refine (@mapM_map _ _ _ _ _ _ _ _ _ H). reflexivity. }
    apply (f_equal (@List.length unit)) in Hlen. now rewrite !length_map in Hlen.
  - intros d Hd. destruct (mapM_ok _ _ H _ Hd) as (n & Hn & Hload).
    exists n. split.
    + apply (apply_query_args_narrows _ _ _ Hx0). now apply all_incl.
    + now apply load_node_identity in Hload.
Qed.

Lemma resolver_returns_authorized_nodes_witness :
  exists loaded q,
    resolver 5 Demo.world Demo.case_ [("first", Demo.int_arg 1)]
      (mkInfo (AstNode "Field" "case" (Some [AstNode "Field" "submitter_id" None])) [])
    = Ok loaded /\
    get_authorized_query 5 Demo.world Demo.case_ = Ok q /\
    forall d, In d loaded ->
      exists n, In n (Q.rows q) /\ lookup "id" d = Some (LText (node_id n)).
Proof.
  eexists.
  destruct (@resolver_returns_authorized_nodes 5 Demo.world Demo.case_
              [("first", Demo.int_arg 1)]
              (mkInfo (AstNode "Field" "case" (Some [AstNode "Field" "submitter_id" None])) [])
              _ eq_refl)
    as (q & q' & Hq & _ & _ & Hall).
  exists q. split; [reflexivity|]. split; [exact Hq|].
  intros d Hd. destruct (Hall d Hd) as (n & Hn & Hid & _). eauto.
Defined.

(** X22 (query_with_args): every row the function returns is a row of the
    authorized query of one of the classes it was given; and when
    [of_type] names at least one label, that class is the subclass of one
    of the labels named, so a class that no label names is not queried. *)
Theorem query_with_args_rows_are_authorized fuel w subclasses classes args rows :
  query_with_args fuel w subclasses classes args = Ok rows ->
  forall r, In r rows ->
    exists cls q,
      In cls classes /\
      get_authorized_query fuel w cls = Ok q /\
      In r (Q.rows q) /\
      forall labels,
        lookup "of_type" args = Some (AVal (VList labels)) -> labels <> [] ->
        exists l, In l labels /\ get_subclass subclasses l = Some cls.
Proof.
  unfold query_with_args. intros H. inv_bind H.
  assert (Htypes : forall labels,
             lookup "of_type" args = Some (AVal (VList labels)) ->
             x = map (get_subclass subclasses) (nodup Scalar_eq_dec labels)).
  { intros labels E. rewrite E in Hx. now inversion Hx. }
  clear Hx.
  refine (@foldM_ind_in _ _
            (fun all_items => forall r, In r all_items -> _) _ _ _ _ H _ _).
  - intros r [].
  - cbv beta. intros b cls b' Hcls Hb Hstep r Hr.
    case_if Hstep; [|inversion Hstep; subst; auto].
    inv_bind Hstep. inv_bind Hstep. inv_bind Hstep.
    inversion Hstep; subst; clear Hstep.
    apply in_app_or in Hr. destruct Hr as [Hr|Hr]; [auto|].
    exists cls, x0. split; [exact Hcls|]. split; [exact Hx|]. split.
    + assert (Hn1 : narrows x1 x0).
      { destruct (lookup "project_id" args) as [[[v|l]|?|?]|];
          try discriminate Hx0.
        - now apply filter_narrows in Hx0.
        - inversion Hx0; subst. apply narrows_refl. }
      apply Hn1. apply (apply_query_args_narrows _ _ _ Hx1). now apply all_incl.
    + intros labels E Hne. rewrite (Htypes _ E) in Heqb0.
      destruct (nodup Scalar_eq_dec labels) as [|l0 ls] eqn:En.
      * exfalso. destruct labels as [|l labels']; [congruence|].
        assert (Hin : In l (nodup Scalar_eq_dec (l :: labels')))
          by (apply nodup_In; now left).
        rewrite En in Hin. contradiction.
      * cbn [map orb] in Heqb0. 
        change (existsb (ocls_eqb (Some cls))
                        (map (get_subclass subclasses) (l0 :: ls)) = true) in Heqb0.
        apply existsb_exists in Heqb0. destruct Heqb0 as (o & Ho & Eo).
        apply in_map_iff in Ho. destruct Ho as (l & <- & Hl).
        rewrite <- En in Hl. apply nodup_In in Hl. exists l. split; [exact Hl|].
        destruct (get_subclass subclasses l) as [c|]; [|discriminate Eo].
        cbn in Eo. apply cls_eqb_eq in Eo. now subst.
Qed.

Lemma query_with_args_rows_are_authorized_witness :
  exists rows,
    query_with_args 5 Demo.world [Demo.case_; Demo.sample] [Demo.case_; Demo.sample]
      [("of_type", Demo.strs_arg ["case"])] = Ok rows /\
    rows <> [] /\
    forall r, In r rows ->
      exists cls q,
        In cls [Demo.case_; Demo.sample] /\
        get_authorized_query 5 Demo.world cls = Ok q /\
        In r (Q.rows q).
Proof.
  eexists. split; [vm_compute; reflexivity|]. split; [discriminate|].
  intros r Hr.
  destruct (@query_with_args_rows_are_authorized 5 Demo.world
              [Demo.case_; Demo.sample] [Demo.case_; Demo.sample]
              [("of_type", Demo.strs_arg ["case"])] _ eq_refl r Hr)
    as (cls & q & Hc & Hq & Hin & _).
  exists cls, q. auto.
Defined.

(** * The fields of a selection *)

Lemma keys_dict_set {A} k (v : A) d x :
  In x (keys (dict_set k v d)) <-> x = k \/ In x (keys d).
Proof.
  unfold keys. induction d as [|[k' v'] d IH]; cbn.
  - intuition congruence.
  - destruct (String.eqb k k') eqn:E; cbn.
    + apply String.eqb_eq in E. subst k'. intuition congruence.
    + rewrite IH. intuition congruence.
Qed.

Lemma ast_depth_le x l :
  In x l -> ast_depth x <= fold_right (fun x m => Nat.max (ast_depth x) m) 0 l.
Proof.
  induction l as [|y l IH]; cbn [In fold_right]; intros H; [contradiction|].
  destruct H as [->|H]; [lia|]. specialize (IH H). lia.
Qed.

Lemma spread_free_kind a :
  spread_free a = true -> String.eqb (ast_kind a) "FragmentSpread" = false.
Proof.
  destruct a as [k n [l|]]; cbn [spread_free ast_kind]; intros H.
  - apply andb_prop in H. destruct H as [H _]. now apply negb_true_iff in H.
  - now apply negb_true_iff in H.
Qed.

Lemma collect_selections fuel fragments selections :
  (forall leaf, In leaf selections ->
     exists sub, collect_fields fuel leaf fragments = Ok sub) ->
  (forall leaf, In leaf selections ->
     String.eqb (ast_kind leaf) "FragmentSpread" = false) ->
  forall field,
  exists fields,
    foldM (fun field leaf =>
             if String.eqb (ast_kind leaf) "Field" then
               sub <- collect_fields fuel leaf fragments ;;
               Ok (dict_set (ast_name leaf) (FieldsOf sub) field)
             else if String.eqb (ast_kind leaf) "FragmentSpread" then
               match lookup (ast_name leaf) fragments with
               | None => Err (KeyError (ast_name leaf))
               | Some fragment =>
                   sub <- collect_fields fuel fragment fragments ;;
                   Ok (dict_update field sub)
               end
             else Ok field)
          selections field = Ok fields /\
    forall k, In k (keys fields) <->
              In k (keys field) \/
              exists leaf, In leaf selections /\
                           ast_kind leaf = "Field" /\ ast_name leaf = k.
Proof.
  induction selections as [|leaf l IH]; intros Hsub Hkind field.
  - exists field. split; [reflexivity|]. intros k. split; [auto|].
    intros [H|(leaf & [] & _)]. exact H.
  - cbn [foldM].
    destruct (String.eqb (ast_kind leaf) "Field") eqn:Ef.
    + destruct (Hsub leaf (or_introl eq_refl)) as [sub ->]. cbn [bind].
      destruct (IH (fun x H => Hsub x (or_intror H)) (fun x H => Hkind x (or_intror H))
                   (dict_set (ast_name leaf) (FieldsOf sub) field))
        as (fields & -> & Hkeys).
      exists fields. split; [reflexivity|]. intros k. rewrite Hkeys, keys_dict_set.
      apply String.eqb_eq in Ef. split.
      * intros [[->|H]|(x & Hx & Hk)]; [right; exists leaf; cbn; auto | auto |].
        right. exists x. cbn. auto.
      * intros [H|(x & [<-|Hx] & Hk & Hn)]; [auto | left; left; now rewrite Hn |].
        right. exists x. auto.
    + rewrite (Hkind leaf (or_introl eq_refl)).
      destruct (IH (fun x H => Hsub x (or_intror H)) (fun x H => Hkind x (or_intror H))
                   field) as (fields & Hfold & Hkeys).
      exists fields. split; [exact Hfold|]. intros k. rewrite Hkeys. split.
      * intros [H|(x & Hx & Hk)]; [auto|]. right. exists x. cbn. auto.
      * intros [H|(x & [<-|Hx] & Hk & Hn)]; [auto | |].
        -- rewrite Hk in Ef. discriminate Ef.
        -- right. exists x. auto.
Qed.

(** X23 (collect_fields): on a selection that spreads no fragment,
    [collect_fields] returns, and the fields it collects are exactly the
    names of the selections of kind Field directly under the node: a field
    that is only selected inside an inline fragment is not collected. *)
Theorem collect_fields_of_plain_selection fuel node fragments :
  spread_free node = true ->
  ast_depth node < fuel ->
  exists fields,
    collect_fields fuel node fragments = Ok fields /\
    forall k, In k (keys fields) <->
              exists selections leaf,
                ast_selection_set node = Some selections /\
                In leaf selections /\
                ast_kind leaf = "Field" /\ ast_name leaf = k.
Proof.
  revert node. induction fuel as [|fuel IH]; intros node Hfree Hdepth; [lia|].
  destruct node as [kind name [selections|]]; cbn [collect_fields ast_selection_set].
  - cbn [spread_free] in Hfree. apply andb_prop in Hfree. destruct Hfree as [_ Hfree].
    rewrite forallb_forall in Hfree. cbn [ast_depth] in Hdepth.
    destruct (@collect_selections fuel fragments selections) with (field := @nil (string * Fields))
      as (fields & Hfold & Hkeys).
    + intros leaf Hin. destruct (IH leaf (Hfree _ Hin)) as (sub & Hsub & _); [|eauto].
      pose proof (ast_depth_le _ _ Hin). lia.
    + intros leaf Hin. apply spread_free_kind. auto.
    + exists fields. split; [exact Hfold|]. intros k. rewrite Hkeys. split.
      * intros [[]|(leaf & Hin & Hk & Hn)]. exists selections, leaf. auto.
      * intros (s & leaf & E & Hin & Hk & Hn). inversion E; subst s.
        right. exists leaf. auto.
  - exists []. split; [reflexivity|]. intros k. split; [intros []|].
    intros (s & leaf & E & _). discriminate E.
Qed.

Lemma collect_fields_of_plain_selection_witness :
  exists fields,
    collect_fields 3
      (AstNode "Field" "case"
         (Some [AstNode "Field" "submitter_id" None;
                AstNode "InlineFragment" EmptyString
                  (Some [AstNode "Field" "project_id" None])]))
      [] = Ok fields /\
    ~ In "project_id" (keys fields).
Proof.
  destruct (@collect_fields_of_plain_selection 3
              (AstNode "Field" "case"
                 (Some [AstNode "Field" "submitter_id" None;
                        AstNode "InlineFragment" EmptyString
                          (Some [AstNode "Field" "project_id" None])]))
              [] eq_refl) as (fields & Hc & Hkeys).
  - cbn. lia.
  - exists fields. split; [exact Hc|]. intros Hin. apply Hkeys in Hin.
    destruct Hin as (s & leaf & E & Hin & Hk & Hn). inversion E; subst s.
    destruct Hin as [<-|[<-|[]]]; discriminate.
Defined.

(** * The link filters *)

Lemma link_pred_own w q name d t :
  Q.entity q = q_zero q ->
  match Q.row_of (q_zero q) (Q.entity q) t with
  | Some r => Some (negb (Nat.eqb (List.length (Q.related w r name d)) 0))
  | None => None
  end
  = Some (negb (Nat.eqb (List.length (Q.related w (t_zero t) name d)) 0)).
Proof. intros He. now rewrite He, row_of_zero. Qed.

(** X24 (apply_query_args, get_link_attr).
    Filtering by one link name: a name that is not an edge of the queried
    type raises [RuntimeError] under [with_links] and [without_links]
    alike.  For an edge of the type, [with_links] keeps exactly the rows
    that hold at least one node under it and [without_links] exactly the
    rows that hold none, so the two split the rows of the query. *)
Theorem link_filters_by_one_link w q name args_with args_without :
  Q.limited q = false ->
  Q.entity q = q_zero q ->
  lookup "with_links" args_with = Some (AVal (VList [SStr name])) ->
  lookup "without_links" args_without = Some (AVal (VList [SStr name])) ->
  match lookup name (pg_edges (schema w) (Q.entity q)) with
  | None =>
      apply_with_links w q args_with
      = Err (RuntimeError ("Invalid link name '" ++ name ++ "'")) /\
      apply_without_links w q args_without
      = Err (RuntimeError ("Invalid link name '" ++ name ++ "'"))
  | Some d =>
      exists qw qo,
        apply_with_links w q args_with = Ok qw /\
        apply_without_links w q args_without = Ok qo /\
        (forall r, In r (Q.all qw) <-> In r (Q.all q) /\ Q.related w r name d <> []) /\
        (forall r, In r (Q.all qo) <-> In r (Q.all q) /\ Q.related w r name d = [])
  end.
Proof.
  intros Hl He Hw Ho. unfold apply_with_links, apply_without_links.
  rewrite Hw, Ho. cbn [list_arg bind].
  change (nodup Scalar_eq_dec [SStr name]) with [SStr name].
  cbn [foldM]. unfold get_link_attr.
  destruct (lookup name (pg_edges (schema w) (Q.entity q))) as [d|]; [|split; reflexivity].
  cbn [bind].
  pose proof (fun p => filter_unlimited q p Hl) as Hfu.
  match goal with |- context [Q.filter q ?p] =>
    destruct (Hfu p) as (qw & Hfw & Hlw); rewrite Hfw end.
  match goal with |- context [Q.filter q ?p] =>
    destruct (Hfu p) as (qo & Hfo & Hlo); rewrite Hfo end.
  clear Hfu. exists qw, qo. cbn [bind]. split; [reflexivity|].
  split; [reflexivity|]. split; intros r; rewrite !all_unlimited by assumption.
  - rewrite (@filter_rows_iff _ _
               (fun r => Some (negb (Nat.eqb (List.length (Q.related w r name d)) 0)))
               _ (fun t => @link_pred_own w q name d t He) Hfw).
    destruct (Q.related w r name d); cbn; intuition congruence.
  - rewrite (@filter_rows_iff _ _
               (fun r => Sql.not3
                           (Some (negb (Nat.eqb (List.length (Q.related w r name d)) 0))))
               _ (fun t => f_equal Sql.not3 (@link_pred_own w q name d t He)) Hfo).
    destruct (Q.related w r name d); cbn; intuition congruence.
Qed.

Lemma link_filters_by_one_link_witness :
  exists qw qo,
    apply_with_links Demo.world (Q.nodes Demo.world Demo.case_)
      [("with_links", Demo.strs_arg ["projects"])] = Ok qw /\
    apply_without_links Demo.world (Q.nodes Demo.world Demo.case_)
      [("without_links", Demo.strs_arg ["projects"])] = Ok qo /\
    (forall r, In r (Q.all qw) <->
               In r (Q.all (Q.nodes Demo.world Demo.case_)) /\
               Q.related Demo.world r "projects" Project <> []) /\
    (forall r, In r (Q.all qo) <->
               In r (Q.all (Q.nodes Demo.world Demo.case_)) /\
               Q.related Demo.world r "projects" Project = []).
Proof.
  exact (@link_filters_by_one_link Demo.world (Q.nodes Demo.world Demo.case_) "projects"
           [("with_links", Demo.strs_arg ["projects"])]
           [("without_links", Demo.strs_arg ["projects"])]
           eq_refl eq_refl eq_refl eq_refl).
Defined.
